(** * TooJpeg17: a shallow embedding of the baseline JPEG encoder

    The development follows [src/toojpeg_17.h] and [src/toojpeg_17.cpp];
    the string utilities of [src/stream_utils.h], the URL parser of
    [src/url.h] and the file names of [src/main.cpp] come after the encoder.
    Machine integers are integers of [Z] with the conversions of the source
    written out ([u8], [u16], [u32], [s16], [s32]); arrays are lists read with
    [!!] and updated with [<[ i := x ]>]; the byte sink is the log of the
    byte views it has received. *)

From Stdlib Require Import ZArith Lia String Ascii Floats.SpecFloat.
From stdpp Require Import base numbers list option strings.

Local Open Scope Z_scope.

(** ** Fixed-width integers *)

Definition u8 (x : Z) : Z := x `mod` 256.
Definition u16 (x : Z) : Z := x `mod` 65536.
Definition u32 (x : Z) : Z := x `mod` 4294967296.
(** Conversion to [int16_t] (two's complement). *)
Definition s16 (x : Z) : Z := (x + 32768) `mod` 65536 - 32768.

(** The largest [int] (32 bits). *)
Definition INT_MAX : Z := 2147483647.

(** The result of an [int] operation whose exact value is [x]. Beyond
    [INT_MAX] the source has undefined behaviour (signed overflow); the
    model wraps around in two's complement, as the usual targets do. It is
    written out where the operands can reach the limit, that is on the
    positions in the pixel buffer; the counters of the loops stay below
    [2^17]. *)
Definition s32 (x : Z) : Z := (x + 2147483648) `mod` 4294967296 - 2147483648.

(** Array read with the index of the source (an [int]); outside the array
    the source has undefined behaviour, the model yields [d]. *)
Definition at_ {A} (d : A) (l : list A) (i : Z) : A :=
  if decide (0 ≤ i) then default d (l !! Z.to_nat i) else d.

(** Array write [l[i] = x]. *)
Definition set_at {A} (l : list A) (i : Z) (x : A) : list A :=
  if decide (0 ≤ i) then <[ Z.to_nat i := x ]> l else l.

(** Counted loop [for (i = lo; i < ...; i += step)] run [n] times. *)
Fixpoint for_loop {S : Type} (n : nat) (i step : Z) (body : Z → S → S) (s : S) : S :=
  match n with
  | O => s
  | Datatypes.S n' => for_loop n' (i + step) step body (body i s)
  end.

(** Number of iterations of [for (i = 0; i < hi; i += step)]. *)
Definition trip_count (hi step : Z) : nat := Z.to_nat ((hi + step - 1) `div` step).

(** ** Bit codes and the byte sink *)

(** [struct BitCode]: a Huffman code and its number of valid bits. *)
Record BitCode := mkBitCode { code : Z; numBits : Z }.

(** The constructor [BitCode(uint16_t code_, uint8_t numBits_)] converts its
    arguments to the field types. *)
Definition BitCode_ (code_ numBits_ : Z) : BitCode :=
  mkBitCode (u16 code_) (u8 numBits_).

(** A default-initialised entry of a [constexpr] array ([{}]). *)
Definition BitCode0 : BitCode := mkBitCode 0 0.

(** [ByteView]: the bytes of a non-owned range. *)
Definition ByteView := list Z.

(** [WRITE_BACK]: the callback is known by the views it has been called with,
    oldest first. *)
Definition Sink := list ByteView.

(** All bytes the sink has received, in order. *)
Definition sink_bytes (s : Sink) : list Z := concat s.

(** [struct BitWriter]: the callback and the bit buffer. *)
Record BitWriter := mkBitWriter {
  output : Sink;
  buffer_data : Z;      (* uint32_t *)
  buffer_numBits : Z    (* uint8_t *)
}.

(** [explicit BitWriter(WRITE_BACK &&output_)]. *)
Definition BitWriter_new (output_ : Sink) : BitWriter := mkBitWriter output_ 0 0.

(** The callback a writer holds, as it stands. *)
Definition writer_output (w : BitWriter) : Sink := output w.

(** [output(view)]. *)
Definition call_output (w : BitWriter) (v : ByteView) : BitWriter :=
  mkBitWriter (output w ++ [v]) (buffer_data w) (buffer_numBits w).

(** [operator<<(std::uint8_t oneByte)]. *)
Definition put_byte (w : BitWriter) (oneByte : Z) : BitWriter :=
  call_output w [u8 oneByte].

(** [operator<<] on a 64-byte array, a [string_view] or a [ByteView]. *)
Definition put_view (w : BitWriter) (data : ByteView) : BitWriter :=
  call_output w data.

(** The [while (buffer.numBits >= 8)] loop of [operator<<(const BitCode &)];
    [fuel] bounds the iterations. *)
Fixpoint write_full_bytes (fuel : nat) (w : BitWriter) : BitWriter :=
  match fuel with
  | O => w
  | Datatypes.S fuel' =>
      if decide (8 ≤ buffer_numBits w) then
        let numBits' := u8 (buffer_numBits w - 8) in
        let oneByte := u8 (Z.shiftr (buffer_data w) numBits') in
        let w1 := put_byte (mkBitWriter (output w) (buffer_data w) numBits') oneByte in
        let w2 := if decide (oneByte = 255) then put_byte w1 0 else w1 in
        write_full_bytes fuel' w2
      else w
  end.

(** [BitWriter &operator<<(const BitCode &data)]. The buffer holds fewer than
    256 bits, so 32 iterations empty it. *)
Definition put_bitcode (w : BitWriter) (data : BitCode) : BitWriter :=
  let numBits' := u8 (buffer_numBits w + numBits data) in
  let data1 := u32 (Z.shiftl (buffer_data w) (numBits data)) in
  let data2 := Z.lor data1 (code data) in
  write_full_bytes 32 (mkBitWriter (output w) data2 numBits').

(** [void flush()]. *)
Definition flush (w : BitWriter) : BitWriter := put_bitcode w (BitCode_ 127 7).

(** [void addMarker(std::uint8_t id, uint16_t length)]. *)
Definition addMarker (w : BitWriter) (id length : Z) : BitWriter :=
  let length := u16 length in
  let w := call_output w [255] in
  let w := call_output w [u8 id] in
  let w := call_output w [u8 (Z.shiftr length 8)] in
  call_output w [u8 (Z.land length 255)].

(** C++ [int] division and remainder truncate towards zero. *)
Infix "/i" := Z.quot (at level 40, left associativity) : Z_scope.
Infix "%i" := Z.rem (at level 40, left associativity) : Z_scope.

(** [for (i = lo; i < hi; i += step)]. *)
Definition for_range {S : Type} (lo hi step : Z) (body : Z → S → S) (s : S) : S :=
  for_loop (trip_count (hi - lo) step) lo step body s.

(** [std::clamp(v, lo, hi)]. *)
Definition clamp (v lo hi : Z) : Z :=
  if decide (v < lo) then lo else if decide (hi < v) then hi else v.

(** ** The constants of [jpeg_constants.h] *)

(** Modelled from the spec: [jpeg_constants.h] is not among the sources. §4.B:
    the standard JPEG zig-zag permutation, read at a zig-zag index to get the
    row-major index. *)
Definition ZigZagInv : list Z :=
  [  0;  1;  8; 16;  9;  2;  3; 10;
    17; 24; 32; 25; 18; 11;  4;  5;
    12; 19; 26; 33; 40; 48; 41; 34;
    27; 20; 13;  6;  7; 14; 21; 28;
    35; 42; 49; 56; 57; 50; 43; 36;
    29; 22; 15; 23; 30; 37; 44; 51;
    58; 59; 52; 45; 38; 31; 39; 46;
    53; 60; 61; 54; 47; 55; 62; 63 ].

(** Modelled from the spec: [jpeg_constants.h] is not among the sources. §4.B:
    the JPEG Annex K luminance matrix, as [quant_table] reads it through
    [ZigZagInv]. *)
Definition DefaultQuantLuminance_A : list Z :=
  [ 16; 11; 10; 16;  24;  40;  51;  61;
    12; 12; 14; 19;  26;  58;  60;  55;
    14; 13; 16; 24;  40;  57;  69;  56;
    14; 17; 22; 29;  51;  87;  80;  62;
    18; 22; 37; 56;  68; 109; 103;  77;
    24; 35; 55; 64;  81; 104; 113;  92;
    49; 64; 78; 87; 103; 121; 120; 101;
    72; 92; 95; 98; 112; 100; 103;  99 ].

(** Modelled from the spec: [jpeg_constants.h] is not among the sources. §4.B:
    the JPEG Annex K chrominance matrix. *)
Definition DefaultQuantChrominance_A : list Z :=
  [ 17; 18; 24; 47; 99; 99; 99; 99;
    18; 21; 26; 66; 99; 99; 99; 99;
    24; 26; 56; 99; 99; 99; 99; 99;
    47; 66; 99; 99; 99; 99; 99; 99;
    99; 99; 99; 99; 99; 99; 99; 99;
    99; 99; 99; 99; 99; 99; 99; 99;
    99; 99; 99; 99; 99; 99; 99; 99;
    99; 99; 99; 99; 99; 99; 99; 99 ].

(** Modelled from the spec: [jpeg_constants.h] is not among the sources. §3 and
    §4.E: [LIMIT = 2048]. *)
Definition CodeWordLimit : Z := 2048.

(** Modelled from the spec: [jpeg_constants.h] is not among the sources. §4.B:
    the four baseline Huffman tables of the JPEG specification (Annex K.3),
    each as its 16 counts per code length and its values. *)
Definition DcLuminanceCodesPerBitsize : list Z :=
  [0; 1; 5; 1; 1; 1; 1; 1; 1; 0; 0; 0; 0; 0; 0; 0].
Definition DcLuminanceValues : list Z :=
  [0; 1; 2; 3; 4; 5; 6; 7; 8; 9; 10; 11].
Definition AcLuminanceCodesPerBitsize : list Z :=
  [0; 2; 1; 3; 3; 2; 4; 3; 5; 5; 4; 4; 0; 0; 1; 125].
Definition AcLuminanceValues : list Z :=
  [ 0x01; 0x02; 0x03; 0x00; 0x04; 0x11; 0x05; 0x12; 0x21; 0x31; 0x41; 0x06; 0x13; 0x51; 0x61; 0x07;
    0x22; 0x71; 0x14; 0x32; 0x81; 0x91; 0xA1; 0x08; 0x23; 0x42; 0xB1; 0xC1; 0x15; 0x52; 0xD1; 0xF0;
    0x24; 0x33; 0x62; 0x72; 0x82; 0x09; 0x0A; 0x16; 0x17; 0x18; 0x19; 0x1A; 0x25; 0x26; 0x27; 0x28;
    0x29; 0x2A; 0x34; 0x35; 0x36; 0x37; 0x38; 0x39; 0x3A; 0x43; 0x44; 0x45; 0x46; 0x47; 0x48; 0x49;
    0x4A; 0x53; 0x54; 0x55; 0x56; 0x57; 0x58; 0x59; 0x5A; 0x63; 0x64; 0x65; 0x66; 0x67; 0x68; 0x69;
    0x6A; 0x73; 0x74; 0x75; 0x76; 0x77; 0x78; 0x79; 0x7A; 0x83; 0x84; 0x85; 0x86; 0x87; 0x88; 0x89;
    0x8A; 0x92; 0x93; 0x94; 0x95; 0x96; 0x97; 0x98; 0x99; 0x9A; 0xA2; 0xA3; 0xA4; 0xA5; 0xA6; 0xA7;
    0xA8; 0xA9; 0xAA; 0xB2; 0xB3; 0xB4; 0xB5; 0xB6; 0xB7; 0xB8; 0xB9; 0xBA; 0xC2; 0xC3; 0xC4; 0xC5;
    0xC6; 0xC7; 0xC8; 0xC9; 0xCA; 0xD2; 0xD3; 0xD4; 0xD5; 0xD6; 0xD7; 0xD8; 0xD9; 0xDA; 0xE1; 0xE2;
    0xE3; 0xE4; 0xE5; 0xE6; 0xE7; 0xE8; 0xE9; 0xEA; 0xF1; 0xF2; 0xF3; 0xF4; 0xF5; 0xF6; 0xF7; 0xF8;
    0xF9; 0xFA ].
Definition DcChrominanceCodesPerBitsize : list Z :=
  [0; 3; 1; 1; 1; 1; 1; 1; 1; 1; 1; 0; 0; 0; 0; 0].
Definition DcChrominanceValues : list Z :=
  [0; 1; 2; 3; 4; 5; 6; 7; 8; 9; 10; 11].
Definition AcChrominanceCodesPerBitsize : list Z :=
  [0; 2; 1; 2; 4; 4; 3; 4; 7; 5; 4; 4; 0; 1; 2; 119].
Definition AcChrominanceValues : list Z :=
  [ 0x00; 0x01; 0x02; 0x03; 0x11; 0x04; 0x05; 0x21; 0x31; 0x06; 0x12; 0x41; 0x51; 0x07; 0x61; 0x71;
    0x13; 0x22; 0x32; 0x81; 0x08; 0x14; 0x42; 0x91; 0xA1; 0xB1; 0xC1; 0x09; 0x23; 0x33; 0x52; 0xF0;
    0x15; 0x62; 0x72; 0xD1; 0x0A; 0x16; 0x24; 0x34; 0xE1; 0x25; 0xF1; 0x17; 0x18; 0x19; 0x1A; 0x26;
    0x27; 0x28; 0x29; 0x2A; 0x35; 0x36; 0x37; 0x38; 0x39; 0x3A; 0x43; 0x44; 0x45; 0x46; 0x47; 0x48;
    0x49; 0x4A; 0x53; 0x54; 0x55; 0x56; 0x57; 0x58; 0x59; 0x5A; 0x63; 0x64; 0x65; 0x66; 0x67; 0x68;
    0x69; 0x6A; 0x73; 0x74; 0x75; 0x76; 0x77; 0x78; 0x79; 0x7A; 0x82; 0x83; 0x84; 0x85; 0x86; 0x87;
    0x88; 0x89; 0x8A; 0x92; 0x93; 0x94; 0x95; 0x96; 0x97; 0x98; 0x99; 0x9A; 0xA2; 0xA3; 0xA4; 0xA5;
    0xA6; 0xA7; 0xA8; 0xA9; 0xAA; 0xB2; 0xB3; 0xB4; 0xB5; 0xB6; 0xB7; 0xB8; 0xB9; 0xBA; 0xC2; 0xC3;
    0xC4; 0xC5; 0xC6; 0xC7; 0xC8; 0xC9; 0xCA; 0xD2; 0xD3; 0xD4; 0xD5; 0xD6; 0xD7; 0xD8; 0xD9; 0xDA;
    0xE2; 0xE3; 0xE4; 0xE5; 0xE6; 0xE7; 0xE8; 0xE9; 0xEA; 0xF2; 0xF3; 0xF4; 0xF5; 0xF6; 0xF7; 0xF8;
    0xF9; 0xFA ].

(** ** Tables computed at compile time *)

(** State of the loop of [codewords_for_quantized_dct]. *)
Record cw_state := mkCw { cw_array : list BitCode; cw_numBits : Z; cw_mask : Z }.

(** One iteration for [value]; [codewords] points at index [CodeWordLimit]. *)
Definition codewords_step (value : Z) (s : cw_state) : cw_state :=
  let '(numBits, mask) :=
    if decide (value > cw_mask s)
    then (u8 (cw_numBits s + 1), u32 (Z.lor (Z.shiftl (cw_mask s) 1) 1))
    else (cw_numBits s, cw_mask s) in
  let a1 := set_at (cw_array s) (CodeWordLimit - value) (BitCode_ (u32 (mask - value)) numBits) in
  let a2 := set_at a1 (CodeWordLimit + value) (BitCode_ value numBits) in
  mkCw a2 numBits mask.

(** [codewords_for_quantized_dct()]. *)
Definition codewords_for_quantized_dct : list BitCode :=
  cw_array (for_range 1 CodeWordLimit 1 codewords_step
              (mkCw (replicate (Z.to_nat (2 * CodeWordLimit)) BitCode0) 1 1)).

(** [codewordsArray], and [codewords[v]] with [codewords = &codewordsArray[CodeWordLimit]]. *)
Definition codewordsArray : list BitCode := codewords_for_quantized_dct.
Definition codewords (v : Z) : BitCode := at_ BitCode0 codewordsArray (CodeWordLimit + v).

(** [quant_table(defaults, quality)]; the parameter [quality] is an
    [unsigned char], the argument is converted on entry. *)
Definition quant_table (defaults : list Z) (quality : Z) : list Z :=
  let quality := u8 quality in
  for_range 0 (8 * 8) 1
    (fun i quantLuminance =>
       let luminance := (at_ 0 defaults (at_ 0 ZigZagInv i) * quality + 50) /i 100 in
       set_at quantLuminance i (u8 (clamp luminance 1 255)))
    (replicate 64 0).

(** State of [generateHuffmanTable]: the table, the running code and the
    position of the [values] pointer. *)
Record huff_state := mkHuff { h_result : list BitCode; h_code : Z; h_pos : Z }.

(** [generateHuffmanTable(numCodes, values)]. *)
Definition generateHuffmanTable (numCodes values : list Z) : list BitCode :=
  h_result
    (for_range 1 17 1
       (fun numBits s =>
          let s' :=
            for_range 0 (at_ 0 numCodes (numBits - 1)) 1
              (fun _ s =>
                 mkHuff (set_at (h_result s) (at_ 0 values (h_pos s)) (BitCode_ (h_code s) numBits))
                        (u16 (h_code s + 1)) (h_pos s + 1))
              s in
          mkHuff (h_result s') (u16 (Z.shiftl (h_code s') 1)) (h_pos s'))
       (mkHuff (replicate 256 BitCode0) 0 0)).

Definition ht_l_dc := generateHuffmanTable DcLuminanceCodesPerBitsize DcLuminanceValues.
Definition ht_l_ac := generateHuffmanTable AcLuminanceCodesPerBitsize AcLuminanceValues.
Definition ht_c_dc := generateHuffmanTable DcChrominanceCodesPerBitsize DcChrominanceValues.
Definition ht_c_ac := generateHuffmanTable AcChrominanceCodesPerBitsize AcChrominanceValues.

(** [huffman(luminance)]: the DC and the AC table. *)
Definition huffman (luminance : bool) : list BitCode * list BitCode :=
  if luminance then (ht_l_dc, ht_l_ac) else (ht_c_dc, ht_c_ac).

(** ** Floating point *)

(** The arithmetic of [float] and [double] the encoder uses. The functions
    below are written over this interface; [IEEE] further down instantiates
    it with IEEE 754 binary32 and binary64, rounding to nearest even. *)
Class FloatOps := {
  float : Type;
  double : Type;
  (** the literal [m·10^e] with suffix [f], and without *)
  flit : Z → Z → float;
  dlit : Z → Z → double;
  (** conversion of an integer value *)
  f_of_int : Z → float;
  d_of_int : Z → double;
  fadd : float → float → float;
  fsub : float → float → float;
  fmul : float → float → float;
  fdiv : float → float → float;
  fopp : float → float;
  d_of_f : float → double;
  f_of_d : double → float;
  dadd : double → double → double;
  dsub : double → double → double;
  dmul : double → double → double;
  ddiv : double → double → double;
  dabs : double → double;
  dleb : double → double → bool;
  dltb : double → double → bool;
  (** [std::numeric_limits<double>::epsilon()] and [::min()] *)
  d_epsilon : double;
  d_min : double;
  (** [std::nearbyint] on [float], and the conversion [int(x)] *)
  fnearbyint : float → float;
  int_of_f : float → Z
}.

Section Encoder.
Context `{FO : FloatOps}.

Definition f0 : float := f_of_int 0.

(** [rgb2y], [rgb2cb], [rgb2cr]; the arguments have been converted to
    [float] by the caller. *)
Definition rgb2y (r g b : float) : float :=
  fadd (fadd (fmul (flit 299 (-3)) r) (fmul (flit 587 (-3)) g)) (fmul (flit 114 (-3)) b).

Definition rgb2cb (r g b : float) : float :=
  fadd (fsub (fmul (fopp (flit 16874 (-5))) r) (fmul (flit 33126 (-5)) g))
       (fmul (flit 5 (-1)) b).

Definition rgb2cr (r g b : float) : float :=
  fsub (fsub (fmul (flit 5 (-1)) r) (fmul (flit 41869 (-5)) g))
       (fmul (flit 8131 (-5)) b).

(** [is_close<double>]. *)
Definition is_close (a b : double) : bool :=
  dleb (dabs (dsub a b)) (dmul d_epsilon (dabs (dadd a b)))
  || dltb (dabs (dsub a b)) d_min.

(** [sqrt_helper]; [depth] bounds the recursion as the compiler bounds the
    depth of a constant evaluation. *)
Fixpoint sqrt_helper (depth : nat) (x curr prev : double) : double :=
  match depth with
  | O => curr
  | Datatypes.S depth' =>
      if is_close curr prev then curr
      else sqrt_helper depth' x (dmul (dlit 5 (-1)) (dadd curr (ddiv x curr))) curr
  end.

(** [constexpr double sqrt(double x)]. *)
Definition sqrt (x : double) : double := sqrt_helper 512 x x (d_of_int 0).

Definition SqrtHalfSqrt : double :=
  sqrt (ddiv (dadd (d_of_int 2) (sqrt (d_of_int 2))) (d_of_int 2)).
Definition InvSqrt : double := ddiv (dlit 10 (-1)) (sqrt (d_of_int 2)).
Definition HalfSqrtSqrt : double :=
  ddiv (sqrt (dsub (d_of_int 2) (sqrt (d_of_int 2)))) (dlit 20 (-1)).
Definition InvSqrtSqrt : double :=
  ddiv (dlit 10 (-1)) (sqrt (dadd (d_of_int 2) (sqrt (d_of_int 2)))).

(** [void DCT(float block[8 * 8], bool horizontal)], called on
    [block64 + base]. Products with a [double] constant are computed in
    [double] and rounded when stored. *)
Definition DCT (block64 : list float) (base : Z) (horizontal : bool) : list float :=
  let stride := if horizontal then 1 else 8 in
  let block0 := at_ f0 block64 base in
  let block1 := at_ f0 block64 (base + 1 * stride) in
  let block2 := at_ f0 block64 (base + 2 * stride) in
  let block3 := at_ f0 block64 (base + 3 * stride) in
  let block4 := at_ f0 block64 (base + 4 * stride) in
  let block5 := at_ f0 block64 (base + 5 * stride) in
  let block6 := at_ f0 block64 (base + 6 * stride) in
  let block7 := at_ f0 block64 (base + 7 * stride) in
  let add07 := fadd block0 block7 in
  let sub07 := fsub block0 block7 in
  let add16 := fadd block1 block6 in
  let sub16 := fsub block1 block6 in
  let add25 := fadd block2 block5 in
  let sub25 := fsub block2 block5 in
  let add34 := fadd block3 block4 in
  let sub34 := fsub block3 block4 in
  let add0347 := fadd add07 add34 in
  let sub07_34 := fsub add07 add34 in
  let add1256 := fadd add16 add25 in
  let sub16_25 := fsub add16 add25 in
  let b := set_at block64 base (fadd add0347 add1256) in
  let b := set_at b (base + 4 * stride) (fsub add0347 add1256) in
  let z1 := dmul (d_of_f (fadd sub16_25 sub07_34)) InvSqrt in
  let b := set_at b (base + 2 * stride) (f_of_d (dadd (d_of_f sub07_34) z1)) in
  let b := set_at b (base + 6 * stride) (f_of_d (dsub (d_of_f sub07_34) z1)) in
  let sub23_45 := fadd sub25 sub34 in
  let sub12_56 := fadd sub16 sub25 in
  let sub01_67 := fadd sub16 sub07 in
  let z5 := dmul (d_of_f (fsub sub23_45 sub01_67)) HalfSqrtSqrt in
  let z2 := dadd (dmul (d_of_f sub23_45) InvSqrtSqrt) z5 in
  let z3 := dmul (d_of_f sub12_56) InvSqrt in
  let z4 := dadd (dmul (d_of_f sub01_67) SqrtHalfSqrt) z5 in
  let z6 := dadd (d_of_f sub07) z3 in
  let z7 := dsub (d_of_f sub07) z3 in
  let b := set_at b (base + 1 * stride) (f_of_d (dadd z6 z4)) in
  let b := set_at b (base + 7 * stride) (f_of_d (dsub z6 z4)) in
  let b := set_at b (base + 5 * stride) (f_of_d (dadd z7 z2)) in
  set_at b (base + 3 * stride) (f_of_d (dsub z7 z2)).

(** Modelled from the spec: [jpeg_constants.h] is not among the sources. §4.B:
    the eight post-scaling factors of the AAN transform, [1] and
    [cos(k·π/16)·√2] for [k = 1..7]. *)
Definition AanScaleFactors : list float :=
  [ f_of_int 1; flit 1387039845 (-9); flit 1306562965 (-9); flit 1175875602 (-9);
    f_of_int 1; flit 785694958 (-9); flit 541196100 (-9); flit 275899379 (-9) ].

(** [scaled_luminance(quantLuminance)]. *)
Definition scaled_luminance (quantLuminance : list Z) : list float :=
  for_range 0 (8 * 8) 1
    (fun i scaledLuminance =>
       let row := at_ 0 ZigZagInv i /i 8 in
       let column := at_ 0 ZigZagInv i %i 8 in
       let factor :=
         fdiv (f_of_int 1)
              (fmul (fmul (at_ f0 AanScaleFactors row) (at_ f0 AanScaleFactors column))
                    (f_of_int 8)) in
       set_at scaledLuminance (at_ 0 ZigZagInv i)
              (fdiv factor (f_of_int (at_ 0 quantLuminance i))))
    (replicate 64 f0).

(** [scaled_chrominance(quantChrominance)]. *)
Definition scaled_chrominance (quantChrominance : list Z) : list float :=
  for_range 0 (8 * 8) 1
    (fun i scaledChrominance =>
       let row := at_ 0 ZigZagInv i /i 8 in
       let column := at_ 0 ZigZagInv i %i 8 in
       let factor :=
         fdiv (f_of_int 1)
              (fmul (fmul (at_ f0 AanScaleFactors row) (at_ f0 AanScaleFactors column))
                    (f_of_int 8)) in
       set_at scaledChrominance (at_ 0 ZigZagInv i)
              (fdiv factor (f_of_int (at_ 0 quantChrominance i))))
    (replicate 64 f0).

(** ** The block encoder *)

(** What [encode_block] hands to the writer, one value for each
    [writer << ...]: an entry of the DC table, an entry of the AC table, or
    the codeword [codewords[v]]. *)
Inductive Symbol :=
| HuffDC (symbol : Z)
| HuffAC (symbol : Z)
| CodeWord (v : Z).

(** The bit code a symbol stands for, with the tables of [huffman(luminance)]. *)
Definition bitcode_of (luminance : bool) (s : Symbol) : BitCode :=
  let '(huffmanDC, huffmanAC) := huffman luminance in
  match s with
  | HuffDC symbol => at_ BitCode0 huffmanDC symbol
  | HuffAC symbol => at_ BitCode0 huffmanAC symbol
  | CodeWord v => codewords v
  end.

(** [int16_t quantized[8 * 8]] is not initialised: an entry is [None] until
    it is written. Reading an entry that is outside the array or was never
    written has no defined result. *)
Definition quantized_at (quantized : list (option Z)) (i : Z) : option Z :=
  if decide (0 ≤ i) then
    match quantized !! Z.to_nat i with
    | Some (Some v) => Some v
    | _ => None
    end
  else None.

(** The loop "quantize and zigzag the other 63 coefficients"; [value i] is
    what is stored at [quantized[i]]. Returns [quantized] and [posNonZero]. *)
Definition quantize (value : Z → Z) : list (option Z) * Z :=
  for_range 1 (8 * 8) 1
    (fun i '(quantized, posNonZero) =>
       let quantized := set_at quantized i (Some (value i)) in
       let posNonZero := if decide (value i ≠ 0) then i else posNonZero in
       (quantized, posNonZero))
    (replicate 64 None, 0).

(** The inner loop [while (quantized[i] == 0)]: returns [i], [offset] and the
    symbols written. [None]: an undefined read, or [fuel] used up. *)
Fixpoint skip_zeros (fuel : nat) (quantized : list (option Z)) (i offset : Z)
  : option (Z * Z * list Symbol) :=
  match fuel with
  | O => None
  | Datatypes.S fuel' =>
      v ← quantized_at quantized i;
      if decide (v = 0) then
        let offset := offset + 16 in
        let '(zrl, offset) :=
          if decide (offset > 240) then ([HuffAC 240], 0) else ([], offset) in
        '(i', offset', syms) ← skip_zeros fuel' quantized (i + 1) offset;
        Some (i', offset', zrl ++ syms)
      else Some (i, offset, [])
  end.

(** The loop [for (auto i = 1; i <= posNonZero; i++)] from [i] on, with
    [offset] as the previous iteration left it. *)
Fixpoint encode_ACs (fuel : nat) (quantized : list (option Z)) (posNonZero i offset : Z)
  : option (list Symbol) :=
  match fuel with
  | O => None
  | Datatypes.S fuel' =>
      if decide (i ≤ posNonZero) then
        '(i, offset, zrls) ← skip_zeros 64 quantized i offset;
        v ← quantized_at quantized i;
        let encoded := codewords v in
        rest ← encode_ACs fuel' quantized posNonZero (i + 1) 0;
        Some (zrls ++ [HuffAC (offset + numBits encoded); CodeWord v] ++ rest)
      else Some []
  end.

(** "Encode DC": what is written for the difference [diff = DC - lastDC]. *)
Definition dc_symbols (diff : Z) : list Symbol :=
  if decide (diff = 0) then [HuffDC 0]
  else let bits := codewords diff in [HuffDC (numBits bits); CodeWord diff].

(** The symbols of one block, from [DC], [lastDC] and the values the
    quantization loop stores: the DC difference, the AC coefficients and the
    end-of-block code. *)
Definition block_symbols (DC lastDC : Z) (value : Z → Z) : option (list Symbol) :=
  let '(quantized, posNonZero) := quantize value in
  let diff := DC - lastDC in
  acs ← encode_ACs 64 quantized posNonZero 1 0;
  let eob := if decide (posNonZero < 8 * 8 - 1) then [HuffAC 0] else [] in
  Some (dc_symbols diff ++ acs ++ eob).

(** The block after both DCT passes and the scaling. *)
Definition transform_block (block64 scaled : list float) : list float :=
  let block64 := for_range 0 8 1 (fun offset b => DCT b (offset * 8) true) block64 in
  let block64 := for_range 0 8 1 (fun offset b => DCT b (offset * 1) false) block64 in
  for_range 0 (8 * 8) 1 (fun i b => set_at b i (fmul (at_ f0 b i) (at_ f0 scaled i))) block64.

(** [DC] of a transformed block: [int(std::nearbyint(block64[0]))]. *)
Definition block_DC (block64 : list float) : Z :=
  int_of_f (fnearbyint (at_ f0 block64 0)).

(** What the quantization loop stores at [quantized[i]] for a transformed
    block: [int(std::nearbyint(block64[ZigZagInv[i]]))] as an [int16_t]. *)
Definition block_value (block64 : list float) (i : Z) : Z :=
  s16 (int_of_f (fnearbyint (at_ f0 block64 (at_ 0 ZigZagInv i)))).

(** [encode_block<luminance>(writer, block64, scaled, lastDC)]: the writer
    after the block, the block as the call leaves it, and the returned DC as
    an [int16_t]. *)
Definition encode_block (luminance : bool) (writer : BitWriter)
    (block64 scaled : list float) (lastDC : Z) : option (BitWriter * list float * Z) :=
  let block64 := transform_block block64 scaled in
  let DC := block_DC block64 in
  syms ← block_symbols DC lastDC (block_value block64);
  Some (foldl put_bitcode writer (bitcode_of luminance <$> syms), block64, s16 DC).

(** ** The MCU scheduler *)

(** The arrays [Y], [Cb] and [Cr] of [writeJpegIntern], each flattened to 64
    entries: [Y[deltaY][deltaX]] is entry [deltaY * 8 + deltaX]. *)
Record Blocks := mkBlocks { Y : list float; Cb : list float; Cr : list float }.

(** The arrays are declared without an initialiser: they first hold
    whatever the stack holds there, [stack]. *)
Definition uninitialised (stack : nat → float) : Blocks :=
  mkBlocks (stack <$> seq 0 64) (stack <$> seq 64 64) (stack <$> seq 128 64).

(** [pixels[pos]]. *)
Definition pixel (pixels : list Z) (pos : Z) : Z := at_ 0 pixels pos.

(** The body of [for (auto deltaX = 0; deltaX < 8; deltaX++)] in the loop
    that fills a block; the state is [column] and the arrays. *)
Definition fill_sample (pixels : list Z) (width : Z) (downsample isRGB : bool)
    (maxWidth row deltaY deltaX : Z) (st : Z * Blocks) : Z * Blocks :=
  let '(column, b) := st in
  let pixelPos := s32 (s32 (row * width) + column) in
  let column := if decide (column < maxWidth) then column + 1 else column in
  if negb isRGB then
    (column,
     mkBlocks (set_at (Y b) (deltaY * 8 + deltaX)
                 (fsub (f_of_int (pixel pixels pixelPos)) (flit 128 0)))
              (Cb b) (Cr b))
  else
    let r := f_of_int (pixel pixels (s32 (3 * pixelPos))) in
    let g := f_of_int (pixel pixels (s32 (s32 (3 * pixelPos) + 1))) in
    let b' := f_of_int (pixel pixels (s32 (s32 (3 * pixelPos) + 2))) in
    let Y' := set_at (Y b) (deltaY * 8 + deltaX) (fsub (rgb2y r g b') (f_of_int 128)) in
    if negb downsample then
      (column,
       mkBlocks Y' (set_at (Cb b) (deltaY * 8 + deltaX) (rgb2cb r g b'))
                   (set_at (Cr b) (deltaY * 8 + deltaX) (rgb2cr r g b')))
    else (column, mkBlocks Y' (Cb b) (Cr b)).

(** The loop [for (auto deltaY = 0; deltaY < 8; deltaY++)] that fills the
    8x8 block at [(mcuX + blockX, mcuY + blockY)]. *)
Definition fill_block (pixels : list Z) (width height : Z) (downsample isRGB : bool)
    (mcuX mcuY blockX blockY : Z) (b : Blocks) : Blocks :=
  let maxWidth := width - 1 in
  let maxHeight := height - 1 in
  for_range 0 8 1
    (fun deltaY b =>
       let column := Z.min (mcuX + blockX) maxWidth in
       let row := Z.min (mcuY + blockY + deltaY) maxHeight in
       snd (for_range 0 8 1
              (fill_sample pixels width downsample isRGB maxWidth row deltaY)
              (column, b)))
    b.

(** State of the inner loop of the 4:2:0 chrominance pass. *)
Record chroma_state := mkChroma {
  c_pixelPos : Z; c_column : Z; c_columnStep : Z; c_Cb : list float; c_Cr : list float
}.

(** The body of [for (short deltaX = 0; deltaX < 8; deltaX++)] of that pass. *)
Definition chroma_sample (pixels : list Z) (width maxWidth row rowStep deltaY deltaX : Z)
    (s : chroma_state) : chroma_state :=
  let pixelPos := c_pixelPos s in
  let columnStep := c_columnStep s in
  let right := s32 (pixelPos + columnStep) in
  let down := s32 (pixelPos + rowStep) in
  let downRight := s32 (s32 (pixelPos + columnStep) + rowStep) in
  let r := pixel pixels pixelPos + pixel pixels right + pixel pixels down
           + pixel pixels downRight in
  let g := pixel pixels (s32 (pixelPos + 1)) + pixel pixels (s32 (right + 1))
           + pixel pixels (s32 (down + 1)) + pixel pixels (s32 (downRight + 1)) in
  let b := pixel pixels (s32 (pixelPos + 2)) + pixel pixels (s32 (right + 2))
           + pixel pixels (s32 (down + 2)) + pixel pixels (s32 (downRight + 2)) in
  let Cb' := set_at (c_Cb s) (deltaY * 8 + deltaX)
               (fdiv (rgb2cb (f_of_int r) (f_of_int g) (f_of_int b)) (f_of_int 4)) in
  let Cr' := set_at (c_Cr s) (deltaY * 8 + deltaX)
               (fdiv (rgb2cr (f_of_int r) (f_of_int g) (f_of_int b)) (f_of_int 4)) in
  let pixelPos := s32 (pixelPos + 2 * 3) in
  let column := c_column s + 2 in
  if decide (maxWidth ≤ column)
  then mkChroma (s32 (s32 (s32 ((row + 1) * width) - 1) * 3)) column 0 Cb' Cr'
  else mkChroma pixelPos column columnStep Cb' Cr'.

(** The 4:2:0 pass [for (short deltaY = 7; deltaY >= 0; deltaY--)]: [Cb] and
    [Cr] from the 2x2 areas of the MCU at [(mcuX, mcuY)]. *)
Definition downsample_chroma (pixels : list Z) (width height mcuX mcuY : Z) (b : Blocks)
  : Blocks :=
  let maxWidth := width - 1 in
  let maxHeight := height - 1 in
  let '(Cb', Cr') :=
    for_loop 8 7 (-1)
      (fun deltaY '(Cb0, Cr0) =>
         let row := Z.min (mcuY + 2 * deltaY) maxHeight in
         let column := mcuX in
         let pixelPos := s32 (s32 (s32 (row * width) + column) * 3) in
         let rowStep := if decide (row < maxHeight) then s32 (3 * width) else 0 in
         let columnStep := if decide (column < maxWidth) then 3 else 0 in
         let s := for_range 0 8 1
                    (chroma_sample pixels width maxWidth row rowStep deltaY)
                    (mkChroma pixelPos column columnStep Cb0 Cr0) in
         (c_Cb s, c_Cr s))
      (Cb b, Cr b) in
  mkBlocks (Y b) Cb' Cr'.

(** What the loops over the MCUs carry along. *)
Record mcu_state := mkMcu {
  writer : BitWriter;
  lastYDC : Z; lastCbDC : Z; lastCrDC : Z;
  blocks : Blocks
}.

(** Fills and encodes the Y block at [(blockX, blockY)] of the MCU. *)
Definition encode_Y_block (pixels : list Z) (width height : Z) (downsample isRGB : bool)
    (scaled_luminance : list float) (mcuX mcuY blockX blockY : Z) (s : mcu_state)
  : option mcu_state :=
  let b := fill_block pixels width height downsample isRGB mcuX mcuY blockX blockY (blocks s) in
  '(w, Y', DC) ← encode_block true (writer s) (Y b) scaled_luminance (lastYDC s);
  Some (mkMcu w DC (lastCbDC s) (lastCrDC s) (mkBlocks Y' (Cb b) (Cr b))).

(** The body of the loop over [mcuX]: one MCU. *)
Definition encode_mcu (pixels : list Z) (width height : Z) (downsample isRGB : bool)
    (scaled_luminance scaled_chrominance : list float) (mcuY mcuX : Z) (s : mcu_state)
  : option mcu_state :=
  let sampling := if downsample then 2 else 1 in
  let mcuSize := 8 * sampling in
  s ← for_range 0 mcuSize 8
        (fun blockY => for_range 0 mcuSize 8
           (fun blockX s =>
              s ≫= encode_Y_block pixels width height downsample isRGB scaled_luminance
                      mcuX mcuY blockX blockY))
        (Some s);
  if negb isRGB then Some s
  else
    let b := if downsample then downsample_chroma pixels width height mcuX mcuY (blocks s)
             else blocks s in
    '(w, Cb', DCb) ← encode_block false (writer s) (Cb b) scaled_chrominance (lastCbDC s);
    '(w, Cr', DCr) ← encode_block false w (Cr b) scaled_chrominance (lastCrDC s);
    Some (mkMcu w (lastYDC s) DCb DCr (mkBlocks (Y b) Cb' Cr')).

(** ** The container *)

(** [writeJpegIntern], from the JFIF header to the end of the SOS segment:
    everything written before the first MCU. *)
Definition write_headers (bitWriter : BitWriter) (width height : Z)
    (downsample isRGB : bool) (quantLuminance quantChrominance : list Z)
    (comment : list Z) : BitWriter :=
  let numComponents := if isRGB then 3 else 1 in
  let HeaderJfif :=
    [ 255; 216; 255; 224; 0; 16; 74; 70; 73; 70; 0; 1; 1; 0; 0; 1; 0; 1; 0; 0 ] in
  let w := put_view bitWriter HeaderJfif in
  (* comment (optional) *)
  let w :=
    if decide (comment ≠ [])
    then put_view (addMarker w 254 (2 + Z.of_nat (length comment))) comment
    else w in
  (* quantization tables *)
  let w := addMarker w 219 (2 + (if isRGB then 2 else 1) * (1 + 8 * 8)) in
  let w := put_view (put_byte w 0) quantLuminance in
  let w := if isRGB then put_view (put_byte w 1) quantChrominance else w in
  (* SOF0 *)
  let w := addMarker w 192 (2 + 6 + 3 * numComponents) in
  let w := put_byte w 8 in
  let w := put_byte w (Z.shiftr height 8) in
  let w := put_byte w (Z.land height 255) in
  let w := put_byte w (Z.shiftr width 8) in
  let w := put_byte w (Z.land width 255) in
  let w := put_byte w numComponents in
  let w :=
    for_range 1 (numComponents + 1) 1
      (fun id w =>
         let w := put_byte w id in
         let w := put_byte w (if decide (id = 1) then (if downsample then 34 else 17) else 17) in
         put_byte w (if decide (id = 1) then 0 else 1))
      w in
  (* Huffman tables *)
  let len := 1 + 16 + 12 + 1 + 16 + 162 in
  let w := addMarker w 196 (if isRGB then 2 + len + len else 2 + len) in
  let w := put_view (put_view (put_byte w 0) DcLuminanceCodesPerBitsize) DcLuminanceValues in
  let w := put_view (put_view (put_byte w 16) AcLuminanceCodesPerBitsize) AcLuminanceValues in
  let w :=
    if isRGB then
      let w := put_view (put_view (put_byte w 1) DcChrominanceCodesPerBitsize)
                        DcChrominanceValues in
      put_view (put_view (put_byte w 17) AcChrominanceCodesPerBitsize) AcChrominanceValues
    else w in
  (* start of scan *)
  let w := addMarker w 218 (2 + 1 + 2 * numComponents + 3) in
  let w := put_byte w numComponents in
  let w :=
    for_range 1 (numComponents + 1) 1
      (fun id w => put_byte (put_byte w id) (if decide (id = 1) then 0 else 17))
      w in
  put_view w [0; 63; 0].

(** The two loops over the MCUs of [writeJpegIntern]. *)
Definition encode_mcus (pixels : list Z) (width height : Z) (downsample isRGB : bool)
    (scaled_luminance scaled_chrominance : list float) (s : mcu_state) : option mcu_state :=
  let sampling := if downsample then 2 else 1 in
  let mcuSize := 8 * sampling in
  for_range 0 height mcuSize
    (fun mcuY =>
       for_range 0 width mcuSize
         (fun mcuX s =>
            s ≫= encode_mcu pixels width height downsample isRGB
                   scaled_luminance scaled_chrominance mcuY mcuX))
    (Some s).

(** [writeJpegIntern]: the returned [bool] and the writer at the end, or
    [None] where the source has no defined result. [stack] is what the
    uninitialised arrays first hold. *)
Definition writeJpegIntern (bitWriter : BitWriter) (pixels : list Z) (width height : Z)
    (downsample isRGB : bool) (quantLuminance quantChrominance : list Z)
    (scaled_luminance scaled_chrominance : list float) (comment : list Z)
    (stack : nat → float) : option (bool * BitWriter) :=
  let w := write_headers bitWriter width height downsample isRGB
             quantLuminance quantChrominance comment in
  s ← encode_mcus pixels width height downsample isRGB scaled_luminance scaled_chrominance
        (mkMcu w 0 0 0 (uninitialised stack));
  let w := flush (writer s) in
  let w := put_byte (put_byte w 255) 217 in
  Some (true, w).

(** How a call of the entry points ends. *)
Inductive Outcome :=
| Returned (ok : bool) (output : Sink)    (* [return ok], the sink as the call leaves it *)
| Thrown (what : string) (output : Sink)  (* [throw std::runtime_error(what)] *)
| Undefined                               (* no defined result *)
| IllFormed.                              (* a [static_assert] fails: no program *)

(** [writeJpegQuality]. [pixels] is [None] for a null pointer. *)
Definition writeJpegQuality (output : Sink) (pixels : option (list Z)) (width height : Z)
    (downsample isRGB : bool) (quality_ : Z) (comment : list Z) (stack : nat → float)
  : Outcome :=
  let downsample := if negb isRGB then false else downsample in
  if negb (bool_decide (quality_ > 1) && bool_decide (quality_ ≤ 100))
  then Thrown "Quality must be in [1..100]" output
  else
    let quality := if decide (quality_ < 50) then 5000 /i quality_ else 200 - quality_ * 2 in
    match pixels with
    | None => Returned false output
    | Some pixels =>
        if bool_decide (width = 0) || bool_decide (height = 0) then Returned false output
        else
          let quantLuminance := quant_table DefaultQuantLuminance_A quality in
          let quantChrominance := quant_table DefaultQuantChrominance_A quality in
          let scaledLuminance := scaled_luminance quantLuminance in
          let scaledChrominance := scaled_chrominance quantChrominance in
          match writeJpegIntern (BitWriter_new output) pixels width height downsample isRGB
                  quantLuminance quantChrominance scaledLuminance scaledChrominance
                  comment stack with
          | Some (ok, w) => Returned ok (writer_output w)
          | None => Undefined
          end
    end.

(** [writeJpeg<quality_>]: the template, with its [static_assert]. *)
Definition writeJpeg (quality_ : Z) (output : Sink) (pixels : option (list Z))
    (width height : Z) (downsample isRGB : bool) (comment : list Z) (stack : nat → float)
  : Outcome :=
  let downsample := if negb isRGB then false else downsample in
  if negb (bool_decide (quality_ > 1) && bool_decide (quality_ ≤ 100))
  then IllFormed
  else
    let quality := if decide (quality_ < 50) then 5000 /i quality_ else 200 - quality_ * 2 in
    match pixels with
    | None => Returned false output
    | Some pixels =>
        if bool_decide (width = 0) || bool_decide (height = 0) then Returned false output
        else
          let quantLuminance := quant_table DefaultQuantLuminance_A quality in
          let quantChrominance := quant_table DefaultQuantChrominance_A quality in
          let scaledLuminance := scaled_luminance quantLuminance in
          let scaledChrominance := scaled_chrominance quantChrominance in
          match writeJpegIntern (BitWriter_new output) pixels width height downsample isRGB
                  quantLuminance quantChrominance scaledLuminance scaledChrominance
                  comment stack with
          | Some (ok, w) => Returned ok (writer_output w)
          | None => Undefined
          end
    end.

End Encoder.

(** ** IEEE 754 arithmetic *)

(** [float] as binary32 and [double] as binary64, on the specification of
    floating-point numbers of the standard library, every operation rounded
    to nearest, ties to even. Values are kept in the canonical form of their
    format. *)
Module IEEE.

(** Rounding of a value to the format [(prec, emax)]. *)
Definition round_to (prec emax : Z) (x : spec_float) : spec_float :=
  match x with
  | S754_finite s m e => binary_round prec emax s m e
  | _ => x
  end.

Definition of_int (prec emax : Z) (z : Z) : spec_float :=
  binary_normalize prec emax z 0 false.

(** The decimal literal [m·10^e], rounded once. *)
Definition lit (prec emax : Z) (m e : Z) : spec_float :=
  if decide (0 ≤ e) then binary_normalize prec emax (m * 10 ^ e) 0 false
  else
    match m with
    | Z0 => S754_zero false
    | Zpos p => SFdiv prec emax (S754_finite false p 0)
                  (S754_finite false (Z.to_pos (10 ^ (- e))) 0)
    | Zneg p => SFdiv prec emax (S754_finite true p 0)
                  (S754_finite false (Z.to_pos (10 ^ (- e))) 0)
    end.

(** The integer nearest to [m·2^e], ties to even. *)
Definition nearest_even (m e : Z) : Z :=
  if decide (0 ≤ e) then m * 2 ^ e
  else
    let d := 2 ^ (- e) in
    let q := m `div` d in
    let r := m `mod` d in
    if decide (2 * r < d) then q
    else if decide (d < 2 * r) then q + 1
    else if Z.even q then q else q + 1.

(** [std::nearbyint] in the default rounding mode. *)
Definition nearbyint (prec emax : Z) (x : spec_float) : spec_float :=
  match x with
  | S754_finite s m e =>
      match nearest_even (Zpos m) e with
      | Z0 => S754_zero s
      | n => binary_normalize prec emax (if s then - n else n) 0 false
      end
  | _ => x
  end.

(** [int(x)]: truncation towards zero; [0] stands in where the conversion
    is not defined. *)
Definition to_int (x : spec_float) : Z :=
  match x with
  | S754_finite s m e =>
      let n := if decide (0 ≤ e) then Zpos m * 2 ^ e else Zpos m `div` 2 ^ (- e) in
      if s then - n else n
  | _ => 0
  end.

#[export] Instance ops : FloatOps := {|
  float := spec_float;
  double := spec_float;
  flit := lit 24 128;
  dlit := lit 53 1024;
  f_of_int := of_int 24 128;
  d_of_int := of_int 53 1024;
  fadd := SFadd 24 128;
  fsub := SFsub 24 128;
  fmul := SFmul 24 128;
  fdiv := SFdiv 24 128;
  fopp := SFopp;
  d_of_f := round_to 53 1024;
  f_of_d := round_to 24 128;
  dadd := SFadd 53 1024;
  dsub := SFsub 53 1024;
  dmul := SFmul 53 1024;
  ddiv := SFdiv 53 1024;
  dabs := SFabs;
  dleb := SFleb;
  dltb := SFltb;
  d_epsilon := binary_normalize 53 1024 1 (-52) false;
  d_min := binary_normalize 53 1024 1 (-1022) false;
  fnearbyint := nearbyint 24 128;
  int_of_f := to_int
|}.

End IEEE.

(** ** The run-length coding in the words of the specification *)

(** §4.G, over the coefficients in zig-zag order: the symbol [0xF0] (ZRL)
    once for every full run of 16 zeros that precedes a non-zero value, then
    the symbol made of the rest of the run and the category of the value,
    and the value's bits; zeros that no non-zero value follows give
    nothing. [run] counts the zeros seen since the last non-zero value. *)
Fixpoint ac_spec (run : nat) (coefficients : list Z) : list Symbol :=
  match coefficients with
  | [] => []
  | v :: rest =>
      if decide (v = 0) then ac_spec (Datatypes.S run) rest
      else replicate (run `div` 16)%nat (HuffAC 240)
           ++ [HuffAC (16 * Z.of_nat (run `mod` 16)%nat + numBits (codewords v)); CodeWord v]
           ++ ac_spec 0 rest
  end.

(** §4.G: the end-of-block symbol [0x00] is written iff position 63 holds
    zero. *)
Definition eob_spec (value : Z → Z) : list Symbol :=
  if decide (value 63 = 0) then [HuffAC 0] else [].

(** ** The samples of a block in the words of the specification *)

Section Samples.
Context `{FO : FloatOps}.

(** §4.H: the position in the image of the pixel at column [x] and row [y],
    the last column and the last row replicated beyond the border. *)
Definition sample_pos (width height x y : Z) : Z :=
  Z.min y (height - 1) * width + Z.min x (width - 1).

(** The luminance sample of the pixel at position [pos]. *)
Definition luma_sample (pixels : list Z) (isRGB : bool) (pos : Z) : float :=
  if isRGB then
    fsub (rgb2y (f_of_int (pixel pixels (3 * pos))) (f_of_int (pixel pixels (3 * pos + 1)))
                (f_of_int (pixel pixels (3 * pos + 2))))
         (f_of_int 128)
  else fsub (f_of_int (pixel pixels pos)) (flit 128 0).

(** The chrominance samples of the RGB pixel at position [pos]. *)
Definition cb_sample (pixels : list Z) (pos : Z) : float :=
  rgb2cb (f_of_int (pixel pixels (3 * pos))) (f_of_int (pixel pixels (3 * pos + 1)))
         (f_of_int (pixel pixels (3 * pos + 2))).

Definition cr_sample (pixels : list Z) (pos : Z) : float :=
  rgb2cr (f_of_int (pixel pixels (3 * pos))) (f_of_int (pixel pixels (3 * pos + 1)))
         (f_of_int (pixel pixels (3 * pos + 2))).

(** Entry [idx] of the block whose top left pixel is at [(x0, y0)], computed
    by [sample] from the position of its pixel; and the 64 entries of the
    block, row after row. *)
Definition sample_at (sample : Z → float) (width height x0 y0 idx : Z) : float :=
  sample (sample_pos width height (x0 + idx `mod` 8) (y0 + idx `div` 8)).

Definition block_of (sample : Z → float) (width height x0 y0 : Z) : list float :=
  sample_at sample width height x0 y0 <$> seqZ 0 64.

(** §4.G steps 5 to 7: what is written for a transformed block [block64]
    after a block whose DC was [lastDC]. *)
Definition coded_symbols (block64 : list float) (lastDC : Z) : list Symbol :=
  dc_symbols (block_DC block64 - lastDC)
  ++ ac_spec 0 (block_value block64 <$> seqZ 1 63)
  ++ eob_spec (block_value block64).

End Samples.

(** ** The stream before the entropy data *)

(** The bytes [writeJpegIntern] sends before the first MCU: the segments
    from SOI to the end of SOS. *)
Definition header_bytes (width height : Z) (downsample isRGB : bool)
    (quantLuminance quantChrominance : list Z) (comment : list Z) : list Z :=
  sink_bytes (output (write_headers (BitWriter_new []) width height downsample isRGB
                        quantLuminance quantChrominance comment)).

(** The 20 bytes of [HeaderJfif]: SOI and the APP0 segment. *)
Definition HeaderJfif : list Z :=
  [ 255; 216; 255; 224; 0; 16; 74; 70; 73; 70; 0; 1; 1; 0; 0; 1; 0; 1; 0; 0 ].

(** The scale factor [writeJpegQuality] and [writeJpeg] derive from
    [quality_]. *)
Definition quality_scale (quality_ : Z) : Z :=
  if decide (quality_ < 50) then 5000 /i quality_ else 200 - quality_ * 2.

(** ** Predicates of the statements and of the proofs *)

(** Every [0xFF] of [l] is immediately followed by [0x00]. *)
Definition stuffed (l : list Z) : Prop :=
  ∀ i : nat, l !! i = Some 255 → l !! S i = Some 0.

(** What a writer has sent beyond what [w0] had sent. *)
Definition sent_since (w0 w : BitWriter) (bs : list Z) : Prop :=
  sink_bytes (output w) = sink_bytes (output w0) ++ bs.

(** The magnitude category of [v]: the number of bits of [|v|]. *)
Definition category (v : Z) : Z := Z.log2 (Z.abs v) + 1.

(** The loop invariant of [codewords_for_quantized_dct] after the values
    [1..k]. *)
Definition codewords_inv (k : nat) (s : cw_state) : Prop :=
  length (cw_array s) = 4096%nat ∧
  cw_numBits s = category (Z.of_nat k) ∧
  cw_mask s = 2 ^ cw_numBits s - 1 ∧
  ∀ v, 1 ≤ v ≤ Z.of_nat k →
    at_ BitCode0 (cw_array s) (CodeWordLimit + v) = mkBitCode v (category v) ∧
    at_ BitCode0 (cw_array s) (CodeWordLimit - v)
      = mkBitCode (2 ^ category v - 1 - v) (category v).

(** What the quantization loop leaves: every entry from 1 to 63 written,
    entry 0 not, and [posNonZero] at the last non-zero entry, or 0. *)
Definition quantize_post (value : Z → Z) (k : Z) (r : list (option Z) * Z) : Prop :=
  let '(quantized, posNonZero) := r in
  length quantized = 64%nat ∧
  quantized !! 0%nat = Some None ∧
  (∀ i, 1 ≤ i ≤ k → quantized_at quantized i = Some (value i)) ∧
  0 ≤ posNonZero ≤ k ∧
  (1 ≤ posNonZero → value posNonZero ≠ 0) ∧
  (∀ i, posNonZero < i ≤ k → value i = 0).

(** [l] is [l0] with the entries from [lo] up to [hi] set as [f] says. *)
Definition filled {A : Type} (d : A) (f : Z → A) (lo hi : Z) (l0 l : list A) : Prop :=
  length l = length l0 ∧
  ∀ idx, at_ d l idx = if decide (lo ≤ idx < hi) then f idx else at_ d l0 idx.

(** [w1] and [w2] hold the same bits, and since [a1] and [a2] they have
    passed the same views to their sinks. *)
Definition sync (a1 a2 w1 w2 : BitWriter) : Prop :=
  buffer_data w1 = buffer_data w2 ∧
  buffer_numBits w1 = buffer_numBits w2 ∧
  ∃ views, output w1 = output a1 ++ views ∧ output w2 = output a2 ++ views.

(** [w'] has sent what [w] had sent, and more. *)
Definition extends (w w' : BitWriter) : Prop := ∃ bs, sent_since w w' bs.

(** Both computations have a result, and the results are related. *)
Definition opt_rel {S : Type} (R : S → S → Prop) (o1 o2 : option S) : Prop :=
  ∃ s1 s2, o1 = Some s1 ∧ o2 = Some s2 ∧ R s1 s2.


(** The dimensions are non-zero values of [unsigned short], and no position
    in the pixel buffer overflows an [int]: the last byte of the buffer has
    an index up to [INT_MAX], and so has the position the 4:2:0 pass steps
    to before it returns to the last pixel of a row. *)
Definition image_fits_int (width height : Z) (downsample isRGB : bool) : Prop :=
  0 < width ≤ 65535 ∧ 0 < height ≤ 65535 ∧
  (if isRGB then 3 * (width * height) + (if downsample then 3 else 0)
   else width * height) ≤ INT_MAX.

Section Predicates.
Context `{FO : FloatOps}.

(** The position [row * int(width) + column] of the pixel at column [x] and
    row [y], the last column and the last row replicated, as the [int]
    arithmetic of [fill_sample] gives it. *)
Definition int_pos (width height x y : Z) : Z :=
  s32 (s32 (Z.min y (height - 1) * width) + Z.min x (width - 1)).

(** The samples [fill_sample] computes at the position [pixelPos]. *)
Definition int_luma (pixels : list Z) (isRGB : bool) (pixelPos : Z) : float :=
  if isRGB then
    fsub (rgb2y (f_of_int (pixel pixels (s32 (3 * pixelPos))))
                (f_of_int (pixel pixels (s32 (s32 (3 * pixelPos) + 1))))
                (f_of_int (pixel pixels (s32 (s32 (3 * pixelPos) + 2)))))
         (f_of_int 128)
  else fsub (f_of_int (pixel pixels pixelPos)) (flit 128 0).

Definition int_cb (pixels : list Z) (pixelPos : Z) : float :=
  rgb2cb (f_of_int (pixel pixels (s32 (3 * pixelPos))))
         (f_of_int (pixel pixels (s32 (s32 (3 * pixelPos) + 1))))
         (f_of_int (pixel pixels (s32 (s32 (3 * pixelPos) + 2)))).

Definition int_cr (pixels : list Z) (pixelPos : Z) : float :=
  rgb2cr (f_of_int (pixel pixels (s32 (3 * pixelPos))))
         (f_of_int (pixel pixels (s32 (s32 (3 * pixelPos) + 1))))
         (f_of_int (pixel pixels (s32 (s32 (3 * pixelPos) + 2)))).

(** Entry [idx] of the block whose top left pixel is at [(x0, y0)], as
    [fill_block] computes it. *)
Definition int_sample_at (sample : Z → float) (width height x0 y0 idx : Z) : float :=
  sample (int_pos width height (x0 + idx `mod` 8) (y0 + idx `div` 8)).

(** [Cb] and [Cr] are filled for RGB pixels in 4:4:4 mode ([mode]), and left
    alone otherwise. *)
Definition chroma_filled (mode : bool) (f : Z → float) (lo hi : Z) (l0 l : list float) : Prop :=
  if mode then filled f0 f lo hi l0 l else l = l0.

(** The state of the inner loop of [fill_block] after [k] samples of row
    [dy] of the block at [(x0, y0)], started with the arrays [b0]. *)
Definition row_inv (pixels : list Z) (width height : Z) (downsample isRGB : bool)
    (x0 y0 dy : Z) (b0 : Blocks) (k : Z) (st : Z * Blocks) : Prop :=
  st.1 = Z.min (x0 + k) (width - 1) ∧
  filled f0 (int_sample_at (int_luma pixels isRGB) width height x0 y0)
    (dy * 8) (dy * 8 + k) (Y b0) (Y st.2) ∧
  chroma_filled (isRGB && negb downsample) (int_sample_at (int_cb pixels) width height x0 y0)
    (dy * 8) (dy * 8 + k) (Cb b0) (Cb st.2) ∧
  chroma_filled (isRGB && negb downsample) (int_sample_at (int_cr pixels) width height x0 y0)
    (dy * 8) (dy * 8 + k) (Cr b0) (Cr st.2).

(** Two arrays of 64 entries that agree where [P] holds. *)
Definition agree (P : Z → Prop) (l1 l2 : list float) : Prop :=
  length l1 = 64%nat ∧ length l2 = 64%nat ∧ ∀ idx, P idx → at_ f0 l1 idx = at_ f0 l2 idx.

Definition lengths64 (b : Blocks) : Prop :=
  length (Y b) = 64%nat ∧ length (Cb b) = 64%nat ∧ length (Cr b) = 64%nat.

(** What has been written since [e] is stuffed. *)
Definition entropy_since (e w : BitWriter) : Prop :=
  ∃ bs, sent_since e w bs ∧ stuffed bs.

(** The states of two runs between two blocks: the writers in step, the
    first one's entropy data stuffed, the same previous DCs, and the arrays
    of the right size; with [chroma] also the same [Cb] and [Cr]. *)
Definition run_rel (a1 a2 e1 : BitWriter) (chroma : bool) (s1 s2 : mcu_state) : Prop :=
  sync a1 a2 (writer s1) (writer s2) ∧
  entropy_since e1 (writer s1) ∧
  lastYDC s1 = lastYDC s2 ∧ lastCbDC s1 = lastCbDC s2 ∧ lastCrDC s1 = lastCrDC s2 ∧
  lengths64 (blocks s1) ∧ lengths64 (blocks s2) ∧
  (chroma = true → Cb (blocks s1) = Cb (blocks s2) ∧ Cr (blocks s1) = Cr (blocks s2)).

End Predicates.

(** Simplifies the left-hand side of an equation only. *)
Ltac simpl_lhs :=
  match goal with
  | |- _ = ?r => let R := fresh "R" in set (R := r); simpl; subst R
  end.

(** ** The bit stream, as a decoder reads it *)

(** The bits of the buffer that are still to be written: the low
    [buffer.numBits] bits of [buffer.data]. *)
Definition pending (w : BitWriter) : Z := buffer_data w `mod` 2 ^ buffer_numBits w.

(** Byte stuffing: a zero byte after every [0xFF]. *)
Definition stuff (bs : list Z) : list Z :=
  bs ≫= (fun b => if decide (b = 255) then [255; 0] else [b]).

(** The number whose base-256 digits are [bs], most significant first. *)
Definition be_value (bs : list Z) : Z := foldl (fun acc b => acc * 256 + b) 0 bs.

(** The number of bits of a sequence of bit codes, and the number whose
    binary digits are these bits, first code first. *)
Definition bits_len (cs : list BitCode) : Z := foldr (fun c n => numBits c + n) 0 cs.
Definition bits_value (cs : list BitCode) : Z :=
  foldl (fun acc c => acc * 2 ^ numBits c + code c) 0 cs.

(** A bit code the writer can take: at most 16 bits, and no bit set above
    the valid ones. *)
Definition well_formed (c : BitCode) : Prop :=
  0 ≤ numBits c ≤ 16 ∧ 0 ≤ code c < 2 ^ numBits c.

Definition is_byte (b : Z) : Prop := 0 ≤ b < 256.

(** ** Canonical Huffman codes *)

(** The bit sizes of the codes [generateHuffmanTable] assigns, in the order
    of [values]: [numCodes[n - 1]] times [n], for [n] from 1 to 16. *)
Definition code_sizes (numCodes : list Z) : list Z :=
  seqZ 1 16 ≫= (fun n => replicate (Z.to_nat (at_ 0 numCodes (n - 1))) n).

(** The share of the 16-bit code space that codes of these sizes take:
    a code of [n] bits takes [2^(16 - n)] of the [2^16] code words. *)
Definition kraft_sum (sizes : list Z) : Z := foldr (fun n acc => 2 ^ (16 - n) + acc) 0 sizes.

(** [a] is a prefix of [b], as bit strings. *)
Definition is_prefix (a b : BitCode) : Prop :=
  numBits a ≤ numBits b ∧ Z.shiftr (code b) (numBits b - numBits a) = code a.

(** The state of [generateHuffmanTable] when the codes of the sizes [done]
    have been assigned and the running code has [n] bits. *)
Definition huff_inv (values : list Z) (n : Z) (done : list Z) (s : huff_state) : Prop :=
  length (h_result s) = 256%nat ∧
  h_pos s = Z.of_nat (length done) ∧
  (∃ cc, h_code s = u16 cc ∧ cc * 2 ^ (17 - n) = 2 * kraft_sum done) ∧
  ∀ (k : nat) nk vk, done !! k = Some nk → values !! k = Some vk → is_byte vk →
    ∃ ck, at_ BitCode0 (h_result s) vk = mkBitCode ck nk ∧
          ck * 2 ^ (16 - nk) = kraft_sum (take k done).

(** ** The headers, as a decoder reads them *)

(** A marker segment: [0xFF], the marker, the 16-bit big-endian length of
    what follows (the two length bytes included) and the payload. *)
Definition segment (id : Z) (payload : list Z) : list Z :=
  [255; id; (2 + Z.of_nat (length payload)) `div` 256;
   (2 + Z.of_nat (length payload)) `mod` 256] ++ payload.

(** Reads marker segments until the bytes end: the markers with their
    payloads, or [None] if the bytes are not a sequence of segments. *)
Fixpoint read_segments_fuel (fuel : nat) (bs : list Z) : option (list (Z * list Z)) :=
  match fuel with
  | O => None
  | S fuel' =>
      match bs with
      | [] => Some []
      | ff :: id :: hi :: lo :: rest =>
          let len := hi * 256 + lo in
          if decide (ff = 255 ∧ 2 ≤ len ∧ len - 2 ≤ Z.of_nat (length rest)) then
            segs ← read_segments_fuel fuel' (drop (Z.to_nat (len - 2)) rest);
            Some ((id, take (Z.to_nat (len - 2)) rest) :: segs)
          else None
      | _ => None
      end
  end.

Definition read_segments (bs : list Z) : option (list (Z * list Z)) :=
  read_segments_fuel (S (length bs)) bs.

(** The payloads of the SOF0, DHT and SOS segments. *)
Definition sof0_payload (width height : Z) (downsample isRGB : bool) : list Z :=
  [8; height `div` 256; height `mod` 256; width `div` 256; width `mod` 256;
   if isRGB then 3 else 1; 1; if downsample then 34 else 17; 0]
  ++ (if isRGB then [2; 17; 1; 3; 17; 1] else []).

Definition dht_payload (isRGB : bool) : list Z :=
  [0] ++ DcLuminanceCodesPerBitsize ++ DcLuminanceValues
  ++ [16] ++ AcLuminanceCodesPerBitsize ++ AcLuminanceValues
  ++ (if isRGB
      then [1] ++ DcChrominanceCodesPerBitsize ++ DcChrominanceValues
           ++ [17] ++ AcChrominanceCodesPerBitsize ++ AcChrominanceValues
      else []).

Definition sos_payload (isRGB : bool) : list Z :=
  (if isRGB then [3; 1; 0; 2; 17; 3; 17] else [1; 1; 0]) ++ [0; 63; 0].

(** What a decoder finds in the headers, segment by segment. *)
Definition header_segments (width height : Z) (downsample isRGB : bool)
    (quantLuminance quantChrominance comment : list Z) : list (Z * list Z) :=
  [(224, [74; 70; 73; 70; 0; 1; 1; 0; 0; 1; 0; 1; 0; 0])]
  ++ (if decide (comment = []) then [] else [(254, comment)])
  ++ [(219, [0] ++ quantLuminance ++ (if isRGB then [1] ++ quantChrominance else []));
      (192, sof0_payload width height downsample isRGB);
      (196, dht_payload isRGB);
      (218, sos_payload isRGB)].

(** ** The 4:2:0 chrominance samples *)

Section Areas.
Context `{FO : FloatOps}.

(** The sum of channel [c] (0, 1, 2 for red, green, blue) over the 2x2
    area whose top left pixel is at column [x] and row [y]; beyond the
    border the last column and the last row are replicated. *)
Definition area_sum (pixels : list Z) (width height x y c : Z) : Z :=
  pixel pixels (3 * sample_pos width height x y + c)
  + pixel pixels (3 * sample_pos width height (x + 1) y + c)
  + pixel pixels (3 * sample_pos width height x (y + 1) + c)
  + pixel pixels (3 * sample_pos width height (x + 1) (y + 1) + c).

(** The chrominance samples of that area: the conversion of the three sums,
    divided by 4. *)
Definition cb_area (pixels : list Z) (width height x y : Z) : float :=
  fdiv (rgb2cb (f_of_int (area_sum pixels width height x y 0))
               (f_of_int (area_sum pixels width height x y 1))
               (f_of_int (area_sum pixels width height x y 2)))
       (f_of_int 4).

Definition cr_area (pixels : list Z) (width height x y : Z) : float :=
  fdiv (rgb2cr (f_of_int (area_sum pixels width height x y 0))
               (f_of_int (area_sum pixels width height x y 1))
               (f_of_int (area_sum pixels width height x y 2)))
       (f_of_int 4).

(** An array of 64 entries that holds [f idx] at the indices [idx] of [D]. *)
Definition set_on (D : Z → Prop) (f : Z → float) (l : list float) : Prop :=
  length l = 64%nat ∧ ∀ idx, D idx → at_ f0 l idx = f idx.

(** The state of the inner loop of the 4:2:0 pass after [k] samples of row
    [dy] of the MCU at [(mcuX, mcuY)]. *)
Definition chroma_inv (pixels : list Z) (width height mcuX mcuY dy k : Z)
    (s : chroma_state) : Prop :=
  let row := Z.min (mcuY + 2 * dy) (height - 1) in
  let D idx := dy * 8 ≤ idx < dy * 8 + k ∨ (dy + 1) * 8 ≤ idx < 64 in
  c_column s = mcuX + 2 * k ∧
  c_pixelPos s = 3 * (row * width + Z.min (mcuX + 2 * k) (width - 1)) ∧
  c_columnStep s = (if decide (mcuX + 2 * k < width - 1) then 3 else 0) ∧
  set_on D (fun idx => cb_area pixels width height
                         (mcuX + 2 * (idx `mod` 8)) (mcuY + 2 * (idx `div` 8))) (c_Cb s) ∧
  set_on D (fun idx => cr_area pixels width height
                         (mcuX + 2 * (idx `mod` 8)) (mcuY + 2 * (idx `div` 8))) (c_Cr s).

End Areas.

(** ** The scan, block by block *)

Section Scan.
Context `{FO : FloatOps}.

(** What the scan carries from block to block: the writer and the previous
    DC of each component. *)
Record scan_state := mkScan { s_writer : BitWriter; s_Y : Z; s_Cb : Z; s_Cr : Z }.

(** One block of a component: the samples are transformed and scaled, and
    the symbols of the block are written with the tables of the component.
    Returns the writer and the DC of the block. *)
Definition code_block (luminance : bool) (scaled : list float) (w : BitWriter) (lastDC : Z)
    (samples : list float) : BitWriter * Z :=
  let block := transform_block samples scaled in
  (foldl put_bitcode w (bitcode_of luminance <$> coded_symbols block lastDC),
   s16 (block_DC block)).

(** The chrominance block of the 4:2:0 MCU at [(mcuX, mcuY)]: one sample
    for each 2x2 area. *)
Definition area_block (area : Z → Z → float) (mcuX mcuY : Z) : list float :=
  (fun idx => area (mcuX + 2 * (idx `mod` 8)) (mcuY + 2 * (idx `div` 8))) <$> seqZ 0 64.

(** The luminance block whose top left pixel is at [(x0, y0)]. *)
Definition scan_Y (pixels : list Z) (width height : Z) (isRGB : bool) (scaledL : list float)
    (x0 y0 : Z) (s : scan_state) : scan_state :=
  let '(w, DC) := code_block true scaledL (s_writer s) (s_Y s)
                    (block_of (luma_sample pixels isRGB) width height x0 y0) in
  mkScan w DC (s_Cb s) (s_Cr s).

(** The MCU at [(mcuX, mcuY)]: its luminance blocks (four in 4:2:0 mode,
    row by row), then for RGB pixels one block of Cb and one of Cr. *)
Definition scan_mcu (pixels : list Z) (width height : Z) (downsample isRGB : bool)
    (scaledL scaledC : list float) (mcuY mcuX : Z) (s : scan_state) : scan_state :=
  let s := foldl (fun s '(blockX, blockY) =>
                    scan_Y pixels width height isRGB scaledL (mcuX + blockX) (mcuY + blockY) s)
             s (if downsample then [(0, 0); (8, 0); (0, 8); (8, 8)] else [(0, 0)]) in
  if isRGB then
    let cb := if downsample then area_block (cb_area pixels width height) mcuX mcuY
              else block_of (cb_sample pixels) width height mcuX mcuY in
    let cr := if downsample then area_block (cr_area pixels width height) mcuX mcuY
              else block_of (cr_sample pixels) width height mcuX mcuY in
    let '(w, DCb) := code_block false scaledC (s_writer s) (s_Cb s) cb in
    let '(w, DCr) := code_block false scaledC w (s_Cr s) cr in
    mkScan w (s_Y s) DCb DCr
  else s.

(** The origins of the MCUs along an axis of [extent] pixels. *)
Definition mcu_origins (extent mcuSize : Z) : list Z :=
  (fun i => i * mcuSize) <$> seqZ 0 ((extent + mcuSize - 1) `div` mcuSize).

(** The whole scan: the MCUs row by row, each row from left to right,
    starting with the previous DCs at 0. *)
Definition scan (pixels : list Z) (width height : Z) (downsample isRGB : bool)
    (scaledL scaledC : list float) (w : BitWriter) : scan_state :=
  let mcuSize := if downsample then 16 else 8 in
  foldl (fun s mcuY =>
           foldl (fun s mcuX =>
                    scan_mcu pixels width height downsample isRGB scaledL scaledC mcuY mcuX s)
                 s (mcu_origins width mcuSize))
        (mkScan w 0 0 0) (mcu_origins height mcuSize).

(** The encoder between two blocks, and the scan at the same point. *)
Definition scan_rel (ms : mcu_state) (ss : scan_state) : Prop :=
  writer ms = s_writer ss ∧ lastYDC ms = s_Y ss ∧ lastCbDC ms = s_Cb ss ∧
  lastCrDC ms = s_Cr ss ∧ lengths64 (blocks ms).

End Scan.

(** [well_formed], as a test. *)
Definition well_formedb (c : BitCode) : bool :=
  bool_decide (0 ≤ numBits c ≤ 16) && bool_decide (0 ≤ code c < 2 ^ numBits c).

(** ** The scaling factor of a coefficient *)

Section Scaling.
Context `{FO : FloatOps}.

(** The factor [scaled_luminance] and [scaled_chrominance] divide by the
    quantization value, for the coefficient at row-major index [j]. *)
Definition aan_factor (j : Z) : float :=
  fdiv (f_of_int 1)
       (fmul (fmul (at_ f0 AanScaleFactors (j /i 8)) (at_ f0 AanScaleFactors (j %i 8)))
             (f_of_int 8)).

End Scaling.

(** * The string utilities and the URL parser

    [src/stream_utils.h] and [src/url.h]. A [string], a [string_view] and
    the range of a pair of iterators are lists of characters; an iterator is
    the index it points at, [end()] the length. *)

(** ** [stream_utils.h] *)

(** The sign of [a.compare(b)] of [string_view]: the characters are compared
    as unsigned bytes, then the lengths. *)
Fixpoint compare (a b : list ascii) : Z :=
  match a, b with
  | [], [] => 0
  | [], _ :: _ => -1
  | _ :: _, [] => 1
  | x :: a', y :: b' =>
      if decide (nat_of_ascii x < nat_of_ascii y)%nat then -1
      else if decide (nat_of_ascii y < nat_of_ascii x)%nat then 1
      else compare a' b'
  end.

(** [str.substr(pos, n)] for [pos] within [str]. *)
Definition substr (str : list ascii) (pos n : nat) : list ascii := take n (drop pos str).

(** [startsWith(str, prefix)]. *)
Definition startsWith (str prefix : list ascii) : bool :=
  bool_decide (length prefix ≤ length str)%nat
  && bool_decide (0 = compare (substr str 0 (length prefix)) prefix).

(** [endsWith(str, suffix)]; the position is computed only when the first
    test holds. *)
Definition endsWith (str suffix : list ascii) : bool :=
  if bool_decide (length suffix ≤ length str)%nat
  then bool_decide (0 = compare (substr str (length str - length suffix) (length suffix)) suffix)
  else false.

(** [data.find(toSearch, pos)] of [std::string]: the first position from
    [pos] on where [toSearch] occurs, [None] for [npos]. *)
Fixpoint find_at (data toSearch : list ascii) : option nat :=
  if bool_decide (toSearch `prefix_of` data) then Some 0%nat
  else match data with
       | [] => None
       | _ :: data' => S <$> find_at data' toSearch
       end.

Definition string_find (data toSearch : list ascii) (pos : nat) : option nat :=
  if decide (pos ≤ length data)%nat
  then (fun i => pos + i)%nat <$> find_at (drop pos data) toSearch
  else None.

(** [data.replace(pos, n, replaceStr)] for [pos + n] within [data]. *)
Definition string_replace (data : list ascii) (pos n : nat) (replaceStr : list ascii)
  : list ascii :=
  take pos data ++ replaceStr ++ drop (pos + n) data.

(** The loop of [replace_all] from the position [pos] just found; [None]
    when [fuel] iterations do not end it. *)
Fixpoint replace_loop (fuel : nat) (data toSearch replaceStr : list ascii) (pos : option nat)
  : option (list ascii) :=
  match pos with
  | None => Some data
  | Some p =>
      match fuel with
      | O => None
      | S fuel' =>
          let data := string_replace data p (length toSearch) replaceStr in
          replace_loop fuel' data toSearch replaceStr
            (string_find data toSearch (p + length replaceStr))
      end
  end.

(** [replace_all(data, toSearch, replaceStr)]: the string [data] holds at
    the end. *)
Definition replace_all (fuel : nat) (data toSearch replaceStr : list ascii)
  : option (list ascii) :=
  replace_loop fuel data toSearch replaceStr (string_find data toSearch 0).

(** What [replace_all] is meant to compute: from left to right, every
    occurrence of [toSearch] that starts after the previous replaced one ends
    is replaced; [fuel] is the length of [data]. *)
Fixpoint substitute (fuel : nat) (data toSearch replaceStr : list ascii) : list ascii :=
  match fuel with
  | O => data
  | S fuel' =>
      if bool_decide (toSearch `prefix_of` data)
      then replaceStr ++ substitute fuel' (drop (length toSearch) data) toSearch replaceStr
      else match data with
           | [] => []
           | c :: data' => c :: substitute fuel' data' toSearch replaceStr
           end
  end.

(** ** [url.h] *)

(** [tolower] in the "C" locale, the locale of a program that never calls
    [setlocale]: the letters [A] to [Z] go to [a] to [z], every other
    character stays. (A byte above 127 reaches [tolower] as a negative [int]
    where [char] is signed, which the C standard leaves open; glibc returns
    it unchanged, as here.) *)
Definition tolower (c : ascii) : ascii :=
  if bool_decide (65 ≤ nat_of_ascii c ≤ 90)%nat
  then ascii_of_nat (nat_of_ascii c + 32)
  else c.

(** [std::search(first, last, s_first, s_last)] on a whole string: the index
    of the first occurrence, the length if there is none. *)
Definition search (s pat : list ascii) : nat := default (length s) (find_at s pat).

(** [std::find(first, last, c)] on a whole range: the index of the first
    [c], the length of the range if there is none. *)
Fixpoint find (s : list ascii) (c : ascii) : nat :=
  match s with
  | [] => 0
  | x :: s' => if decide (x = c) then 0 else S (find s' c)
  end.

(** [std::transform(first, last, first, tolower)] on the characters from
    [first] up to [last] of [s]. *)
Definition transform_lower (s : list ascii) (first last : nat) : list ascii :=
  take first s ++ (tolower <$> take (last - first) (drop first s)) ++ drop last s.

(** [struct Url]: the views are kept as the characters they show. *)
Record Url := mkUrl {
  protocol_ : list ascii;
  host_ : list ascii;
  path_ : list ascii;
  query_ : list ascii;
  path_and_query_ : list ascii;
  url_ : list ascii
}.

(** [Url::parse], and with it the constructor [Url(url_s)]: the fields, or
    [None] for [throw std::runtime_error]. A view is the position and the
    count given to [substr]; it shows the characters of [url_] as [parse]
    leaves it. *)
Definition parse (url_s : list ascii) : option Url :=
  let url_ := url_s in
  let prot_end := list_ascii_of_string "://" in
  let prot_i := search url_ prot_end in
  if decide (prot_i = length url_) then None
  else
    let url_ := transform_lower url_ 0 prot_i in
    let protocol_v := (0%nat, prot_i) in
    let prot_i' := (prot_i + length prot_end)%nat in
    let path_i := (prot_i' + find (drop prot_i' url_) "/"%char)%nat in
    let url_ := transform_lower url_ prot_i' path_i in
    let host_v := (prot_i', path_i - prot_i')%nat in
    let query_i := (path_i + find (drop path_i url_) "?"%char)%nat in
    let path_v := (path_i, query_i - path_i)%nat in
    let query_i' := if decide (query_i ≠ length url_) then S query_i else query_i in
    Some (mkUrl (substr url_ protocol_v.1 protocol_v.2) (substr url_ host_v.1 host_v.2)
                (substr url_ path_v.1 path_v.2) (drop query_i' url_) (drop path_i url_) url_).

(** [Url::full()]. *)
Definition full (u : Url) : list ascii := url_ u.

(** The copy constructor and the copy assignment: [parse(cp.url_)]. *)
Definition Url_copy (cp : Url) : option Url := parse (url_ cp).

(** [Url::from_relative(absolute_url, url_s)]; [None] for a [throw]. *)
Definition from_relative (absolute_url : Url) (url_s : list ascii) : option Url :=
  if startsWith url_s (list_ascii_of_string "http") then parse url_s
  else if startsWith url_s (list_ascii_of_string "//") then
    parse (protocol_ absolute_url ++ list_ascii_of_string ":" ++ url_s)
  else if startsWith url_s (list_ascii_of_string "/") then
    parse (protocol_ absolute_url ++ list_ascii_of_string "://" ++ host_ absolute_url ++ url_s)
  else None.

(** ** [main.cpp]: the name of a downloaded file *)

(** [std::replace(first, last, old, new)] on a whole string. *)
Definition std_replace (s : list ascii) (old new : ascii) : list ascii :=
  (fun c => if decide (c = old) then new else c) <$> s.

(** The name [webpage_crawler] gives the file of an image: the path of its
    URL with [/] replaced by [_], then [%2] replaced by [&]. *)
Definition crawler_file_name (fuel : nat) (image_url : Url) : option (list ascii) :=
  let file_name := std_replace (path_ image_url) "/"%char "_"%char in
  replace_all fuel file_name (list_ascii_of_string "%2") (list_ascii_of_string "&").

(** [p] is what stands before the first [://] of a URL: in [p] followed by
    [://], the separator occurs first at the end of [p]. *)
Definition first_sep (p : list ascii) : Prop :=
  find_at (p ++ list_ascii_of_string "://") (list_ascii_of_string "://") = Some (length p).

(** The rest of a URL behind the host: empty, or a path that starts with [/]. *)
Definition path_like (r : list ascii) : Prop := r = [] ∨ ∃ r', r = "/"%char :: r'.

(** The fields [parse] gives the URL [p ++ "://" ++ h ++ r]. *)
Definition url_of_parts (p h r : list ascii) : Url :=
  let q := find r "?"%char in
  mkUrl (tolower <$> p) (tolower <$> h) (take q r)
        (drop (if decide (q ≠ length r) then S q else q) r) r
        ((tolower <$> p) ++ list_ascii_of_string "://" ++ (tolower <$> h) ++ r).

(** ** Byte stuffing *)

Lemma stuffed_nil : stuffed [].
Proof. intros i Hi. rewrite lookup_nil in Hi. discriminate. Qed.

Lemma stuffed_byte (b : Z) : b ≠ 255 → stuffed [b].
Proof.
  intros Hb [|i] Hi; simpl in Hi.
  - congruence.
  - rewrite lookup_nil in Hi. discriminate.
Qed.

Lemma stuffed_ff : stuffed [255; 0].
Proof.
  intros [|[|i]] Hi; simpl in *; try done.
Qed.

Lemma stuffed_app (a b : list Z) : stuffed a → stuffed b → stuffed (a ++ b).
Proof.
  intros Ha Hb i Hi.
  destruct (decide (i < length a)%nat) as [Hlt|Hge].
  - rewrite lookup_app_l in Hi by done.
    pose proof (Ha i Hi) as Hn.
    rewrite lookup_app_l; [done|].
    by apply lookup_lt_Some in Hn.
  - rewrite lookup_app_r in Hi by lia.
    pose proof (Hb _ Hi) as Hn.
    rewrite lookup_app_r by lia.
    by replace (S i - length a)%nat with (S (i - length a)) by lia.
Qed.

Lemma sent_since_refl w : sent_since w w [].
Proof. unfold sent_since. by rewrite app_nil_r. Qed.

Lemma sent_since_trans w0 w1 w2 a b :
  sent_since w0 w1 a → sent_since w1 w2 b → sent_since w0 w2 (a ++ b).
Proof. unfold sent_since. intros -> ->. by rewrite app_assoc. Qed.

Lemma sink_bytes_snoc (s : Sink) (v : ByteView) :
  sink_bytes (s ++ [v]) = sink_bytes s ++ v.
Proof. unfold sink_bytes. rewrite concat_app. simpl. by rewrite app_nil_r. Qed.

Lemma call_output_sent w v : sent_since w (call_output w v) v.
Proof. unfold sent_since. simpl. apply sink_bytes_snoc. Qed.

Lemma u8_idem x : u8 (u8 x) = u8 x.
Proof. unfold u8. by rewrite Z.mod_mod by lia. Qed.

Lemma write_full_bytes_stuffed fuel w :
  ∃ bs, sent_since w (write_full_bytes fuel w) bs ∧ stuffed bs.
Proof.
  revert w. induction fuel as [|fuel IH]; intros w; simpl.
  - exists []. split; [apply sent_since_refl | apply stuffed_nil].
  - destruct (decide (8 ≤ buffer_numBits w)) as [Hge|Hlt].
    + set (nb := u8 (buffer_numBits w - 8)).
      set (b := u8 (Z.shiftr (buffer_data w) nb)).
      set (w1 := put_byte (mkBitWriter (output w) (buffer_data w) nb) b).
      assert (Hbb : u8 b = b) by apply u8_idem.
      destruct (decide (b = 255)) as [Hb|Hb].
      * destruct (IH (put_byte w1 0)) as (bs & Hs & Hst).
        exists ([255; 0] ++ bs). split.
        -- unfold sent_since in *. rewrite Hs. simpl.
           rewrite !sink_bytes_snoc, Hbb, Hb. by rewrite <- !app_assoc.
        -- apply stuffed_app; [apply stuffed_ff | done].
      * destruct (IH w1) as (bs & Hs & Hst).
        exists ([b] ++ bs). split.
        -- unfold sent_since in *. rewrite Hs. simpl.
           rewrite !sink_bytes_snoc, Hbb. by rewrite <- !app_assoc.
        -- apply stuffed_app; [by apply stuffed_byte | done].
    + exists []. split; [apply sent_since_refl | apply stuffed_nil].
Qed.

Lemma put_bitcode_stuffed w c :
  ∃ bs, sent_since w (put_bitcode w c) bs ∧ stuffed bs.
Proof.
  unfold put_bitcode.
  destruct (write_full_bytes_stuffed 32
    (mkBitWriter (output w)
       (Z.lor (u32 (Z.shiftl (buffer_data w) (numBits c))) (code c))
       (u8 (buffer_numBits w + numBits c)))) as (bs & Hs & Hst).
  exists bs. split; [|done]. unfold sent_since in *. by rewrite Hs.
Qed.

Lemma put_bitcodes_stuffed (cs : list BitCode) w :
  ∃ bs, sent_since w (foldl put_bitcode w cs) bs ∧ stuffed bs.
Proof.
  revert w. induction cs as [|c cs IH]; intros w; simpl.
  - exists []. split; [apply sent_since_refl | apply stuffed_nil].
  - destruct (put_bitcode_stuffed w c) as (a & Ha & Hsa).
    destruct (IH (put_bitcode w c)) as (b & Hb & Hsb).
    exists (a ++ b). split; [by eapply sent_since_trans | by apply stuffed_app].
Qed.

(** ** Arrays and loops: basic facts *)

Lemma length_set_at {A} (l : list A) i x : length (set_at l i x) = length l.
Proof. unfold set_at. case_decide; [apply length_insert | done]. Qed.

Lemma at_set_at_eq {A} (d : A) l i x :
  0 ≤ i < Z.of_nat (length l) → at_ d (set_at l i x) i = x.
Proof.
  intros Hi. unfold at_, set_at. rewrite !decide_True by lia.
  rewrite list_lookup_insert_eq by lia. done.
Qed.

Lemma at_set_at_ne {A} (d : A) l i j x :
  i ≠ j → at_ d (set_at l i x) j = at_ d l j.
Proof.
  intros Hij. unfold at_, set_at.
  destruct (decide (0 ≤ j)); [|done].
  destruct (decide (0 ≤ i)); [|done].
  rewrite list_lookup_insert_ne by lia. done.
Qed.

Lemma at_replicate {A} (d x : A) n i :
  0 ≤ i < Z.of_nat n → at_ d (replicate n x) i = x.
Proof.
  intros Hi. unfold at_. rewrite decide_True by lia.
  rewrite lookup_replicate_2 by lia. done.
Qed.

(** Loop invariants: [P k s] holds of the state after [k] iterations. *)
Lemma for_loop_ind {S : Type} (P : nat → S → Prop) n i step body (s : S) :
  P 0%nat s →
  (∀ k s, (k < n)%nat → P k s → P (Datatypes.S k) (body (i + Z.of_nat k * step) s)) →
  P n (for_loop n i step body s).
Proof.
  revert P i s. induction n as [|n IH]; intros P i s H0 Hstep; simpl; [done|].
  apply (IH (fun k => P (Datatypes.S k))).
  - pose proof (Hstep 0%nat s ltac:(lia) H0) as H1.
    by replace (i + Z.of_nat 0 * step) with i in H1 by lia.
  - intros k s' Hk HP.
    pose proof (Hstep (Datatypes.S k) s' ltac:(lia) HP) as H1.
    by replace (i + Z.of_nat (Datatypes.S k) * step) with (i + step + Z.of_nat k * step)
      in H1 by lia.
Qed.

Lemma trip_count_unit n : 0 ≤ n → trip_count n 1 = Z.to_nat n.
Proof. intros Hn. unfold trip_count. f_equal. rewrite Z.div_1_r. lia. Qed.

(** ** The codeword table *)

Lemma lor_shiftl_1 m : Z.lor (Z.shiftl m 1) 1 = 2 * m + 1.
Proof.
  rewrite Z.shiftl_mul_pow2 by lia. change (2 ^ 1) with 2. rewrite Z.mul_comm.
  apply Z.bits_inj'. intros n Hn. rewrite Z.lor_spec.
  destruct (decide (n = 0)) as [->|Hn0].
  - by rewrite Z.testbit_even_0, Z.testbit_odd_0.
  - assert (H1 : Z.testbit 1 n = false).
    { apply Z.bits_above_log2; [lia | simpl; lia]. }
    rewrite H1, orb_false_r.
    replace n with (Z.succ (n - 1)) by lia.
    by rewrite Z.testbit_even_succ, Z.testbit_odd_succ by lia.
Qed.

Lemma category_pos v : 1 ≤ v → 2 ^ (category v - 1) ≤ v < 2 ^ category v.
Proof.
  intros Hv. unfold category. rewrite Z.abs_eq by lia.
  replace (Z.log2 v + 1 - 1) with (Z.log2 v) by lia.
  pose proof (Z.log2_spec v ltac:(lia)) as Hs. rewrite <- Z.add_1_r in Hs. lia.
Qed.

Lemma category_bound v : 1 ≤ v < 2048 → 1 ≤ category v ≤ 11.
Proof.
  intros Hv. unfold category. rewrite Z.abs_eq by lia.
  pose proof (Z.log2_nonneg v).
  assert (Z.log2 v < 11); [|lia].
  apply Z.log2_lt_pow2; lia.
Qed.

Lemma category_succ v :
  1 ≤ v →
  category (v + 1) = if decide (v + 1 > 2 ^ category v - 1) then category v + 1 else category v.
Proof.
  intros Hv. pose proof (category_pos v Hv) as [Hlo Hhi].
  unfold category in *. rewrite !Z.abs_eq in * by lia.
  pose proof (Z.log2_nonneg v) as Hnn.
  replace (Z.log2 v + 1 - 1) with (Z.log2 v) in Hlo by lia.
  assert (Hp : 2 ^ (Z.log2 v + 1) = 2 * 2 ^ Z.log2 v).
  { rewrite Z.pow_add_r, Z.pow_1_r by lia. lia. }
  assert (Hpp : 2 ^ Z.succ (Z.log2 v + 1) = 4 * 2 ^ Z.log2 v).
  { rewrite Z.pow_succ_r by lia. lia. }
  case_decide as Hc; f_equal; apply Z.log2_unique; try lia.
Qed.

Lemma codewords_inv_step k s :
  (k < 2047)%nat → codewords_inv k s →
  codewords_inv (Datatypes.S k) (codewords_step (1 + Z.of_nat k * 1) s).
Proof.
  intros Hk (Hlen & Hnb & Hmask & Htab).
  set (value := 1 + Z.of_nat k * 1).
  assert (Hval : value = Z.of_nat (Datatypes.S k)) by lia.
  assert (Hnew : ∃ nb, nb = category value ∧
            (if decide (value > cw_mask s)
             then (u8 (cw_numBits s + 1), u32 (Z.lor (Z.shiftl (cw_mask s) 1) 1))
             else (cw_numBits s, cw_mask s)) = (nb, 2 ^ nb - 1)).
  { exists (category value). split; [done|].
    destruct (decide (k = 0%nat)) as [->|Hk0].
    - change value with 1. rewrite Hmask, Hnb. reflexivity.
    - assert (1 ≤ Z.of_nat k < 2047) as Hkr by lia.
      replace value with (Z.of_nat k + 1) by lia.
      rewrite (category_succ (Z.of_nat k)) by lia.
      pose proof (category_bound (Z.of_nat k) ltac:(lia)) as Hcb.
      rewrite Hmask, Hnb.
      destruct (decide (Z.of_nat k + 1 > 2 ^ category (Z.of_nat k) - 1)) as [Hc|Hc].
      + rewrite lor_shiftl_1.
        assert (2 ^ category (Z.of_nat k) ≤ 2048).
        { change 2048 with (2 ^ 11). apply Z.pow_le_mono_r; lia. }
        f_equal.
        * unfold u8. apply Z.mod_small. lia.
        * rewrite Z.pow_add_r, Z.pow_1_r by lia.
          unfold u32. rewrite Z.mod_small; lia.
      + done. }
  destruct Hnew as (nb & Hnbv & Hnew).
  unfold codewords_step. fold value. rewrite Hnew. cbv beta iota.
  assert (1 ≤ value < 2048) as Hvr by lia.
  pose proof (category_bound value Hvr) as Hcb.
  pose proof (category_pos value ltac:(lia)) as [_ Hhi].
  assert (2 ^ nb ≤ 2048).
  { change 2048 with (2 ^ 11). apply Z.pow_le_mono_r; lia. }
  assert (Hpos : BitCode_ value nb = mkBitCode value (category value)).
  { unfold BitCode_, u16, u8. rewrite !Z.mod_small by lia. by rewrite Hnbv. }
  assert (Hneg : BitCode_ (u32 (2 ^ nb - 1 - value)) nb
                 = mkBitCode (2 ^ category value - 1 - value) (category value)).
  { rewrite <- Hnbv in *. unfold BitCode_, u32.
    rewrite (Z.mod_small (2 ^ nb - 1 - value)) by lia.
    unfold u16, u8. rewrite !Z.mod_small by lia. done. }
  rewrite Hpos, Hneg. unfold CodeWordLimit in *.
  unfold codewords_inv. cbn [cw_array cw_numBits cw_mask].
  split; [by rewrite !length_set_at|].
  split; [by rewrite Hnbv, Hval|]. split; [done|].
  intros v Hv. destruct (decide (v = value)) as [->|Hne].
  - split.
    + rewrite at_set_at_eq; [done | rewrite length_set_at, Hlen; unfold CodeWordLimit; lia].
    + rewrite at_set_at_ne by (unfold CodeWordLimit; lia).
      rewrite at_set_at_eq; [done | rewrite Hlen; unfold CodeWordLimit; lia].
  - destruct (Htab v ltac:(lia)) as [Hp Hn].
    rewrite !at_set_at_ne by (unfold CodeWordLimit; lia). done.
Qed.

Lemma codewords_table v :
  1 ≤ v < CodeWordLimit →
  codewords v = mkBitCode v (category v) ∧
  codewords (- v) = mkBitCode (2 ^ category v - 1 - v) (category v).
Proof.
  intros Hv. unfold codewords, codewordsArray, codewords_for_quantized_dct, for_range.
  rewrite trip_count_unit by (unfold CodeWordLimit; lia).
  assert (Hinv : codewords_inv (Z.to_nat (CodeWordLimit - 1))
            (for_loop (Z.to_nat (CodeWordLimit - 1)) 1 1 codewords_step
               (mkCw (replicate (Z.to_nat (2 * CodeWordLimit)) BitCode0) 1 1))).
  { apply for_loop_ind.
    - unfold codewords_inv. cbn [cw_array cw_numBits cw_mask].
      split; [by rewrite length_replicate|].
      do 2 (split; [reflexivity|]). intros; lia.
    - intros k s Hk. apply codewords_inv_step. unfold CodeWordLimit in Hk. lia. }
  destruct Hinv as (_ & _ & _ & Htab).
  unfold CodeWordLimit in *.
  destruct (Htab v ltac:(lia)) as [Hp Hn]. split; [done|].
  by replace (2048 + - v) with (2048 - v) by lia.
Qed.

(** ** The quantization table *)

Lemma quant_table_spec defaults quality i :
  0 ≤ i < 64 →
  length (quant_table defaults quality) = 64%nat ∧
  at_ 0 (quant_table defaults quality) i
    = u8 (clamp ((at_ 0 defaults (at_ 0 ZigZagInv i) * u8 quality + 50) /i 100) 1 255).
Proof.
  intros Hi. unfold quant_table, for_range.
  set (body := fun (i : Z) (q : list Z) =>
     set_at q i (u8 (clamp ((at_ 0 defaults (at_ 0 ZigZagInv i) * u8 quality + 50) /i 100) 1 255))).
  set (n := trip_count (8 * 8 - 0) 1).
  assert (Hn : n = 64%nat) by reflexivity.
  assert (Hinv : ∀ k, (k ≤ 64)%nat →
     let q := for_loop k 0 1 body (replicate 64 0) in
     length q = 64%nat ∧
     ∀ j, 0 ≤ j < Z.of_nat k →
       at_ 0 q j = u8 (clamp ((at_ 0 defaults (at_ 0 ZigZagInv j) * u8 quality + 50) /i 100) 1 255)).
  { intros k Hk.
    apply (for_loop_ind (fun k q => (k ≤ 64)%nat → length q = 64%nat ∧
       ∀ j, 0 ≤ j < Z.of_nat k →
         at_ 0 q j = u8 (clamp ((at_ 0 defaults (at_ 0 ZigZagInv j) * u8 quality + 50) /i 100) 1 255)));
      [| |done].
    - intros _. split; [by rewrite length_replicate | intros; lia].
    - intros k' q Hk' IH Hle. destruct (IH ltac:(lia)) as [Hlen Htab].
      unfold body. split; [by rewrite length_set_at|].
      intros j Hj. destruct (decide (j = 0 + Z.of_nat k' * 1)) as [->|Hne].
      + rewrite at_set_at_eq; [done | lia].
      + rewrite at_set_at_ne by done. apply Htab. lia. }
  rewrite Hn. destruct (Hinv 64%nat ltac:(lia)) as [Hlen Htab].
  split; [done | apply Htab; lia].
Qed.


(** ** The quantization loop *)

Lemma quantized_at_set_eq q i v :
  0 ≤ i < Z.of_nat (length q) → quantized_at (set_at q i (Some v)) i = Some v.
Proof.
  intros Hi. unfold quantized_at, set_at. rewrite !decide_True by lia.
  by rewrite list_lookup_insert_eq by lia.
Qed.

Lemma quantized_at_set_ne q i j x :
  i ≠ j → quantized_at (set_at q i x) j = quantized_at q j.
Proof.
  intros Hij. unfold quantized_at, set_at.
  destruct (decide (0 ≤ j)); [|done].
  destruct (decide (0 ≤ i)); [|done].
  by rewrite list_lookup_insert_ne by lia.
Qed.

Lemma quantized_at_outside q i :
  length q = 64%nat → q !! 0%nat = Some None → ¬ (1 ≤ i ≤ 63) → quantized_at q i = None.
Proof.
  intros Hlen H0 Hi. unfold quantized_at.
  destruct (decide (0 ≤ i)); [|done].
  destruct (decide (i = 0)) as [->|Hne]; [change (Z.to_nat 0) with 0%nat; by rewrite H0|].
  rewrite lookup_ge_None_2; [done | lia].
Qed.

Lemma quantize_spec value : quantize_post value 63 (quantize value).
Proof.
  unfold quantize, for_range.
  change (trip_count (8 * 8 - 1) 1) with 63%nat.
  change 63 with (Z.of_nat 63).
  apply (for_loop_ind (fun k r => quantize_post value (Z.of_nat k) r)).
  - unfold quantize_post. rewrite length_replicate.
    repeat split; try done; intros; lia.
  - intros k [q pos] Hk (Hlen & H0 & Hq & Hpos & Hnz & Hz).
    set (i := 1 + Z.of_nat k * 1).
    assert (Hi : i = Z.of_nat (Datatypes.S k)) by lia.
    unfold quantize_post. rewrite <- Hi.
    split; [by rewrite length_set_at|].
    split.
    { unfold set_at. rewrite decide_True by lia.
      rewrite list_lookup_insert_ne by lia. done. }
    split.
    { intros j Hj. destruct (decide (j = i)) as [->|Hne].
      - apply quantized_at_set_eq. lia.
      - rewrite quantized_at_set_ne by done. apply Hq. lia. }
    destruct (decide (value i ≠ 0)) as [Hv|Hv].
    + split; [lia|]. split; [done|]. intros; lia.
    + split; [lia|]. split; [done|].
      intros j Hj. destruct (decide (j = i)) as [->|Hne]; [|apply Hz; lia].
      by destruct (decide (value i = 0)).
Qed.

(** ** The AC loop against the run-length coding of the specification *)

Lemma ac_spec_zeros (n run : nat) v rest :
  v ≠ 0 →
  ac_spec run (replicate n 0 ++ v :: rest)
  = replicate ((run + n) `div` 16)%nat (HuffAC 240)
    ++ [HuffAC (16 * Z.of_nat ((run + n) `mod` 16)%nat + numBits (codewords v)); CodeWord v]
    ++ ac_spec 0 rest.
Proof.
  intros Hv. revert run. induction n as [|n IH]; intros run; simpl.
  - rewrite decide_False by done. by rewrite Nat.add_0_r.
  - rewrite IH. by replace (Datatypes.S run + n)%nat with (run + Datatypes.S n)%nat by lia.
Qed.

Lemma ac_spec_trailing_zeros l (run n : nat) :
  ac_spec run (l ++ replicate n 0) = ac_spec run l.
Proof.
  revert run. induction l as [|v l IH]; intros run; simpl.
  - revert run. induction n as [|n IHn]; intros run; simpl; [done | apply IHn].
  - destruct (decide (v = 0)); [apply IH | by rewrite IH].
Qed.

Lemma values_zeros (value : Z → Z) i (n : nat) :
  (∀ k, i ≤ k < i + Z.of_nat n → value k = 0) →
  value <$> seqZ i (Z.of_nat n) = replicate n 0.
Proof.
  revert i. induction n as [|n IH]; intros i Hz; [done|].
  rewrite seqZ_cons by lia. simpl. rewrite Hz by lia. f_equal.
  replace (Z.pred (Z.of_nat (Datatypes.S n))) with (Z.of_nat n) by lia.
  apply IH. intros k Hk. apply Hz. lia.
Qed.

Lemma first_nonzero (value : Z → Z) i (m : nat) :
  value (i + Z.of_nat m) ≠ 0 →
  ∃ n : nat, (n ≤ m)%nat ∧ (∀ k, i ≤ k < i + Z.of_nat n → value k = 0)
             ∧ value (i + Z.of_nat n) ≠ 0.
Proof.
  revert i. induction m as [|m IH]; intros i Hm.
  - exists 0%nat. split; [lia|]. split; [intros; lia | done].
  - destruct (decide (value i = 0)) as [Hi|Hi].
    + destruct (IH (i + 1)) as (n & Hn & Hz & Hnz).
      { by replace (i + 1 + Z.of_nat m) with (i + Z.of_nat (Datatypes.S m)) by lia. }
      exists (Datatypes.S n). split; [lia|]. split.
      * intros k Hk. destruct (decide (k = i)) as [->|]; [done | apply Hz; lia].
      * by replace (i + Z.of_nat (Datatypes.S n)) with (i + 1 + Z.of_nat n) by lia.
    + exists 0%nat. split; [lia|]. split; [intros; lia|].
      by replace (i + Z.of_nat 0) with i by lia.
Qed.

(** An [int] operation whose exact result is an [int] gives that result. *)
Lemma s32_small x : - INT_MAX - 1 ≤ x ≤ INT_MAX → s32 x = x.
Proof. unfold s32, INT_MAX. intros Hx. rewrite Z.mod_small; lia. Qed.

(** Removes the conversions to [int] of the goal, innermost first, where
    [tac] shows that the exact result fits. *)
Ltac s32_fits tac :=
  repeat match goal with
         | |- context [s32 ?x] =>
             lazymatch x with
             | context [s32 _] => fail
             | _ => rewrite (s32_small x) by tac
             end
         end.

#[local] Opaque codewords_for_quantized_dct generateHuffmanTable s32.
#[local] Arguments codewords : simpl never.
#[local] Arguments dc_symbols : simpl never.
#[local] Arguments Nat.modulo : simpl never.
#[local] Arguments Nat.div : simpl never.
#[local] Arguments Z.of_nat : simpl never.

Lemma bind_Some {A B} (f : A → option B) (x : A) : Some x ≫= f = f x.
Proof. reflexivity. Qed.

Section AcLoop.
Variable value : Z → Z.
Variable quantized : list (option Z).
Hypothesis quantized_written :
  ∀ i, 1 ≤ i ≤ 63 → quantized_at quantized i = Some (value i).

Lemma skip_zeros_spec (n : nat) :
  ∀ (fuel : nat) i (r : nat),
    (n < fuel)%nat → (r ≤ 15)%nat → 1 ≤ i → i + Z.of_nat n ≤ 63 →
    (∀ k, i ≤ k < i + Z.of_nat n → value k = 0) →
    value (i + Z.of_nat n) ≠ 0 →
    skip_zeros fuel quantized i (16 * Z.of_nat r)
    = Some (i + Z.of_nat n, 16 * Z.of_nat ((r + n) `mod` 16)%nat,
            replicate ((r + n) `div` 16)%nat (HuffAC 240)).
Proof.
  induction n as [|n IH]; intros fuel i r Hfuel Hr Hi Hin Hz Hnz.
  - destruct fuel as [|fuel]; [lia|]. simpl_lhs.
    replace (i + Z.of_nat 0) with i in * by lia.
    rewrite quantized_written by lia. simpl_lhs.
    rewrite decide_False by done.
    rewrite Nat.add_0_r, Nat.mod_small, Nat.div_small by lia. done.
  - destruct fuel as [|fuel]; [lia|]. simpl_lhs.
    rewrite quantized_written by lia. simpl_lhs.
    rewrite decide_True by (apply Hz; lia).
    assert (Hz' : ∀ k, i + 1 ≤ k < i + 1 + Z.of_nat n → value k = 0)
      by (intros; apply Hz; lia).
    assert (Hnz' : value (i + 1 + Z.of_nat n) ≠ 0)
      by (by replace (i + 1 + Z.of_nat n) with (i + Z.of_nat (Datatypes.S n)) by lia).
    destruct (decide (16 * Z.of_nat r + 16 > 240)) as [Hov|Hov].
    + assert (r = 15%nat) as -> by lia.
      pose proof (IH fuel (i + 1) 0%nat ltac:(lia) ltac:(lia) ltac:(lia) ltac:(lia) Hz' Hnz')
        as Hrec.
      change (16 * Z.of_nat 0) with 0 in Hrec. rewrite Hrec. simpl_lhs.
      replace (15 + Datatypes.S n)%nat with (n + 1 * 16)%nat by lia.
      rewrite Nat.Div0.mod_add, Nat.div_add by lia.
      replace (n `div` 16 + 1)%nat with (Datatypes.S (n `div` 16)) by lia.
      simpl replicate.
      by replace (i + Z.of_nat (Datatypes.S n)) with (i + 1 + Z.of_nat n) by lia.
    + pose proof (IH fuel (i + 1) (Datatypes.S r) ltac:(lia) ltac:(lia) ltac:(lia) ltac:(lia)
                    Hz' Hnz') as Hrec.
      replace (16 * Z.of_nat (Datatypes.S r)) with (16 * Z.of_nat r + 16) in Hrec by lia.
      rewrite Hrec. simpl_lhs.
      replace (r + Datatypes.S n)%nat with (Datatypes.S r + n)%nat by lia.
      by replace (i + Z.of_nat (Datatypes.S n)) with (i + 1 + Z.of_nat n) by lia.
Qed.

Lemma encode_ACs_spec posNonZero :
  posNonZero ≤ 63 →
  ∀ (fuel : nat) i,
    1 ≤ i → (i ≤ posNonZero → value posNonZero ≠ 0) →
    (Z.to_nat (posNonZero - i + 1) < fuel)%nat →
    encode_ACs fuel quantized posNonZero i 0
    = Some (ac_spec 0 (value <$> seqZ i (posNonZero - i + 1))).
Proof.
  intros Hpos. induction fuel as [|fuel IH]; intros i Hi Hnz Hfuel; [lia|].
  cbn [encode_ACs]. destruct (decide (i ≤ posNonZero)) as [Hle|Hgt].
  - destruct (first_nonzero value i (Z.to_nat (posNonZero - i))) as (n & Hn & Hz & Hv).
    { replace (i + Z.of_nat (Z.to_nat (posNonZero - i))) with posNonZero by lia. auto. }
    pose proof (skip_zeros_spec n 64 i 0 ltac:(lia) ltac:(lia) Hi ltac:(lia) Hz Hv) as Hskip.
    change (16 * Z.of_nat 0) with 0 in Hskip. rewrite Hskip. simpl_lhs.
    rewrite quantized_written by lia. simpl_lhs.
    rewrite (IH (i + Z.of_nat n + 1)) by
      (try lia; intros; apply Hnz; lia).
    simpl_lhs. f_equal.
    replace (posNonZero - i + 1)
      with (Z.of_nat n + (1 + (posNonZero - (i + Z.of_nat n + 1) + 1))) by lia.
    rewrite (seqZ_app i (Z.of_nat n)) by lia. rewrite fmap_app.
    rewrite (values_zeros value i n Hz).
    rewrite (seqZ_cons (i + Z.of_nat n)) by lia. rewrite fmap_cons.
    rewrite ac_spec_zeros by done. rewrite Nat.add_0_l.
    replace (Z.pred (1 + (posNonZero - (i + Z.of_nat n + 1) + 1)))
      with (posNonZero - (i + Z.of_nat n + 1) + 1) by lia.
    by replace (Z.succ (i + Z.of_nat n)) with (i + Z.of_nat n + 1) by lia.
  - rewrite seqZ_nil by lia. done.
Qed.

End AcLoop.

Lemma encode_ACs_quantize value :
  encode_ACs 64 (quantize value).1 (quantize value).2 1 0
  = Some (ac_spec 0 (value <$> seqZ 1 63)).
Proof.
  pose proof (quantize_spec value) as Hq.
  destruct (quantize value) as [q pos]. cbn [fst snd].
  destruct Hq as (Hlen & H0 & Hq & Hpos & Hnz & Hz).
  rewrite (encode_ACs_spec value q Hq pos) by (try lia; auto).
  f_equal.
  transitivity (ac_spec 0 (value <$> seqZ 1 ((pos - 1 + 1) + Z.of_nat (Z.to_nat (63 - pos))))).
  - rewrite (seqZ_app 1 (pos - 1 + 1)) by lia. rewrite fmap_app.
    rewrite (values_zeros value) by (intros; apply Hz; lia).
    by rewrite ac_spec_trailing_zeros.
  - do 3 f_equal. lia.
Qed.

Lemma block_symbols_spec DC lastDC value :
  block_symbols DC lastDC value
  = Some (dc_symbols (DC - lastDC) ++ ac_spec 0 (value <$> seqZ 1 63) ++ eob_spec value).
Proof.
  unfold block_symbols.
  pose proof (encode_ACs_quantize value) as Hac.
  pose proof (quantize_spec value) as Hq.
  destruct (quantize value) as [q pos]. cbn [fst snd] in Hac.
  destruct Hq as (Hlen & H0 & Hq & Hpos & Hnz & Hz).
  rewrite Hac, bind_Some. do 3 f_equal.
  unfold eob_spec. destruct (decide (pos < 8 * 8 - 1)) as [Hlt|Hge].
  - rewrite decide_True; [done | apply Hz; lia].
  - assert (pos = 63) as -> by lia.
    rewrite decide_False; [done | apply Hnz; lia].
Qed.

(** ** Loops that fill an array *)

Lemma for_loop_rel {S : Type} (R : nat → S → S → Prop) n i step body (s1 s2 : S) :
  R 0%nat s1 s2 →
  (∀ k a b, (k < n)%nat → R k a b →
     R (Datatypes.S k) (body (i + Z.of_nat k * step) a) (body (i + Z.of_nat k * step) b)) →
  R n (for_loop n i step body s1) (for_loop n i step body s2).
Proof.
  revert R i s1 s2. induction n as [|n IH]; intros R i s1 s2 H0 Hstep; simpl; [done|].
  apply (IH (fun k => R (Datatypes.S k))).
  - pose proof (Hstep 0%nat s1 s2 ltac:(lia) H0) as H1.
    by replace (i + Z.of_nat 0 * step) with i in H1 by lia.
  - intros k a b Hk HR.
    pose proof (Hstep (Datatypes.S k) a b ltac:(lia) HR) as H1.
    by replace (i + Z.of_nat (Datatypes.S k) * step) with (i + step + Z.of_nat k * step)
      in H1 by lia.
Qed.

Lemma at_lookup {A} (d : A) (l : list A) (i : nat) x :
  l !! i = Some x → at_ d l (Z.of_nat i) = x.
Proof.
  intros Hl. unfold at_. rewrite decide_True by lia. by rewrite Nat2Z.id, Hl.
Qed.

(** Two arrays of the same length with the same entries are equal. *)
Lemma list_eq_at {A} (d : A) (l1 l2 : list A) :
  length l1 = length l2 →
  (∀ i, 0 ≤ i < Z.of_nat (length l1) → at_ d l1 i = at_ d l2 i) →
  l1 = l2.
Proof.
  intros Hlen Hat. apply list_eq_same_length with (length l1); [done | done |].
  intros i x y Hi Hx Hy.
  pose proof (Hat (Z.of_nat i) ltac:(lia)) as H.
  by rewrite (at_lookup d l1 i x Hx), (at_lookup d l2 i y Hy) in H.
Qed.

Section Filled.
Context {A : Type} (d : A).

Lemma filled_nil f lo l : filled d f lo lo l l.
Proof. split; [done|]. intros idx. by rewrite decide_False by lia. Qed.

Lemma filled_snoc f lo hi l0 l v :
  filled d f lo hi l0 l → lo ≤ hi → 0 ≤ hi < Z.of_nat (length l0) → v = f hi →
  filled d f lo (hi + 1) l0 (set_at l hi v).
Proof.
  intros [Hlen Hat] Hlo Hhi ->. split; [by rewrite length_set_at|].
  intros idx. destruct (decide (idx = hi)) as [->|Hne].
  - rewrite at_set_at_eq by lia. by rewrite decide_True by lia.
  - rewrite at_set_at_ne by done. rewrite Hat.
    destruct (decide (lo ≤ idx < hi)); [by rewrite decide_True by lia|].
    by rewrite decide_False by lia.
Qed.

Lemma filled_trans f lo mid hi l0 l1 l2 :
  filled d f lo mid l0 l1 → filled d f mid hi l1 l2 → lo ≤ mid ≤ hi →
  filled d f lo hi l0 l2.
Proof.
  intros [Hlen1 Hat1] [Hlen2 Hat2] Hm. split; [congruence|].
  intros idx. rewrite Hat2, Hat1.
  destruct (decide (mid ≤ idx < hi)); [by rewrite decide_True by lia|].
  destruct (decide (lo ≤ idx < mid)); [by rewrite decide_True by lia|].
  by rewrite decide_False by lia.
Qed.

Lemma filled_all f l0 l :
  filled d f 0 64 l0 l → length l0 = 64%nat → l = f <$> seqZ 0 64.
Proof.
  intros [Hlen Hat] H64. apply (list_eq_at d).
  - rewrite length_fmap, length_seqZ. lia.
  - intros i Hi. rewrite Hat, decide_True by lia.
    unfold at_ at 1. rewrite decide_True by lia.
    rewrite list_lookup_fmap, lookup_seqZ_lt by lia. simpl. f_equal. lia.
Qed.

End Filled.

(** ** Filling a block: border replication *)

Lemma idx_div_mod dy k :
  0 ≤ k < 8 → (dy * 8 + k) `div` 8 = dy ∧ (dy * 8 + k) `mod` 8 = k.
Proof.
  intros Hk. split; symmetry.
  - apply Z.div_unique with k; lia.
  - apply Z.mod_unique with dy; lia.
Qed.

Section FillBlock.
Context `{FO : FloatOps}.
Variables (pixels : list Z) (width height : Z) (downsample isRGB : bool).
Variables (x0 y0 : Z).

Local Abbreviation fY := (int_sample_at (int_luma pixels isRGB) width height x0 y0).
Local Abbreviation fCb := (int_sample_at (int_cb pixels) width height x0 y0).
Local Abbreviation fCr := (int_sample_at (int_cr pixels) width height x0 y0).

Lemma chroma_filled_nil f lo l : chroma_filled (isRGB && negb downsample) f lo lo l l.
Proof. unfold chroma_filled. destruct (isRGB && negb downsample); [apply filled_nil | done]. Qed.

Lemma chroma_filled_trans f lo mid hi l0 l1 l2 :
  chroma_filled (isRGB && negb downsample) f lo mid l0 l1 → chroma_filled (isRGB && negb downsample) f mid hi l1 l2 → lo ≤ mid ≤ hi →
  chroma_filled (isRGB && negb downsample) f lo hi l0 l2.
Proof.
  unfold chroma_filled. destruct (isRGB && negb downsample).
  - apply filled_trans.
  - congruence.
Qed.

Lemma fill_sample_inv dy b0 k st :
  0 ≤ dy < 8 → 0 ≤ k < 8 →
  length (Y b0) = 64%nat → length (Cb b0) = 64%nat → length (Cr b0) = 64%nat →
  row_inv pixels width height downsample isRGB x0 y0 dy b0 k st →
  row_inv pixels width height downsample isRGB x0 y0 dy b0 (k + 1)
    (fill_sample pixels width downsample isRGB (width - 1)
       (Z.min (y0 + dy) (height - 1)) dy k st).
Proof.
  intros Hdy Hk HlY HlCb HlCr. destruct st as [column b].
  intros (Hc & HY & HCb & HCr). simpl in Hc, HY, HCb, HCr.
  destruct (idx_div_mod dy k Hk) as [Hdiv Hmod].
  assert (Hpos : s32 (s32 (Z.min (y0 + dy) (height - 1) * width) + column)
                 = int_pos width height (x0 + (dy * 8 + k) `mod` 8)
                                        (y0 + (dy * 8 + k) `div` 8)).
  { unfold int_pos. by rewrite Hdiv, Hmod, Hc. }
  assert (Hc' : (if decide (column < width - 1) then column + 1 else column)
                = Z.min (x0 + (k + 1)) (width - 1)).
  { case_decide; lia. }
  unfold fill_sample, row_inv. rewrite Hc', Hpos. clear Hpos.
  replace (dy * 8 + (k + 1)) with (dy * 8 + k + 1) by lia.
  unfold chroma_filled in *.
  destruct isRGB eqn:Hrgb; simpl.
  - destruct downsample eqn:Hds; simpl.
    + split; [done|]. split; [|by subst].
      apply filled_snoc; [done | lia | lia |]. unfold int_sample_at, int_luma. by rewrite ?Hrgb.
    + split; [done|]. split; [|split].
      * apply filled_snoc; [done | lia | lia |]. unfold int_sample_at, int_luma. by rewrite ?Hrgb.
      * apply filled_snoc; [done | lia | lia | done].
      * apply filled_snoc; [done | lia | lia | done].
  - split; [done|]. split; [|by subst].
    apply filled_snoc; [done | lia | lia |]. unfold int_sample_at, int_luma. by rewrite ?Hrgb.
Qed.

Lemma fill_row dy b0 :
  0 ≤ dy < 8 →
  length (Y b0) = 64%nat → length (Cb b0) = 64%nat → length (Cr b0) = 64%nat →
  let b := (for_range 0 8 1
              (fill_sample pixels width downsample isRGB (width - 1)
                 (Z.min (y0 + dy) (height - 1)) dy)
              (Z.min x0 (width - 1), b0)).2 in
  filled f0 fY (dy * 8) (dy * 8 + 8) (Y b0) (Y b) ∧
  chroma_filled (isRGB && negb downsample) fCb (dy * 8) (dy * 8 + 8) (Cb b0) (Cb b) ∧
  chroma_filled (isRGB && negb downsample) fCr (dy * 8) (dy * 8 + 8) (Cr b0) (Cr b).
Proof.
  intros Hdy HlY HlCb HlCr. unfold for_range.
  change (trip_count (8 - 0) 1) with 8%nat.
  assert (Hinv : row_inv pixels width height downsample isRGB x0 y0 dy b0 (Z.of_nat 8)
            (for_loop 8 0 1
               (fill_sample pixels width downsample isRGB (width - 1)
                  (Z.min (y0 + dy) (height - 1)) dy)
               (Z.min x0 (width - 1), b0))).
  { apply (for_loop_ind (fun k st => row_inv pixels width height downsample isRGB x0 y0 dy b0 (Z.of_nat k) st)).
    - unfold row_inv. simpl. rewrite !Z.add_0_r.
      split; [done|]. split; [apply filled_nil|].
      split; apply chroma_filled_nil.
    - intros k st Hk Hinv.
      replace (0 + Z.of_nat k * 1) with (Z.of_nat k) by lia.
      replace (Z.of_nat (Datatypes.S k)) with (Z.of_nat k + 1) by lia.
      apply fill_sample_inv; try done; lia. }
  destruct Hinv as (_ & HY & HCb & HCr). done.
Qed.

(** [fill_block] writes all 64 entries of [Y], and of [Cb] and [Cr] in
    4:4:4 mode, each from the position its [int] arithmetic gives. *)
Lemma fill_block_filled mcuX mcuY blockX blockY b0 :
  x0 = mcuX + blockX → y0 = mcuY + blockY →
  length (Y b0) = 64%nat → length (Cb b0) = 64%nat → length (Cr b0) = 64%nat →
  let b := fill_block pixels width height downsample isRGB mcuX mcuY blockX blockY b0 in
  filled f0 fY 0 64 (Y b0) (Y b) ∧
  chroma_filled (isRGB && negb downsample) fCb 0 64 (Cb b0) (Cb b) ∧
  chroma_filled (isRGB && negb downsample) fCr 0 64 (Cr b0) (Cr b).
Proof.
  intros Hx Hy HlY HlCb HlCr. unfold fill_block, for_range.
  change (trip_count (8 - 0) 1) with 8%nat.
  change 64 with (Z.of_nat 8 * 8).
  apply (for_loop_ind (fun k b =>
    filled f0 fY 0 (Z.of_nat k * 8) (Y b0) (Y b) ∧
    chroma_filled (isRGB && negb downsample) fCb 0 (Z.of_nat k * 8) (Cb b0) (Cb b) ∧
    chroma_filled (isRGB && negb downsample) fCr 0 (Z.of_nat k * 8) (Cr b0) (Cr b))).
  - split; [apply filled_nil|]. split; apply chroma_filled_nil.
  - intros k b Hk (HY & HCb & HCr).
    replace (0 + Z.of_nat k * 1) with (Z.of_nat k) by lia.
    assert (HlY' : length (Y b) = 64%nat) by (destruct HY; congruence).
    assert (HlC : length (Cb b) = 64%nat ∧ length (Cr b) = 64%nat).
    { unfold chroma_filled in *. destruct (isRGB && negb downsample).
      - destruct HCb, HCr. split; congruence.
      - split; congruence. }
    destruct HlC as [HlCb' HlCr'].
    rewrite <- Hx, <- Hy.
    pose proof (fill_row (Z.of_nat k) b ltac:(lia) HlY' HlCb' HlCr') as (HY2 & HCb2 & HCr2).
    replace (Z.of_nat (Datatypes.S k) * 8) with (Z.of_nat k * 8 + 8) by lia.
    split; [|split].
    + eapply filled_trans; [exact HY | exact HY2 | lia].
    + eapply chroma_filled_trans; [exact HCb | exact HCb2 | lia].
    + eapply chroma_filled_trans; [exact HCr | exact HCr2 | lia].
Qed.

End FillBlock.

(** ** Images whose positions fit in an [int] *)

Lemma filled_ext {A} (d : A) (f g : Z → A) lo hi l0 l :
  (∀ idx, lo ≤ idx < hi → f idx = g idx) → filled d f lo hi l0 l → filled d g lo hi l0 l.
Proof.
  intros Hfg [Hlen Hf]. split; [done|]. intros idx. rewrite Hf.
  case_decide; [by apply Hfg | done].
Qed.

Lemma sample_pos_range width height x y :
  0 < width → 0 < height → 0 ≤ x → 0 ≤ y →
  0 ≤ Z.min y (height - 1) * width ≤ width * height - width ∧
  0 ≤ sample_pos width height x y ≤ width * height - 1.
Proof. intros Hw Hh Hx Hy. unfold sample_pos. nia. Qed.

Section Fits.
Context `{FO : FloatOps}.
Variables (pixels : list Z) (width height : Z) (downsample isRGB : bool).
Hypothesis Hfits : image_fits_int width height downsample isRGB.

Lemma fits_bytes :
  0 < width ∧ 0 < height ∧ (if isRGB then 3 * (width * height) else width * height) ≤ INT_MAX.
Proof.
  destruct Hfits as (Hw & Hh & Hb). do 2 (split; [lia|]).
  destruct isRGB, downsample; lia.
Qed.

Lemma int_pos_fits x y :
  0 ≤ x → 0 ≤ y → int_pos width height x y = sample_pos width height x y.
Proof.
  intros Hx Hy. destruct fits_bytes as (Hw & Hh & Hb).
  destruct (sample_pos_range width height x y Hw Hh Hx Hy) as [Hrow Hpos].
  assert (width * height ≤ INT_MAX) by (destruct isRGB; nia).
  unfold int_pos. rewrite (s32_small (_ * _)) by (unfold INT_MAX in *; lia).
  fold (sample_pos width height x y). apply s32_small. unfold INT_MAX in *. lia.
Qed.

Lemma int_luma_fits x y :
  0 ≤ x → 0 ≤ y →
  int_luma pixels isRGB (sample_pos width height x y)
  = luma_sample pixels isRGB (sample_pos width height x y).
Proof.
  intros Hx Hy. destruct fits_bytes as (Hw & Hh & Hb).
  destruct (sample_pos_range width height x y Hw Hh Hx Hy) as [_ Hpos].
  unfold int_luma, luma_sample. destruct isRGB; [|done].
  rewrite !(s32_small (3 * _)) by (unfold INT_MAX in *; lia).
  by rewrite !s32_small by (unfold INT_MAX in *; lia).
Qed.

Lemma int_chroma_fits x y :
  isRGB = true → 0 ≤ x → 0 ≤ y →
  int_cb pixels (sample_pos width height x y) = cb_sample pixels (sample_pos width height x y) ∧
  int_cr pixels (sample_pos width height x y) = cr_sample pixels (sample_pos width height x y).
Proof.
  intros Hrgb Hx Hy. destruct fits_bytes as (Hw & Hh & Hb). rewrite Hrgb in Hb.
  destruct (sample_pos_range width height x y Hw Hh Hx Hy) as [_ Hpos].
  unfold int_cb, int_cr, cb_sample, cr_sample.
  rewrite !(s32_small (3 * _)) by (unfold INT_MAX in *; lia).
  by rewrite !s32_small by (unfold INT_MAX in *; lia).
Qed.

(** On such an image [fill_block] writes all 64 entries of [Y], and of [Cb]
    and [Cr] in 4:4:4 mode, each from the pixel the specification names. *)
Lemma fill_block_filled_fits mcuX mcuY blockX blockY b0 :
  0 ≤ mcuX + blockX → 0 ≤ mcuY + blockY →
  length (Y b0) = 64%nat → length (Cb b0) = 64%nat → length (Cr b0) = 64%nat →
  let b := fill_block pixels width height downsample isRGB mcuX mcuY blockX blockY b0 in
  filled f0 (sample_at (luma_sample pixels isRGB) width height (mcuX + blockX) (mcuY + blockY))
    0 64 (Y b0) (Y b) ∧
  chroma_filled (isRGB && negb downsample)
    (sample_at (cb_sample pixels) width height (mcuX + blockX) (mcuY + blockY))
    0 64 (Cb b0) (Cb b) ∧
  chroma_filled (isRGB && negb downsample)
    (sample_at (cr_sample pixels) width height (mcuX + blockX) (mcuY + blockY))
    0 64 (Cr b0) (Cr b).
Proof.
  intros Hx Hy HlY HlCb HlCr.
  pose proof (fill_block_filled pixels width height downsample isRGB
                (mcuX + blockX) (mcuY + blockY) mcuX mcuY blockX blockY b0
                eq_refl eq_refl HlY HlCb HlCr) as (FY & FCb & FCr).
  cbv zeta in *.
  assert (Hidx : ∀ idx, 0 ≤ idx < 64 →
            0 ≤ mcuX + blockX + idx `mod` 8 ∧ 0 ≤ mcuY + blockY + idx `div` 8).
  { intros idx Hi. pose proof (Z.mod_pos_bound idx 8 ltac:(lia)).
    pose proof (Z.div_pos idx 8 ltac:(lia) ltac:(lia)). lia. }
  split; [|split].
  - eapply filled_ext; [|exact FY]. intros idx Hi. destruct (Hidx idx Hi) as [H1 H2].
    unfold int_sample_at, sample_at. rewrite int_pos_fits by done. by apply int_luma_fits.
  - unfold chroma_filled in *. destruct (isRGB && negb downsample) eqn:Hmode; [|done].
    apply andb_prop in Hmode as [Hrgb _].
    eapply filled_ext; [|exact FCb]. intros idx Hi. destruct (Hidx idx Hi) as [H1 H2].
    unfold int_sample_at, sample_at. rewrite int_pos_fits by done.
    by apply int_chroma_fits.
  - unfold chroma_filled in *. destruct (isRGB && negb downsample) eqn:Hmode; [|done].
    apply andb_prop in Hmode as [Hrgb _].
    eapply filled_ext; [|exact FCr]. intros idx Hi. destruct (Hidx idx Hi) as [H1 H2].
    unfold int_sample_at, sample_at. rewrite int_pos_fits by done.
    by apply int_chroma_fits.
Qed.

End Fits.

(** ** Two writers run side by side *)

Lemma sync_start o1 o2 :
  sync (BitWriter_new o1) (BitWriter_new o2) (BitWriter_new o1) (BitWriter_new o2).
Proof. repeat split. exists []. by rewrite !app_nil_r. Qed.

Lemma sync_call_output a1 a2 w1 w2 v :
  sync a1 a2 w1 w2 → sync a1 a2 (call_output w1 v) (call_output w2 v).
Proof.
  intros (Hd & Hn & views & H1 & H2). repeat split; try done.
  exists (views ++ [v]). simpl. rewrite H1, H2. by rewrite !app_assoc.
Qed.

Lemma sync_put_byte a1 a2 w1 w2 b :
  sync a1 a2 w1 w2 → sync a1 a2 (put_byte w1 b) (put_byte w2 b).
Proof. apply sync_call_output. Qed.

Lemma sync_put_view a1 a2 w1 w2 v :
  sync a1 a2 w1 w2 → sync a1 a2 (put_view w1 v) (put_view w2 v).
Proof. apply sync_call_output. Qed.

Lemma sync_addMarker a1 a2 w1 w2 id len :
  sync a1 a2 w1 w2 → sync a1 a2 (addMarker w1 id len) (addMarker w2 id len).
Proof. intros Hs. unfold addMarker. by do 4 apply sync_call_output. Qed.

Lemma sync_write_full_bytes a1 a2 fuel w1 w2 :
  sync a1 a2 w1 w2 → sync a1 a2 (write_full_bytes fuel w1) (write_full_bytes fuel w2).
Proof.
  revert w1 w2. induction fuel as [|fuel IH]; intros w1 w2 Hs; [done|].
  pose proof Hs as (Hd & Hn & views & H1 & H2).
  simpl. rewrite <- Hn, <- Hd.
  destruct (decide (8 ≤ buffer_numBits w1)); [|done].
  apply IH.
  assert (Hs' : sync a1 a2
            (put_byte (mkBitWriter (output w1) (buffer_data w1) (u8 (buffer_numBits w1 - 8)))
               (u8 (Z.shiftr (buffer_data w1) (u8 (buffer_numBits w1 - 8)))))
            (put_byte (mkBitWriter (output w2) (buffer_data w1) (u8 (buffer_numBits w1 - 8)))
               (u8 (Z.shiftr (buffer_data w1) (u8 (buffer_numBits w1 - 8)))))).
  { apply sync_put_byte. repeat split. by exists views. }
  destruct (decide (u8 (Z.shiftr (buffer_data w1) (u8 (buffer_numBits w1 - 8))) = 255));
    [by apply sync_put_byte | done].
Qed.

Lemma sync_put_bitcode a1 a2 w1 w2 c :
  sync a1 a2 w1 w2 → sync a1 a2 (put_bitcode w1 c) (put_bitcode w2 c).
Proof.
  intros (Hd & Hn & views & H1 & H2). unfold put_bitcode. rewrite <- Hn, <- Hd.
  apply sync_write_full_bytes. repeat split. by exists views.
Qed.

Lemma sync_put_bitcodes a1 a2 cs w1 w2 :
  sync a1 a2 w1 w2 → sync a1 a2 (foldl put_bitcode w1 cs) (foldl put_bitcode w2 cs).
Proof.
  revert w1 w2. induction cs as [|c cs IH]; intros w1 w2 Hs; [done|].
  simpl. by apply IH, sync_put_bitcode.
Qed.

Lemma sync_for_loop a1 a2 n i step (body : Z → BitWriter → BitWriter) w1 w2 :
  (∀ j u1 u2, sync a1 a2 u1 u2 → sync a1 a2 (body j u1) (body j u2)) →
  sync a1 a2 w1 w2 →
  sync a1 a2 (for_loop n i step body w1) (for_loop n i step body w2).
Proof.
  intros Hbody Hs. apply (for_loop_rel (fun _ => sync a1 a2)); [done|].
  intros k u1 u2 _. apply Hbody.
Qed.

Lemma sync_write_headers a1 a2 w1 w2 width height downsample isRGB qL qC comment :
  sync a1 a2 w1 w2 →
  sync a1 a2 (write_headers w1 width height downsample isRGB qL qC comment)
             (write_headers w2 width height downsample isRGB qL qC comment).
Proof.
  intros Hs. unfold write_headers, for_range.
  repeat first
    [ apply sync_put_view | apply sync_put_byte | apply sync_addMarker
    | apply sync_for_loop; [intros j u1 u2 Hu|]
    | match goal with
      | |- context [if ?c then _ else _] => destruct c
      end
    | assumption ].
Qed.

(** ** The block encoder *)

Section BlockEncoder.
Context `{FO : FloatOps}.

Lemma DCT_length b base horizontal : length (DCT b base horizontal) = length b.
Proof. unfold DCT. by rewrite !length_set_at. Qed.

Lemma transform_block_length b scaled : length (transform_block b scaled) = length b.
Proof.
  unfold transform_block, for_range.
  repeat match goal with
  | |- length (for_loop ?n ?i ?st ?body ?s) = _ =>
      transitivity (length s);
      [apply (for_loop_ind (fun _ l => length l = length s)); [done|];
       intros k l _ Hl; rewrite ?DCT_length, ?length_set_at; exact Hl |]
  end.
  done.
Qed.

(** [encode_block] always has a result: it writes the symbols of the
    specification, leaves the transformed block and returns its DC. *)
Lemma encode_block_eq luminance w block64 scaled lastDC :
  encode_block luminance w block64 scaled lastDC
  = Some (foldl put_bitcode w
            (bitcode_of luminance <$> coded_symbols (transform_block block64 scaled) lastDC),
          transform_block block64 scaled,
          s16 (block_DC (transform_block block64 scaled))).
Proof. unfold encode_block. by rewrite block_symbols_spec. Qed.

(** ** The 4:2:0 chrominance pass on two runs *)

Lemma agree_set (P Q : Z → Prop) l1 l2 i v :
  agree P l1 l2 → 0 ≤ i < 64 → (∀ idx, Q idx → P idx ∨ idx = i) →
  agree Q (set_at l1 i v) (set_at l2 i v).
Proof.
  intros (H1 & H2 & Hat) Hi HQ. split; [by rewrite length_set_at|].
  split; [by rewrite length_set_at|]. intros idx Hidx.
  destruct (decide (idx = i)) as [->|Hne].
  - rewrite !at_set_at_eq by lia. done.
  - rewrite !at_set_at_ne by done. destruct (HQ idx Hidx); [auto | done].
Qed.

Lemma agree_weaken (P Q : Z → Prop) l1 l2 :
  agree P l1 l2 → (∀ idx, Q idx → P idx) → agree Q l1 l2.
Proof. intros (H1 & H2 & Hat) HQ. repeat split; auto. Qed.

Lemma agree_all l1 l2 : agree (fun idx => 0 ≤ idx < 64) l1 l2 → l1 = l2.
Proof.
  intros (H1 & H2 & Hat). apply (list_eq_at f0); [congruence|].
  intros i Hi. apply Hat. lia.
Qed.

Lemma agree_start l1 l2 :
  length l1 = 64%nat → length l2 = 64%nat → agree (fun idx => 64 ≤ idx < 64) l1 l2.
Proof. intros H1 H2. repeat split; try done. intros; lia. Qed.

Lemma downsample_chroma_rel pixels width height mcuX mcuY b1 b2 :
  length (Cb b1) = 64%nat → length (Cr b1) = 64%nat →
  length (Cb b2) = 64%nat → length (Cr b2) = 64%nat →
  Cb (downsample_chroma pixels width height mcuX mcuY b1)
    = Cb (downsample_chroma pixels width height mcuX mcuY b2) ∧
  Cr (downsample_chroma pixels width height mcuX mcuY b1)
    = Cr (downsample_chroma pixels width height mcuX mcuY b2) ∧
  length (Cb (downsample_chroma pixels width height mcuX mcuY b1)) = 64%nat ∧
  length (Cr (downsample_chroma pixels width height mcuX mcuY b1)) = 64%nat ∧
  Y (downsample_chroma pixels width height mcuX mcuY b1) = Y b1.
Proof.
  intros HCb1 HCr1 HCb2 HCr2. unfold downsample_chroma.
  set (body := fun (deltaY : Z) '(Cb0, Cr0) => _).
  assert (Hrel : (fun p1 p2 : list float * list float =>
             agree (fun idx => 0 ≤ idx < 64) p1.1 p2.1 ∧
             agree (fun idx => 0 ≤ idx < 64) p1.2 p2.2)
            (for_loop 8 7 (-1) body (Cb b1, Cr b1))
            (for_loop 8 7 (-1) body (Cb b2, Cr b2))).
  { apply (for_loop_rel (fun k (p1 p2 : list float * list float) =>
       agree (fun idx => (8 - Z.of_nat k) * 8 ≤ idx < 64) p1.1 p2.1 ∧
       agree (fun idx => (8 - Z.of_nat k) * 8 ≤ idx < 64) p1.2 p2.2)).
    - split; by apply agree_start.
    - intros k [cb1 cr1] [cb2 cr2] Hk [HaCb HaCr]. simpl in HaCb, HaCr.
      unfold body. set (dy := 7 + Z.of_nat k * -1).
      set (row := Z.min (mcuY + 2 * dy) (height - 1)).
      set (rowStep := if decide (row < height - 1) then s32 (3 * width) else 0).
      unfold for_range. change (trip_count (8 - 0) 1) with 8%nat.
      set (step := chroma_sample pixels width (width - 1) row rowStep dy).
      assert (Hin : (fun s1 s2 : chroma_state =>
                 agree (fun idx => dy * 8 ≤ idx < 64) (c_Cb s1) (c_Cb s2) ∧
                 agree (fun idx => dy * 8 ≤ idx < 64) (c_Cr s1) (c_Cr s2))
                (for_loop 8 0 1 step
                   (mkChroma (s32 (s32 (s32 (row * width) + mcuX) * 3)) mcuX
                      (if decide (mcuX < width - 1) then 3 else 0) cb1 cr1))
                (for_loop 8 0 1 step
                   (mkChroma (s32 (s32 (s32 (row * width) + mcuX) * 3)) mcuX
                      (if decide (mcuX < width - 1) then 3 else 0) cb2 cr2))).
      { assert (Hk8 : ∀ s1 s2,
          (c_pixelPos s1 = c_pixelPos s2 ∧ c_column s1 = c_column s2 ∧
           c_columnStep s1 = c_columnStep s2 ∧
           agree (fun idx => dy * 8 + 8 ≤ idx < 64 ∨ dy * 8 ≤ idx < dy * 8 + Z.of_nat 8)
                 (c_Cb s1) (c_Cb s2) ∧
           agree (fun idx => dy * 8 + 8 ≤ idx < 64 ∨ dy * 8 ≤ idx < dy * 8 + Z.of_nat 8)
                 (c_Cr s1) (c_Cr s2)) →
          agree (fun idx => dy * 8 ≤ idx < 64) (c_Cb s1) (c_Cb s2) ∧
          agree (fun idx => dy * 8 ≤ idx < 64) (c_Cr s1) (c_Cr s2)).
        { intros s1 s2 (_ & _ & _ & Ha & Hb).
          split; (eapply agree_weaken; [eassumption | cbv beta; intros; lia]). }
        apply Hk8.
        apply (for_loop_rel (fun j (s1 s2 : chroma_state) =>
          c_pixelPos s1 = c_pixelPos s2 ∧ c_column s1 = c_column s2 ∧
          c_columnStep s1 = c_columnStep s2 ∧
          agree (fun idx => dy * 8 + 8 ≤ idx < 64 ∨ dy * 8 ≤ idx < dy * 8 + Z.of_nat j)
                (c_Cb s1) (c_Cb s2) ∧
          agree (fun idx => dy * 8 + 8 ≤ idx < 64 ∨ dy * 8 ≤ idx < dy * 8 + Z.of_nat j)
                (c_Cr s1) (c_Cr s2))).
        - simpl. do 3 (split; [done|]).
          split; (eapply agree_weaken; [eassumption | cbv beta; intros; unfold dy; lia]).
        - intros j s1 s2 Hj (Hp & Hc & Hcs & Ha & Hb).
          unfold step, chroma_sample. rewrite <- Hp, <- Hc, <- Hcs.
          replace (0 + Z.of_nat j * 1) with (Z.of_nat j) by lia.
          assert (Hidx : 0 ≤ dy * 8 + Z.of_nat j < 64) by (unfold dy; lia).
          destruct (decide (width - 1 ≤ c_column s1 + 2)); simpl;
            (do 3 (split; [done|]);
             split; (eapply agree_set; [eassumption | exact Hidx | cbv beta; intros; lia])). }
      destruct Hin as [Hin1 Hin2]. simpl.
      replace ((8 - Z.of_nat (Datatypes.S k)) * 8) with (dy * 8) by (unfold dy; lia).
      done. }
  destruct (for_loop 8 7 (-1) body (Cb b1, Cr b1)) as [cb1 cr1].
  destruct (for_loop 8 7 (-1) body (Cb b2, Cr b2)) as [cb2 cr2].
  destruct Hrel as [Ha Hb]. simpl in *.
  pose proof (agree_all _ _ Ha). pose proof (agree_all _ _ Hb).
  destruct Ha as (? & ? & _). destruct Hb as (? & ? & _). done.
Qed.

End BlockEncoder.

(** ** Two runs of the encoder side by side *)

Section TwoRuns.
Context `{FO : FloatOps}.

Lemma opt_rel_bind {S T : Type} (R : S → S → Prop) (R' : T → T → Prop)
    (f1 f2 : S → option T) o1 o2 :
  opt_rel R o1 o2 →
  (∀ s1 s2, R s1 s2 → opt_rel R' (f1 s1) (f2 s2)) →
  opt_rel R' (o1 ≫= f1) (o2 ≫= f2).
Proof. intros (s1 & s2 & -> & -> & HR) Hf. rewrite !bind_Some. by apply Hf. Qed.

Lemma entropy_since_refl e : entropy_since e e.
Proof. exists []. split; [apply sent_since_refl | apply stuffed_nil]. Qed.

Lemma entropy_since_put_bitcodes e w cs :
  entropy_since e w → entropy_since e (foldl put_bitcode w cs).
Proof.
  intros (a & Ha & Hsa). destruct (put_bitcodes_stuffed cs w) as (b & Hb & Hsb).
  exists (a ++ b). split; [by eapply sent_since_trans | by apply stuffed_app].
Qed.

(** The blocks the chrominance of an MCU is encoded from: in 4:2:0 mode
    they do not depend on what the arrays held. *)
Lemma chroma_blocks_rel pixels width height mcuX mcuY (ds : bool) b1 b2 :
  lengths64 b1 → lengths64 b2 →
  (ds = false → Cb b1 = Cb b2 ∧ Cr b1 = Cr b2) →
  Cb (if ds then downsample_chroma pixels width height mcuX mcuY b1 else b1)
    = Cb (if ds then downsample_chroma pixels width height mcuX mcuY b2 else b2) ∧
  Cr (if ds then downsample_chroma pixels width height mcuX mcuY b1 else b1)
    = Cr (if ds then downsample_chroma pixels width height mcuX mcuY b2 else b2) ∧
  lengths64 (if ds then downsample_chroma pixels width height mcuX mcuY b1 else b1) ∧
  lengths64 (if ds then downsample_chroma pixels width height mcuX mcuY b2 else b2).
Proof.
  intros (L1 & L2 & L3) (M1 & M2 & M3) Heq. destruct ds.
  - pose proof (downsample_chroma_rel pixels width height mcuX mcuY b1 b2 L2 L3 M2 M3)
      as (E1 & E2 & E3 & E4 & E5).
    pose proof (downsample_chroma_rel pixels width height mcuX mcuY b2 b1 M2 M3 L2 L3)
      as (_ & _ & E6 & E7 & E8).
    generalize dependent (downsample_chroma pixels width height mcuX mcuY b1).
    generalize dependent (downsample_chroma pixels width height mcuX mcuY b2).
    intros c2 E6 E7 E8 c1 E1 E2 E3 E4 E5.
    split; [exact E1|]. split; [exact E2|].
    unfold lengths64. rewrite E5, E8. repeat split; assumption.
  - destruct (Heq eq_refl) as [H1 H2].
    split; [exact H1|]. split; [exact H2|]. unfold lengths64. repeat split; assumption.
Qed.

Lemma run_rel_weaken a1 a2 e1 c s1 s2 :
  run_rel a1 a2 e1 c s1 s2 → run_rel a1 a2 e1 false s1 s2.
Proof.
  intros (Hs & He & HY & HCb & HCr & L & M & _).
  unfold run_rel. do 7 (split; [done|]). intros Hf. discriminate Hf.
Qed.

Section OneImage.
Variables (pixels : list Z) (width height : Z) (downsample isRGB : bool).
Variables (scaledL scaledC : list float).
Variables (a1 a2 e1 : BitWriter).

Lemma encode_Y_block_rel c mcuX mcuY blockX blockY s1 s2 :
  run_rel a1 a2 e1 c s1 s2 →
  opt_rel (run_rel a1 a2 e1 (isRGB && negb downsample))
    (encode_Y_block pixels width height downsample isRGB scaledL mcuX mcuY blockX blockY s1)
    (encode_Y_block pixels width height downsample isRGB scaledL mcuX mcuY blockX blockY s2).
Proof.
  intros (Hsync & Hent & HY & HCb & HCr & (L1 & L2 & L3) & (M1 & M2 & M3) & _).
  unfold encode_Y_block.
  pose proof (fill_block_filled pixels width height downsample isRGB
                (mcuX + blockX) (mcuY + blockY) mcuX mcuY blockX blockY (blocks s1)
                eq_refl eq_refl L1 L2 L3) as (F1 & F2 & F3).
  pose proof (fill_block_filled pixels width height downsample isRGB
                (mcuX + blockX) (mcuY + blockY) mcuX mcuY blockX blockY (blocks s2)
                eq_refl eq_refl M1 M2 M3) as (G1 & G2 & G3).
  cbv zeta in F1, F2, F3, G1, G2, G3.
  set (b1 := fill_block pixels width height downsample isRGB mcuX mcuY blockX blockY (blocks s1)) in *.
  set (b2 := fill_block pixels width height downsample isRGB mcuX mcuY blockX blockY (blocks s2)) in *.
  clearbody b1 b2.
  assert (HYeq : Y b1 = Y b2).
  { rewrite (filled_all f0 _ _ _ F1 L1), (filled_all f0 _ _ _ G1 M1). done. }
  assert (HlY : length (Y b1) = 64%nat) by (destruct F1; congruence).
  assert (Hchroma : lengths64 b1 ∧ lengths64 b2 ∧
            (isRGB && negb downsample = true → Cb b1 = Cb b2 ∧ Cr b1 = Cr b2)).
  { unfold chroma_filled in *. destruct (isRGB && negb downsample).
    - unfold lengths64. rewrite <- HYeq, HlY.
      rewrite (proj1 F2), (proj1 F3), (proj1 G2), (proj1 G3), L2, L3, M2, M3.
      do 2 (split; [done|]). intros _.
      rewrite (filled_all f0 _ _ _ F2 L2), (filled_all f0 _ _ _ G2 M2).
      rewrite (filled_all f0 _ _ _ F3 L3), (filled_all f0 _ _ _ G3 M3). done.
    - unfold lengths64. rewrite F2, F3, G2, G3, <- HYeq, HlY. done. }
  destruct Hchroma as ((_ & K2 & K3) & (_ & N2 & N3) & Hceq).
  rewrite !encode_block_eq, !bind_Some. rewrite <- HYeq, <- HY.
  eexists _, _. split; [reflexivity|]. split; [reflexivity|].
  unfold run_rel, lengths64. cbn [writer lastYDC lastCbDC lastCrDC blocks Y Cb Cr].
  rewrite !transform_block_length.
  split; [by apply sync_put_bitcodes|].
  split; [by apply entropy_since_put_bitcodes|].
  repeat split; try done.
  - by apply Hceq.
  - by apply Hceq.
Qed.

Lemma encode_chroma_rel luminance block lastDC (w1 w2 : BitWriter) :
  sync a1 a2 w1 w2 → entropy_since e1 w1 →
  ∃ w1' w2' block' DC,
    encode_block luminance w1 block scaledC lastDC = Some (w1', block', DC) ∧
    encode_block luminance w2 block scaledC lastDC = Some (w2', block', DC) ∧
    sync a1 a2 w1' w2' ∧ entropy_since e1 w1' ∧ length block' = length block.
Proof.
  intros Hs He. rewrite !encode_block_eq. eexists _, _, _, _.
  split; [reflexivity|]. split; [reflexivity|].
  split; [by apply sync_put_bitcodes|].
  split; [by apply entropy_since_put_bitcodes | apply transform_block_length].
Qed.

Lemma encode_Y_block_step c mcuX mcuY blockX blockY o1 o2 :
  opt_rel (run_rel a1 a2 e1 c) o1 o2 →
  opt_rel (run_rel a1 a2 e1 (isRGB && negb downsample))
    (o1 ≫= encode_Y_block pixels width height downsample isRGB scaledL mcuX mcuY blockX blockY)
    (o2 ≫= encode_Y_block pixels width height downsample isRGB scaledL mcuX mcuY blockX blockY).
Proof.
  intros Ho. eapply opt_rel_bind; [exact Ho|].
  intros s1 s2 Hs. eapply encode_Y_block_rel. exact Hs.
Qed.

Lemma encode_mcu_rel c mcuY mcuX s1 s2 :
  run_rel a1 a2 e1 c s1 s2 →
  opt_rel (run_rel a1 a2 e1 false)
    (encode_mcu pixels width height downsample isRGB scaledL scaledC mcuY mcuX s1)
    (encode_mcu pixels width height downsample isRGB scaledL scaledC mcuY mcuX s2).
Proof.
  intros Hrel. unfold encode_mcu.
  apply opt_rel_bind with (R := run_rel a1 a2 e1 (isRGB && negb downsample)).
  { unfold for_range.
    assert (Hstart : opt_rel (run_rel a1 a2 e1 c) (Some s1) (Some s2)).
    { exists s1, s2. done. }
    set (sampling := if downsample then 2 else 1).
    assert (Hsampling : sampling = 2 ∨ sampling = 1).
    { unfold sampling. destruct downsample; auto. }
    clearbody sampling. destruct Hsampling as [-> | ->].
    - change (trip_count (8 * 2 - 0) 8) with 2%nat. cbn [for_loop]. cbv beta.
      do 4 eapply encode_Y_block_step. exact Hstart.
    - change (trip_count (8 * 1 - 0) 8) with 1%nat. cbn [for_loop]. cbv beta.
      eapply encode_Y_block_step. exact Hstart. }
  clear s1 s2 Hrel.
  intros s1 s2 Hrel.
  pose proof Hrel as (Hsync & Hent & HY & HCb & HCr & (L1 & L2 & L3) & (M1 & M2 & M3) & Hc).
  destruct (negb isRGB) eqn:Hrgb.
  { exists s1, s2. do 2 (split; [done|]). eapply run_rel_weaken. exact Hrel. }
  set (b1 := if downsample then downsample_chroma pixels width height mcuX mcuY (blocks s1)
             else blocks s1).
  set (b2 := if downsample then downsample_chroma pixels width height mcuX mcuY (blocks s2)
             else blocks s2).
  assert (Hb : Cb b1 = Cb b2 ∧ Cr b1 = Cr b2 ∧ lengths64 b1 ∧ lengths64 b2).
  { apply chroma_blocks_rel; [done | done |].
    intros Hds. apply Hc. rewrite Hds. by destruct isRGB. }
  destruct Hb as (ECb & ECr & (K1 & K2 & K3) & (N1 & N2 & N3)).
  clearbody b1 b2.
  rewrite <- ECb, <- ECr, <- HCb, <- HCr.
  destruct (encode_chroma_rel false (Cb b1) (lastCbDC s1) _ _ Hsync Hent)
    as (w1' & w2' & cb' & DCb & -> & -> & Hsync' & Hent' & Hlcb).
  rewrite !bind_Some. cbv beta iota.
  destruct (encode_chroma_rel false (Cr b1) (lastCrDC s1) _ _ Hsync' Hent')
    as (w1'' & w2'' & cr' & DCr & -> & -> & Hsync'' & Hent'' & Hlcr).
  rewrite !bind_Some. cbv beta iota.
  eexists _, _. split; [reflexivity|]. split; [reflexivity|].
  unfold run_rel, lengths64. cbn [writer lastYDC lastCbDC lastCrDC blocks Y Cb Cr].
  rewrite Hlcb, Hlcr. do 7 (split; [done|]). intros Hf. discriminate Hf.
Qed.

Lemma encode_mcus_rel s1 s2 :
  run_rel a1 a2 e1 false s1 s2 →
  opt_rel (run_rel a1 a2 e1 false)
    (encode_mcus pixels width height downsample isRGB scaledL scaledC s1)
    (encode_mcus pixels width height downsample isRGB scaledL scaledC s2).
Proof.
  intros Hrel. unfold encode_mcus, for_range.
  apply (for_loop_rel (fun _ => opt_rel (run_rel a1 a2 e1 false))).
  { exists s1, s2. split; [reflexivity|]. split; [reflexivity | exact Hrel]. }
  intros j o1 o2 _ Ho.
  apply (for_loop_rel (fun _ => opt_rel (run_rel a1 a2 e1 false))); [exact Ho|].
  intros k p1 p2 _ Hp.
  eapply opt_rel_bind; [exact Hp|]. intros t1 t2 Ht. eapply encode_mcu_rel. exact Ht.
Qed.

End OneImage.

Lemma lengths64_uninitialised stack : lengths64 (uninitialised stack).
Proof.
  unfold lengths64, uninitialised. cbn [Y Cb Cr].
  rewrite !length_fmap, !length_seq. done.
Qed.

(** Two calls of [writeJpegIntern] with the same arguments, on writers in
    step: both return [true], the writers stay in step, and what the first
    has sent since the headers is stuffed entropy data followed by the EOI
    marker. *)
Lemma writeJpegIntern_rel a1 a2 w1 w2 pixels width height downsample isRGB qL qC sL sC
    comment stack1 stack2 :
  sync a1 a2 w1 w2 →
  ∃ w1' w2' entropy,
    writeJpegIntern w1 pixels width height downsample isRGB qL qC sL sC comment stack1
      = Some (true, w1') ∧
    writeJpegIntern w2 pixels width height downsample isRGB qL qC sL sC comment stack2
      = Some (true, w2') ∧
    sync a1 a2 w1' w2' ∧
    sent_since (write_headers w1 width height downsample isRGB qL qC comment) w1'
      (entropy ++ [255; 217]) ∧
    stuffed entropy.
Proof.
  intros Hs. unfold writeJpegIntern.
  set (h1 := write_headers w1 width height downsample isRGB qL qC comment).
  set (h2 := write_headers w2 width height downsample isRGB qL qC comment).
  assert (Hh : sync a1 a2 h1 h2) by (by apply sync_write_headers).
  destruct (encode_mcus_rel pixels width height downsample isRGB sL sC a1 a2 h1
              (mkMcu h1 0 0 0 (uninitialised stack1)) (mkMcu h2 0 0 0 (uninitialised stack2)))
    as (s1 & s2 & -> & -> & Hrel).
  { unfold run_rel. cbn [writer lastYDC lastCbDC lastCrDC blocks].
    split; [done|]. split; [apply entropy_since_refl|].
    repeat split; try done; apply lengths64_uninitialised. }
  rewrite !bind_Some.
  destruct Hrel as (Hsync & Hent & _).
  assert (Hent' : entropy_since h1 (flush (writer s1))).
  { destruct Hent as (a & Ha & Hsa).
    destruct (put_bitcode_stuffed (writer s1) (BitCode_ 127 7)) as (b & Hb & Hsb).
    exists (a ++ b). split; [by eapply sent_since_trans | by apply stuffed_app]. }
  destruct Hent' as (entropy & Hsent & Hst).
  eexists _, _, entropy. split; [reflexivity|]. split; [reflexivity|].
  split; [|split; [|done]].
  - do 2 apply sync_put_byte. unfold flush. by apply sync_put_bitcode.
  - unfold sent_since in *. unfold put_byte, call_output. cbn [output].
    rewrite !sink_bytes_snoc, Hsent. by rewrite <- !app_assoc.
Qed.

End TwoRuns.

(** ** The stream as a whole *)

Lemma extends_refl w : extends w w.
Proof. exists []. apply sent_since_refl. Qed.

Lemma extends_call_output a w v : extends a w → extends a (call_output w v).
Proof.
  intros (bs & Hbs). exists (bs ++ v).
  eapply sent_since_trans; [exact Hbs | apply call_output_sent].
Qed.

Lemma extends_addMarker a w id len : extends a w → extends a (addMarker w id len).
Proof. intros He. unfold addMarker. by do 4 apply extends_call_output. Qed.

Lemma extends_for_loop a n i step (body : Z → BitWriter → BitWriter) w :
  (∀ j u, extends a u → extends a (body j u)) → extends a w →
  extends a (for_loop n i step body w).
Proof.
  intros Hbody He. apply (for_loop_ind (fun _ => extends a)); [done|].
  intros k u _. apply Hbody.
Qed.

(** With a comment, the stream starts with [HeaderJfif], the COM marker,
    the length of the segment and the comment as it was given. *)
Lemma header_bytes_comment width height downsample isRGB qL qC comment :
  comment ≠ [] →
  ∃ rest,
    header_bytes width height downsample isRGB qL qC comment
    = HeaderJfif
      ++ [255; 254; u8 (Z.shiftr (u16 (2 + Z.of_nat (length comment))) 8);
          u8 (Z.land (u16 (2 + Z.of_nat (length comment))) 255)]
      ++ comment ++ rest.
Proof.
  intros Hc. unfold header_bytes, write_headers.
  rewrite decide_True by done.
  set (w0 := put_view (addMarker (put_view (BitWriter_new []) _) 254 _) comment).
  match goal with
  | |- ∃ rest, sink_bytes (output ?w) = _ => assert (He : extends w0 w)
  end.
  { unfold for_range.
    repeat first
      [ apply extends_refl
      | apply extends_call_output | apply extends_addMarker
      | apply extends_for_loop; [intros j u Hu|]
      | match goal with
        | |- context [if ?c then _ else _] => destruct c
        end
      | assumption ]. }
  destruct He as (rest & Hrest). exists rest.
  unfold sent_since in Hrest. rewrite Hrest. unfold w0, HeaderJfif.
  unfold put_view, addMarker, call_output, BitWriter_new. cbn [output].
  rewrite !sink_bytes_snoc. unfold u8 at 1. cbn [sink_bytes concat app].
  change (254 `mod` 256) with 254. rewrite <- ?app_assoc. reflexivity.
Qed.

Section WholeRun.
Context `{FO : FloatOps}.

(** Two accepted calls of [writeJpegQuality] with the same arguments: both
    return [true] after passing the same views to their sinks, whose bytes
    are the headers, stuffed entropy data and the EOI marker. *)
Lemma writeJpegQuality_accepted output1 output2 pixels width height downsample isRGB
    quality_ comment stack1 stack2 :
  1 < quality_ ≤ 100 → width ≠ 0 → height ≠ 0 →
  ∃ views entropy,
    writeJpegQuality output1 (Some pixels) width height downsample isRGB quality_ comment stack1
      = Returned true (output1 ++ views) ∧
    writeJpegQuality output2 (Some pixels) width height downsample isRGB quality_ comment stack2
      = Returned true (output2 ++ views) ∧
    sink_bytes views
      = header_bytes width height (if negb isRGB then false else downsample) isRGB
          (quant_table DefaultQuantLuminance_A (quality_scale quality_))
          (quant_table DefaultQuantChrominance_A (quality_scale quality_)) comment
        ++ entropy ++ [255; 217] ∧
    stuffed entropy.
Proof.
  intros Hq Hw Hh. unfold writeJpegQuality.
  rewrite (bool_decide_eq_true_2 (quality_ > 1)), (bool_decide_eq_true_2 (quality_ ≤ 100))
    by lia.
  rewrite (bool_decide_eq_false_2 (width = 0)), (bool_decide_eq_false_2 (height = 0)) by done.
  cbn [negb andb orb].
  fold (quality_scale quality_).
  set (ds := if negb isRGB then false else downsample).
  set (qL := quant_table DefaultQuantLuminance_A (quality_scale quality_)).
  set (qC := quant_table DefaultQuantChrominance_A (quality_scale quality_)).
  destruct (writeJpegIntern_rel (BitWriter_new output1) (BitWriter_new [])
              (BitWriter_new output1) (BitWriter_new [])
              pixels width height ds isRGB qL qC (scaled_luminance qL) (scaled_chrominance qC)
              comment stack1 stack1 (sync_start _ _))
    as (w1 & w0 & entropy & E1 & _ & Hs1 & Hsent & Hst).
  destruct (writeJpegIntern_rel (BitWriter_new output1) (BitWriter_new output2)
              (BitWriter_new output1) (BitWriter_new output2)
              pixels width height ds isRGB qL qC (scaled_luminance qL) (scaled_chrominance qC)
              comment stack1 stack2 (sync_start _ _))
    as (w1' & w2 & _ & E1' & E2 & Hs2 & _ & _).
  rewrite E1 in E1'. injection E1' as <-.
  rewrite E1, E2.
  destruct Hs2 as (_ & _ & views & Hv1 & Hv2). cbn [BitWriter_new output] in Hv1, Hv2.
  exists views, entropy. unfold writer_output. rewrite Hv1, Hv2.
  split; [reflexivity|]. split; [reflexivity|]. split; [|exact Hst].
  pose proof (sync_write_headers (BitWriter_new output1) (BitWriter_new [])
                (BitWriter_new output1) (BitWriter_new [])
                width height ds isRGB qL qC comment (sync_start _ _))
    as (_ & _ & hv & Hh1 & Hh0).
  cbn [BitWriter_new output] in Hh1, Hh0.
  unfold sent_since in Hsent. rewrite Hh1, Hv1 in Hsent.
  unfold header_bytes. rewrite Hh0. cbn [app].
  unfold sink_bytes in *. rewrite !concat_app in Hsent.
  rewrite <- !app_assoc in Hsent. apply app_inv_head in Hsent. exact Hsent.
Qed.

End WholeRun.

(** ** Codewords that are read *)

Lemma category_log2_up v : 1 ≤ v → category v = Z.log2_up (v + 1).
Proof.
  intros Hv. unfold category. rewrite Z.abs_eq by lia.
  rewrite Z.log2_up_eqn by lia. replace (Z.pred (v + 1)) with v by lia. lia.
Qed.

Lemma ac_spec_codewords run l v : CodeWord v ∈ ac_spec run l → v ≠ 0.
Proof.
  revert run. induction l as [|x l IH]; intros run; simpl.
  - intros Hin. by apply elem_of_nil in Hin.
  - destruct (decide (x = 0)) as [Hx|Hx]; [apply IH|].
    rewrite !elem_of_app, !elem_of_cons. intros [Hin | [Hin | [Hin | Hin]]].
    + apply elem_of_replicate in Hin as [Hin _]. discriminate Hin.
    + discriminate Hin.
    + by injection Hin as ->.
    + by eapply IH.
Qed.

Lemma dc_symbols_codewords diff v : CodeWord v ∈ dc_symbols diff → v ≠ 0.
Proof.
  unfold dc_symbols. destruct (decide (diff = 0)) as [Hd|Hd]; cbv zeta; intros Hin.
  - apply elem_of_cons in Hin as [Hin|Hin]; [discriminate Hin | by apply elem_of_nil in Hin].
  - apply elem_of_cons in Hin as [Hin|Hin]; [discriminate Hin|].
    apply elem_of_cons in Hin as [Hin|Hin]; [|by apply elem_of_nil in Hin].
    injection Hin as ->. exact Hd.
Qed.

Lemma eob_spec_codewords value v : CodeWord v ∈ eob_spec value → v ≠ 0.
Proof.
  unfold eob_spec. destruct (decide (value 63 = 0)); intros Hin.
  - apply elem_of_cons in Hin as [Hin|Hin]; [discriminate Hin | by apply elem_of_nil in Hin].
  - by apply elem_of_nil in Hin.
Qed.

Lemma block_symbols_codewords DC lastDC value syms v :
  block_symbols DC lastDC value = Some syms → CodeWord v ∈ syms → v ≠ 0.
Proof.
  rewrite block_symbols_spec. generalize (value <$> seqZ 1 63). intros l Hs.
  apply (inj Some) in Hs. subst syms.
  intros Hin. apply elem_of_app in Hin as [Hin|Hin].
  - eapply dc_symbols_codewords. exact Hin.
  - apply elem_of_app in Hin as [Hin|Hin].
    + eapply ac_spec_codewords. exact Hin.
    + eapply eob_spec_codewords. exact Hin.
Qed.

(** * The claims *)

(** C1: quality 1 is not accepted. [writeJpegQuality] throws for
    [quality_ = 1], whatever the other arguments are, and [writeJpeg<1>] does
    not compile: the guard of both is [quality_ > 1], where the message and
    the documentation say [1..100]. *)
Theorem quality_1_is_rejected `{FO : FloatOps} output pixels width height downsample isRGB
    comment stack :
  writeJpegQuality output pixels width height downsample isRGB 1 comment stack
    = Thrown "Quality must be in [1..100]" output ∧
  writeJpeg 1 output pixels width height downsample isRGB comment stack = IllFormed.
Proof.
  unfold writeJpegQuality, writeJpeg.
  rewrite !(bool_decide_eq_false_2 (1 > 1)) by lia. split; reflexivity.
Qed.

(** C2, as stated, fails: a 1x1 grayscale image with the comment [0xFF] at
    quality 90 is encoded, the call returns [true], and the first 25 bytes of
    the stream are the JFIF header and the COM segment with the byte [0xFF]
    in it. *)
Lemma comment_with_0xFF_is_written :
  match writeJpegQuality (FO := IEEE.ops) [] (Some [200]) 1 1 false false 90 [255]
          (fun _ => S754_zero false) with
  | Returned true out =>
      take 25 (sink_bytes out)
      = [255; 216; 255; 224; 0; 16; 74; 70; 73; 70; 0; 1; 1; 0; 0; 1; 0; 1; 0; 0;
         255; 254; 0; 3; 255]
  | _ => False
  end.
Proof. vm_compute. reflexivity. Qed.

(** C2, amended: the comment is not validated. For every call with a
    quality from 2 to 100, pixels, non-zero dimensions and a non-empty
    comment, with or without [0xFF] in it, the call returns [true] and the
    stream starts with [HeaderJfif], the COM marker [FF FE], the length
    [2 + size] on 16 bits and the bytes of the comment as given. *)
Theorem comment_is_written_as_given `{FO : FloatOps} output pixels width height downsample
    isRGB quality_ comment stack :
  1 < quality_ ≤ 100 → width ≠ 0 → height ≠ 0 → comment ≠ [] →
  ∃ out rest,
    writeJpegQuality output (Some pixels) width height downsample isRGB quality_ comment stack
      = Returned true out ∧
    sink_bytes out
      = sink_bytes output ++ HeaderJfif
        ++ [255; 254; u8 (Z.shiftr (u16 (2 + Z.of_nat (length comment))) 8);
            u8 (Z.land (u16 (2 + Z.of_nat (length comment))) 255)]
        ++ comment ++ rest.
Proof.
  intros Hq Hw Hh Hc.
  destruct (writeJpegQuality_accepted output output pixels width height downsample isRGB
              quality_ comment stack stack Hq Hw Hh)
    as (views & entropy & E & _ & Hbytes & _).
  destruct (header_bytes_comment width height (if negb isRGB then false else downsample)
              isRGB (quant_table DefaultQuantLuminance_A (quality_scale quality_))
              (quant_table DefaultQuantChrominance_A (quality_scale quality_)) comment Hc)
    as (rest & Hhdr).
  exists (output ++ views), (rest ++ entropy ++ [255; 217]).
  split; [exact E|].
  unfold sink_bytes in *. rewrite concat_app, Hbytes, Hhdr.
  rewrite <- !app_assoc. reflexivity.
Qed.

Lemma comment_is_written_as_given_witness :
  ∃ out rest,
    writeJpegQuality (FO := IEEE.ops) [] (Some [200]) 1 1 false false 90 [255]
      (fun _ => S754_zero false) = Returned true out ∧
    sink_bytes out
      = sink_bytes [] ++ HeaderJfif
        ++ [255; 254; u8 (Z.shiftr (u16 (2 + Z.of_nat (length [255]))) 8);
            u8 (Z.land (u16 (2 + Z.of_nat (length [255]))) 255)]
        ++ [255] ++ rest.
Proof.
  apply (comment_is_written_as_given (FO := IEEE.ops) [] [200] 1 1 false false 90 [255]
           (fun _ => S754_zero false)); [lia | lia | lia | discriminate].
Defined.

(** C3: byte stuffing. Whatever bit codes are appended to a writer, in the
    bytes it sends every [0xFF] is immediately followed by [0x00]; and every
    call of [writeJpegIntern] returns [true] having sent, after the headers,
    entropy data in which every [0xFF] is followed by [0x00], and then the
    EOI marker [FF D9]. *)
Theorem entropy_data_is_stuffed `{FO : FloatOps} :
  (∀ (codes : list BitCode) (w : BitWriter),
     ∃ bs, sent_since w (foldl put_bitcode w codes) bs ∧ stuffed bs) ∧
  (∀ w pixels width height downsample isRGB qL qC sL sC comment stack,
     ∃ w' entropy,
       writeJpegIntern w pixels width height downsample isRGB qL qC sL sC comment stack
         = Some (true, w') ∧
       sent_since (write_headers w width height downsample isRGB qL qC comment) w'
         (entropy ++ [255; 217]) ∧
       stuffed entropy).
Proof.
  split.
  - intros codes w. apply put_bitcodes_stuffed.
  - intros w pixels width height downsample isRGB qL qC sL sC comment stack.
    assert (Hs : sync w w w w).
    { repeat split. exists []. by rewrite app_nil_r. }
    destruct (writeJpegIntern_rel w w w w pixels width height downsample isRGB qL qC sL sC
                comment stack stack Hs)
      as (w' & _ & entropy & E & _ & _ & Hsent & Hst).
    exists w', entropy. split; [exact E|]. split; [exact Hsent | exact Hst].
Qed.

(** C4: run-length coding of a block. [encode_block] writes, after the DC
    symbols, exactly what the specification says for the 63 quantized
    coefficients in zig-zag order ([ac_spec]: ZRL once for each full run of
    16 zeros before a non-zero value, nothing for trailing zeros) and then
    EOB iff the coefficient at position 63 is zero. The second and third
    parts spell out [ac_spec]: a run of [n] zeros before a non-zero value
    gives [n / 16] ZRL symbols, and zeros at the end give nothing. *)
Theorem encode_block_run_length `{FO : FloatOps} :
  (∀ luminance writer block64 scaled lastDC,
     let block := transform_block block64 scaled in
     encode_block luminance writer block64 scaled lastDC
     = Some (foldl put_bitcode writer
               (bitcode_of luminance <$>
                  (dc_symbols (block_DC block - lastDC)
                   ++ ac_spec 0 (block_value block <$> seqZ 1 63)
                   ++ eob_spec (block_value block))),
             block, s16 (block_DC block))) ∧
  (∀ (n : nat) v rest, v ≠ 0 →
     ac_spec 0 (replicate n 0 ++ v :: rest)
     = replicate (n `div` 16)%nat (HuffAC 240)
       ++ [HuffAC (16 * Z.of_nat (n `mod` 16)%nat + numBits (codewords v)); CodeWord v]
       ++ ac_spec 0 rest) ∧
  (∀ coefficients (n : nat),
     ac_spec 0 (coefficients ++ replicate n 0) = ac_spec 0 coefficients) ∧
  (∀ value, HuffAC 0 ∈ eob_spec value ↔ value 63 = 0).
Proof.
  split; [|split; [|split]].
  - intros. apply encode_block_eq.
  - intros n v rest Hv. by rewrite ac_spec_zeros.
  - intros. apply ac_spec_trailing_zeros.
  - intros value. unfold eob_spec. destruct (decide (value 63 = 0)) as [Hz|Hz].
    + split; [done|]. intros _. apply list_elem_of_singleton. reflexivity.
    + split; [|done]. intros Hin. by apply elem_of_nil in Hin.
Qed.

(** C5: the scale factor is cut to 8 bits. For [quality_ = 10] the scale is
    [5000 / 10 = 500]; [quant_table] takes it as an [unsigned char], that is
    as [244], so the first luminance entry is [39] where the formula of the
    claim gives [clamp((16 * 500 + 50) / 100, 1, 255) = 80]. *)
Theorem quant_table_scale_is_truncated :
  quality_scale 10 = 500 ∧
  at_ 0 (quant_table DefaultQuantLuminance_A (quality_scale 10)) 0 = 39 ∧
  clamp ((at_ 0 DefaultQuantLuminance_A (at_ 0 ZigZagInv 0) * quality_scale 10 + 50) /i 100)
        1 255 = 80.
Proof. vm_compute. repeat split. Qed.

(** C6: border replication in 4:4:4 mode and for grayscale images, where the
    position of the pixel no longer fits in an [int]. In a grayscale image of
    46341 x 46341 pixels the block at the MCU origin [(46336, 46336)] has at
    [(dy, dx) = (4, 4)] the pixel of row 46340 and column 46340, which is
    byte 2147488280 of the buffer; [row * int(width) + column] exceeds
    [INT_MAX] there, and the sample is computed from the byte at index
    -2147479016 instead. In an RGB image of 26755 x 26755 pixels the same
    happens to [3 * pixelPos] for the pixel at [(26754, 26754)], at byte
    2147490072: the block at [(26752, 26752)] gets at [(2, 2)] a sample
    computed from the bytes at -2147477224 and the two after it. *)
Theorem fill_block_index_overflows `{FO : FloatOps} (pixels : list Z) (stack : nat → float) :
  let gray := fill_block pixels 46341 46341 false false 46336 46336 0 0 (uninitialised stack) in
  let rgb := fill_block pixels 26755 26755 false true 26752 26752 0 0 (uninitialised stack) in
  (sample_pos 46341 46341 (46336 + 4) (46336 + 4) = 2147488280 ∧
   INT_MAX < 2147488280 < 46341 * 46341 ∧
   at_ f0 (Y gray) (4 * 8 + 4) = fsub (f_of_int (pixel pixels (-2147479016))) (flit 128 0)) ∧
  (3 * sample_pos 26755 26755 (26752 + 2) (26752 + 2) = 2147490072 ∧
   INT_MAX < 2147490072 < 3 * (26755 * 26755) ∧
   at_ f0 (Y rgb) (2 * 8 + 2)
   = fsub (rgb2y (f_of_int (pixel pixels (-2147477224)))
                 (f_of_int (pixel pixels (-2147477223)))
                 (f_of_int (pixel pixels (-2147477222))))
          (f_of_int 128) ∧
   at_ f0 (Cb rgb) (2 * 8 + 2)
   = rgb2cb (f_of_int (pixel pixels (-2147477224)))
            (f_of_int (pixel pixels (-2147477223)))
            (f_of_int (pixel pixels (-2147477222)))).
Proof.
  intros gray rgb. split.
  - split; [reflexivity|]. split; [unfold INT_MAX; lia|].
    pose proof (fill_block_filled pixels 46341 46341 false false (46336 + 0) (46336 + 0)
                  46336 46336 0 0 (uninitialised stack)
                  eq_refl eq_refl eq_refl eq_refl eq_refl) as ([_ FY] & _).
    fold gray in FY. rewrite FY, decide_True by lia.
    unfold int_sample_at, int_luma.
    replace (int_pos 46341 46341 (46336 + 0 + (4 * 8 + 4) `mod` 8)
               (46336 + 0 + (4 * 8 + 4) `div` 8)) with (-2147479016)
      by (vm_compute; reflexivity).
    reflexivity.
  - split; [reflexivity|]. split; [unfold INT_MAX; lia|].
    pose proof (fill_block_filled pixels 26755 26755 false true (26752 + 0) (26752 + 0)
                  26752 26752 0 0 (uninitialised stack)
                  eq_refl eq_refl eq_refl eq_refl eq_refl) as ([_ FY] & [_ FCb] & _).
    fold rgb in FY, FCb. rewrite FY, FCb, !decide_True by lia.
    unfold int_sample_at, int_luma, int_cb.
    set (p := int_pos 26755 26755 (26752 + 0 + (2 * 8 + 2) `mod` 8)
                (26752 + 0 + (2 * 8 + 2) `div` 8)).
    replace (s32 (s32 (3 * p) + 1)) with (-2147477223) by (vm_compute; reflexivity).
    replace (s32 (s32 (3 * p) + 2)) with (-2147477222) by (vm_compute; reflexivity).
    replace (s32 (3 * p)) with (-2147477224) by (vm_compute; reflexivity).
    split; reflexivity.
Qed.

(** C7: the codeword table. For every [v] from 1 to 2047, [codewords[v]]
    is [v] on [ceil(log2(v + 1))] bits and [codewords[-v]] is
    [(2^bits - 1) - v] on as many bits; and no block makes the encoder read
    [codewords[0]]: every codeword a block reads has a non-zero index. *)
Theorem codewords_table_and_reads :
  (∀ v, 1 ≤ v < 2048 →
     codewords v = mkBitCode v (Z.log2_up (v + 1)) ∧
     codewords (- v) = mkBitCode (2 ^ Z.log2_up (v + 1) - 1 - v) (Z.log2_up (v + 1))) ∧
  (∀ DC lastDC value syms,
     block_symbols DC lastDC value = Some syms → CodeWord 0 ∉ syms).
Proof.
  split.
  - intros v Hv. rewrite <- category_log2_up by lia. apply codewords_table.
    unfold CodeWordLimit. lia.
  - intros DC lastDC value syms Hs Hin.
    by apply (block_symbols_codewords DC lastDC value syms 0 Hs Hin).
Qed.


(** C9: the argument checks of [writeJpegQuality]. A quality that the
    guard [quality_ > 1 && quality_ <= 100] refuses makes the call throw,
    whatever the pixels and the dimensions are, so the quality is checked
    first; with a quality the guard lets through, a null pixel pointer or a
    zero width or height makes the call return [false] without throwing; in
    each case the sink is left as it was. *)
Theorem writeJpegQuality_argument_errors `{FO : FloatOps} output pixels width height
    downsample isRGB quality_ comment stack :
  (¬ (1 < quality_ ≤ 100) →
   writeJpegQuality output pixels width height downsample isRGB quality_ comment stack
     = Thrown "Quality must be in [1..100]" output) ∧
  (1 < quality_ ≤ 100 → pixels = None ∨ width = 0 ∨ height = 0 →
   writeJpegQuality output pixels width height downsample isRGB quality_ comment stack
     = Returned false output).
Proof.
  split.
  - intros Hq. unfold writeJpegQuality.
    assert (Hg : negb (bool_decide (quality_ > 1) && bool_decide (quality_ ≤ 100)) = true).
    { destruct (decide (quality_ > 1)).
      - rewrite (bool_decide_eq_false_2 (quality_ ≤ 100)) by lia.
        by rewrite andb_false_r.
      - by rewrite (bool_decide_eq_false_2 (quality_ > 1)) by lia. }
    by rewrite Hg.
  - intros Hq Hbad. unfold writeJpegQuality.
    rewrite (bool_decide_eq_true_2 (quality_ > 1)), (bool_decide_eq_true_2 (quality_ ≤ 100)) by lia. cbn [negb andb].
    destruct pixels as [pixels|]; [|reflexivity].
    destruct Hbad as [Hp | [Hw | Hh]]; [discriminate Hp | |].
    + by rewrite (bool_decide_eq_true_2 (width = 0)) by done.
    + rewrite (bool_decide_eq_true_2 (height = 0)) by done. by rewrite orb_true_r.
Qed.

(** C10: the AC loop stays inside [quantized]. After the quantization
    loop, reading [quantized] outside [1..63] has no defined result; if
    [posNonZero] is at least 1, which is when the body of the outer loop
    runs, it indexes a non-zero entry; the inner [while] started at an
    [i ≤ posNonZero] ends at a non-zero entry with [i ≤ posNonZero]; and the
    whole loop ends with a result, so that it never reads outside [1..63]. *)
Theorem encode_ACs_stays_in_bounds (value : Z → Z) :
  let quantized := (quantize value).1 in
  let posNonZero := (quantize value).2 in
  (∀ i, ¬ (1 ≤ i ≤ 63) → quantized_at quantized i = None) ∧
  (1 ≤ posNonZero →
   posNonZero ≤ 63 ∧ ∃ v, quantized_at quantized posNonZero = Some v ∧ v ≠ 0) ∧
  (∀ i (run : nat), 1 ≤ i ≤ posNonZero → (run ≤ 15)%nat →
   ∃ i' offset' zrls v,
     skip_zeros 64 quantized i (16 * Z.of_nat run) = Some (i', offset', zrls) ∧
     i ≤ i' ≤ posNonZero ∧ quantized_at quantized i' = Some v ∧ v ≠ 0) ∧
  is_Some (encode_ACs 64 quantized posNonZero 1 0).
Proof.
  intros quantized posNonZero.
  pose proof (quantize_spec value) as Hq.
  pose proof (encode_ACs_quantize value) as Hac.
  fold quantized posNonZero in Hac.
  unfold quantized, posNonZero in *. clear quantized posNonZero.
  destruct (quantize value) as [q pos]. cbn [fst snd] in *.
  destruct Hq as (Hlen & H0 & Hq & Hpos & Hnz & Hz).
  split; [|split; [|split]].
  - intros i Hi. by apply quantized_at_outside.
  - intros Hp. split; [lia|]. exists (value pos). split; [apply Hq; lia | by apply Hnz].
  - intros i run Hi Hrun.
    destruct (first_nonzero value i (Z.to_nat (pos - i))) as (n & Hn & Hzeros & Hv).
    { replace (i + Z.of_nat (Z.to_nat (pos - i))) with pos by lia. apply Hnz. lia. }
    exists (i + Z.of_nat n), (16 * Z.of_nat ((run + n) `mod` 16)%nat),
           (replicate ((run + n) `div` 16)%nat (HuffAC 240)), (value (i + Z.of_nat n)).
    split; [|split; [lia|split; [apply Hq; lia | exact Hv]]].
    apply (skip_zeros_spec value q Hq n 64 i run); try lia; assumption.
  - rewrite Hac. by eexists.
Qed.

(** * Further properties of the code *)

(** ** The bit writer, bit by bit *)

Lemma stuff_cons b bs :
  stuff (b :: bs) = (if decide (b = 255) then [255; 0] else [b]) ++ stuff bs.
Proof. reflexivity. Qed.

Lemma stuff_app a b : stuff (a ++ b) = stuff a ++ stuff b.
Proof. unfold stuff. apply bind_app. Qed.

Lemma be_value_from acc bs :
  foldl (fun acc b => acc * 256 + b) acc bs = acc * 256 ^ Z.of_nat (length bs) + be_value bs.
Proof.
  unfold be_value. revert acc. induction bs as [|b bs IH]; intros acc.
  - simpl. lia.
  - cbn [foldl length]. rewrite IH, (IH (0 * 256 + b)).
    rewrite Nat2Z.inj_succ, Z.pow_succ_r by lia. lia.
Qed.

Lemma be_value_cons b bs : be_value (b :: bs) = b * 256 ^ Z.of_nat (length bs) + be_value bs.
Proof. unfold be_value at 1. cbn [foldl]. rewrite be_value_from. lia. Qed.

Lemma be_value_app a b :
  be_value (a ++ b) = be_value a * 256 ^ Z.of_nat (length b) + be_value b.
Proof. unfold be_value at 1. rewrite foldl_app. fold (be_value a). apply be_value_from. Qed.

Lemma pow256 n : 0 ≤ n → 256 ^ n = 2 ^ (8 * n).
Proof. intros. rewrite Z.pow_mul_r by lia. reflexivity. Qed.

Lemma bits_len_nonneg cs : Forall well_formed cs → 0 ≤ bits_len cs.
Proof.
  induction 1 as [|c cs [Hc _] _ IH]; cbn [bits_len foldr]; [lia|].
  fold (bits_len cs). lia.
Qed.

Lemma bits_value_from acc cs :
  Forall well_formed cs →
  foldl (fun acc c => acc * 2 ^ numBits c + code c) acc cs
  = acc * 2 ^ bits_len cs + bits_value cs.
Proof.
  unfold bits_value. intros H. revert acc. induction H as [|c cs [Hc _] Hcs IH]; intros acc.
  - simpl. lia.
  - cbn [foldl bits_len foldr]. rewrite IH, (IH (0 * _ + _)).
    fold (bits_len cs). pose proof (bits_len_nonneg cs Hcs).
    rewrite Z.pow_add_r by lia. lia.
Qed.

Lemma bits_value_cons c cs :
  Forall well_formed cs →
  bits_value (c :: cs) = code c * 2 ^ bits_len cs + bits_value cs.
Proof. intros H. unfold bits_value at 1. cbn [foldl]. rewrite bits_value_from by done. lia. Qed.

(** The loop that writes the full bytes: the bytes it takes from the buffer
    are the high bits of what was pending, and what stays pending are the
    low bits. *)
Lemma write_full_bytes_bits fuel w :
  0 ≤ buffer_numBits w < 256 → buffer_numBits w < 8 * Z.of_nat fuel + 8 →
  ∃ raw,
    sent_since w (write_full_bytes fuel w) (stuff raw) ∧
    Forall is_byte raw ∧
    0 ≤ buffer_numBits (write_full_bytes fuel w) < 8 ∧
    8 * Z.of_nat (length raw) + buffer_numBits (write_full_bytes fuel w) = buffer_numBits w ∧
    be_value raw * 2 ^ buffer_numBits (write_full_bytes fuel w)
      + pending (write_full_bytes fuel w) = pending w.
Proof.
  revert w. induction fuel as [|fuel IH]; intros w Hnb Hfuel.
  - exists []. cbn [write_full_bytes]. split; [apply sent_since_refl|].
    split; [constructor|]. split; [lia|]. split; [simpl; lia|]. unfold be_value. simpl. lia.
  - cbn [write_full_bytes]. destruct (decide (8 ≤ buffer_numBits w)) as [Hge|Hlt].
    + assert (Hnb1 : u8 (buffer_numBits w - 8) = buffer_numBits w - 8).
      { unfold u8. apply Z.mod_small. lia. }
      rewrite Hnb1.
      set (nb1 := buffer_numBits w - 8) in *.
      set (b := u8 (Z.shiftr (buffer_data w) nb1)).
      assert (Hb : is_byte b) by (unfold is_byte, b, u8; apply Z.mod_pos_bound; lia).
      set (w1 := put_byte (mkBitWriter (output w) (buffer_data w) nb1) b).
      set (w2 := if decide (b = 255) then put_byte w1 0 else w1).
      assert (Hw2 : buffer_numBits w2 = nb1 ∧ buffer_data w2 = buffer_data w ∧
                    sent_since w w2 (if decide (b = 255) then [255; 0] else [b])).
      { assert (Hub : u8 b = b) by (apply Z.mod_small; exact Hb).
        unfold w2. destruct (decide (b = 255)) as [Hff|Hff].
        - split; [done|]. split; [done|]. unfold sent_since, w1, put_byte, call_output, sink_bytes.
          cbn [output]. rewrite Hub, Hff, !concat_app. simpl. by rewrite <- !app_assoc.
        - split; [done|]. split; [done|]. unfold sent_since, w1, put_byte, call_output, sink_bytes.
          cbn [output]. rewrite Hub, !concat_app. simpl. done. }
      clearbody w2. destruct Hw2 as (Hn2 & Hd2 & Hs2).
      destruct (IH w2) as (raw & Hs & Hraw & Hnbf & Hlen & Hval); [lia|lia|].
      set (wf := write_full_bytes fuel w2) in *. clearbody wf.
      exists (b :: raw). split.
      { rewrite stuff_cons. by eapply sent_since_trans. }
      split; [by constructor|]. split; [done|]. split.
      { cbn [length]. lia. }
      rewrite be_value_cons, pow256 by lia.
      unfold pending in *. rewrite Hd2, Hn2 in Hval.
      replace (buffer_numBits w) with (nb1 + 8) by lia.
      rewrite Z.pow_add_r, Z.rem_mul_r by lia.
      rewrite Z.mul_add_distr_r, <- Z.mul_assoc, <- Z.pow_add_r by lia.
      replace (8 * Z.of_nat (length raw) + buffer_numBits wf) with nb1 by lia.
      unfold b, u8. rewrite Z.shiftr_div_pow2 by lia. change 256 with (2 ^ 8). lia.
    + exists []. split; [apply sent_since_refl|].
      split; [constructor|]. split; [lia|]. split; [simpl; lia|]. unfold be_value. simpl. lia.
Qed.

Lemma lor_low a c n : 0 ≤ n → 0 ≤ c < 2 ^ n → Z.lor (a * 2 ^ n) c = a * 2 ^ n + c.
Proof.
  intros Hn Hc. destruct (decide (c = 0)) as [->|Hc0]; [rewrite Z.lor_0_r; lia|].
  assert (Hland : Z.land (a * 2 ^ n) c = 0).
  { apply Z.bits_inj'; intros k Hk; rewrite Z.land_spec, Z.bits_0.
    destruct (decide (k < n)); [by rewrite Z.mul_pow2_bits_low by lia|].
    rewrite (Z.bits_above_log2 c k), andb_false_r; [done|lia|].
    apply Z.log2_lt_pow2; [lia|].
    apply Z.lt_le_trans with (2 ^ n); [lia|apply Z.pow_le_mono_r; lia]. }
  by rewrite <- Z.lxor_lor, <- Z.add_nocarry_lxor.
Qed.

(** One [operator<<(const BitCode &)]: the bits of the code go behind the
    pending ones. *)
Lemma put_bitcode_bits w c :
  0 ≤ buffer_numBits w < 8 → well_formed c →
  ∃ raw,
    sent_since w (put_bitcode w c) (stuff raw) ∧
    Forall is_byte raw ∧
    0 ≤ buffer_numBits (put_bitcode w c) < 8 ∧
    8 * Z.of_nat (length raw) + buffer_numBits (put_bitcode w c)
      = buffer_numBits w + numBits c ∧
    be_value raw * 2 ^ buffer_numBits (put_bitcode w c) + pending (put_bitcode w c)
      = pending w * 2 ^ numBits c + code c.
Proof.
  intros Hnb [Hn Hc]. unfold put_bitcode.
  assert (Hnb1 : u8 (buffer_numBits w + numBits c) = buffer_numBits w + numBits c).
  { apply Z.mod_small. lia. }
  rewrite Hnb1.
  set (w0 := mkBitWriter (output w)
               (Z.lor (u32 (Z.shiftl (buffer_data w) (numBits c))) (code c))
               (buffer_numBits w + numBits c)).
  assert (Hp0 : pending w0 = pending w * 2 ^ numBits c + code c).
  { unfold pending, w0. cbn [buffer_data buffer_numBits].
    set (nb := buffer_numBits w) in *. set (n := numBits c) in *.
    rewrite <- Z.land_ones, Z.land_lor_distr_l, !Z.land_ones by lia.
    unfold u32. rewrite Z.shiftl_mul_pow2 by lia.
    change 4294967296 with (2 ^ 32).
    replace 32 with ((nb + n) + (32 - (nb + n))) at 1 by lia.
    rewrite (Z.pow_add_r 2 (nb + n)) by lia.
    rewrite Z.rem_mul_r by lia.
    rewrite (Z.mul_comm (2 ^ (nb + n)) (_ `mod` _)), Z.mod_add by lia.
    rewrite Z.mod_mod by lia.
    rewrite Z.pow_add_r by lia. rewrite Z.mul_mod_distr_r by lia.
    rewrite (Z.mod_small (code c)).
    2:{ pose proof (Z.pow_pos_nonneg 2 nb ltac:(lia) ltac:(lia)). nia. }
    apply lor_low; lia. }
  destruct (write_full_bytes_bits 32 w0) as (raw & Hs & Hraw & Hnbf & Hlen & Hval).
  { unfold w0. cbn [buffer_numBits]. lia. }
  { unfold w0. cbn [buffer_numBits]. lia. }
  exists raw. split; [exact Hs|]. split; [done|]. split; [done|].
  split; [exact Hlen|]. rewrite Hval. exact Hp0.
Qed.

(** A sequence of codes: the bits are concatenated. *)
Lemma put_bitcodes_bits w cs :
  0 ≤ buffer_numBits w < 8 → Forall well_formed cs →
  ∃ raw,
    sent_since w (foldl put_bitcode w cs) (stuff raw) ∧
    Forall is_byte raw ∧
    0 ≤ buffer_numBits (foldl put_bitcode w cs) < 8 ∧
    8 * Z.of_nat (length raw) + buffer_numBits (foldl put_bitcode w cs)
      = buffer_numBits w + bits_len cs ∧
    be_value raw * 2 ^ buffer_numBits (foldl put_bitcode w cs)
      + pending (foldl put_bitcode w cs)
      = pending w * 2 ^ bits_len cs + bits_value cs.
Proof.
  intros Hnb Hcs. revert w Hnb. induction Hcs as [|c cs Hc Hcs IH]; intros w Hnb.
  - exists []. cbn [foldl bits_len foldr]. split; [apply sent_since_refl|].
    split; [constructor|]. split; [done|]. split; [simpl; lia|].
    unfold be_value, bits_value. simpl. lia.
  - cbn [foldl].
    destruct (put_bitcode_bits w c Hnb Hc) as (r1 & Hs1 & Hr1 & Hnb1 & Hl1 & Hv1).
    destruct (IH (put_bitcode w c) Hnb1) as (r2 & Hs2 & Hr2 & Hnb2 & Hl2 & Hv2).
    set (w1 := put_bitcode w c) in *. clearbody w1.
    set (w2 := foldl put_bitcode w1 cs) in *. clearbody w2.
    pose proof (bits_len_nonneg cs Hcs) as HL. destruct Hc as [Hn Hc].
    exists (r1 ++ r2). split.
    { rewrite stuff_app. by eapply sent_since_trans. }
    split; [by apply Forall_app|]. split; [done|].
    cbn [bits_len foldr]. fold (bits_len cs). split.
    { rewrite length_app. lia. }
    rewrite be_value_app, bits_value_cons, pow256 by (done || lia).
    rewrite (Z.pow_add_r 2 (numBits c)) by lia.
    rewrite Z.mul_add_distr_r, <- Z.mul_assoc, <- Z.pow_add_r by lia.
    replace (8 * Z.of_nat (length r2) + buffer_numBits w2)
      with (buffer_numBits w1 + bits_len cs) by lia.
    rewrite Z.pow_add_r by lia. nia.
Qed.

(** X1. Writing bit codes is exact to the bit: after any sequence of
    well-formed codes, the bytes the writer has sent are the stuffing of raw
    bytes which, followed by the bits still pending, are the bits that were
    pending before followed by the bits of the codes, most significant bit
    first; fewer than 8 bits stay pending. *)
Theorem put_bitcodes_bit_exact w cs :
  0 ≤ buffer_numBits w < 8 → Forall well_formed cs →
  ∃ raw,
    sent_since w (foldl put_bitcode w cs) (stuff raw) ∧
    Forall is_byte raw ∧
    0 ≤ buffer_numBits (foldl put_bitcode w cs) < 8 ∧
    8 * Z.of_nat (length raw) + buffer_numBits (foldl put_bitcode w cs)
      = buffer_numBits w + bits_len cs ∧
    be_value raw * 2 ^ buffer_numBits (foldl put_bitcode w cs)
      + pending (foldl put_bitcode w cs)
      = pending w * 2 ^ bits_len cs + bits_value cs.
Proof. intros Hnb Hcs. exact (put_bitcodes_bits w cs Hnb Hcs). Qed.

Lemma put_bitcodes_bit_exact_witness :
  ∃ raw,
    sent_since (BitWriter_new []) (foldl put_bitcode (BitWriter_new []) [mkBitCode 1021 10; mkBitCode 3 2])
      (stuff raw) ∧
    Forall is_byte raw ∧
    0 ≤ buffer_numBits (foldl put_bitcode (BitWriter_new []) [mkBitCode 1021 10; mkBitCode 3 2]) < 8 ∧
    8 * Z.of_nat (length raw)
      + buffer_numBits (foldl put_bitcode (BitWriter_new []) [mkBitCode 1021 10; mkBitCode 3 2])
      = buffer_numBits (BitWriter_new []) + bits_len [mkBitCode 1021 10; mkBitCode 3 2] ∧
    be_value raw * 2 ^ buffer_numBits (foldl put_bitcode (BitWriter_new []) [mkBitCode 1021 10; mkBitCode 3 2])
      + pending (foldl put_bitcode (BitWriter_new []) [mkBitCode 1021 10; mkBitCode 3 2])
      = pending (BitWriter_new []) * 2 ^ bits_len [mkBitCode 1021 10; mkBitCode 3 2]
        + bits_value [mkBitCode 1021 10; mkBitCode 3 2].
Proof.
  apply (put_bitcodes_bit_exact (BitWriter_new []) [mkBitCode 1021 10; mkBitCode 3 2]).
  - simpl. lia.
  - repeat constructor; simpl; lia.
Defined.

(** X2. [flush] fills the last byte with ones: with [nb] bits pending,
    [1 ≤ nb ≤ 7], it sends one byte, the pending bits followed by [8 - nb]
    set bits (and the stuffing zero if that byte is [0xFF]); with nothing
    pending it sends nothing. *)
Theorem flush_pads_with_ones w :
  0 ≤ buffer_numBits w < 8 →
  sent_since w (flush w)
    (if decide (buffer_numBits w = 0) then []
     else stuff [pending w * 2 ^ (8 - buffer_numBits w) + (2 ^ (8 - buffer_numBits w) - 1)]).
Proof.
  intros Hnb. unfold flush.
  destruct (put_bitcode_bits w (BitCode_ 127 7) Hnb) as (raw & Hs & Hraw & Hnb' & Hlen & Hval).
  { change (BitCode_ 127 7) with (mkBitCode 127 7). split; simpl; lia. }
  change (numBits (BitCode_ 127 7)) with 7 in *. change (code (BitCode_ 127 7)) with 127 in *.
  set (w' := put_bitcode w (BitCode_ 127 7)) in *. clearbody w'.
  assert (Hp' : 0 ≤ pending w' < 2 ^ buffer_numBits w').
  { apply Z.mod_pos_bound, Z.pow_pos_nonneg; lia. }
  destruct (decide (buffer_numBits w = 0)) as [H0|H0].
  - destruct raw as [|b raw]; [exact Hs|]. cbn [length] in Hlen. lia.
  - destruct raw as [|b [|b' raw]]; cbn [length] in Hlen; [lia| |lia].
    replace (pending w * 2 ^ (8 - buffer_numBits w) + (2 ^ (8 - buffer_numBits w) - 1)) with b;
      [exact Hs|].
    change (be_value [b]) with (0 * 256 + b) in Hval.
    assert (Hn : buffer_numBits w' = buffer_numBits w - 1) by lia.
    rewrite Hn in *. clear Hs Hraw Hlen Hn.
    assert (Hc : buffer_numBits w = 1 ∨ buffer_numBits w = 2 ∨ buffer_numBits w = 3 ∨
                 buffer_numBits w = 4 ∨ buffer_numBits w = 5 ∨ buffer_numBits w = 6 ∨
                 buffer_numBits w = 7) by lia.
    destruct Hc as [Hc|[Hc|[Hc|[Hc|[Hc|[Hc|Hc]]]]]]; rewrite Hc in *; simpl in *; lia.
Qed.

Lemma flush_pads_with_ones_witness :
  sent_since (mkBitWriter [] 5 3) (flush (mkBitWriter [] 5 3))
    (if decide (buffer_numBits (mkBitWriter [] 5 3) = 0) then []
     else stuff [pending (mkBitWriter [] 5 3) * 2 ^ (8 - buffer_numBits (mkBitWriter [] 5 3))
                 + (2 ^ (8 - buffer_numBits (mkBitWriter [] 5 3)) - 1)]).
Proof. apply (flush_pads_with_ones (mkBitWriter [] 5 3)). simpl. lia. Defined.

(** ** The Huffman tables are canonical and prefix-free *)

Lemma kraft_sum_app a b : kraft_sum (a ++ b) = kraft_sum a + kraft_sum b.
Proof. unfold kraft_sum. induction a as [|x a IH]; simpl; [done|]. rewrite IH. lia. Qed.

Lemma kraft_sum_nonneg a : 0 ≤ kraft_sum a.
Proof.
  unfold kraft_sum. induction a as [|x a IH]; simpl; [done|].
  pose proof (Z.pow_nonneg 2 (16 - x)). lia.
Qed.

Lemma kraft_sum_prefix a b : a `prefix_of` b → kraft_sum a ≤ kraft_sum b.
Proof. intros [c ->]. rewrite kraft_sum_app. pose proof (kraft_sum_nonneg c). lia. Qed.

Lemma kraft_sum_take_le (k1 k2 : nat) l : (k1 ≤ k2)%nat → kraft_sum (take k1 l) ≤ kraft_sum (take k2 l).
Proof.
  intros H. apply kraft_sum_prefix. replace k2 with (k1 + (k2 - k1))%nat by lia.
  rewrite <- take_take_drop. by apply prefix_app_r.
Qed.

Lemma kraft_sum_take_S (k : nat) l n :
  l !! k = Some n → kraft_sum (take (S k) l) = kraft_sum (take k l) + 2 ^ (16 - n).
Proof.
  intros H. rewrite (take_S_r _ _ _ H), kraft_sum_app. unfold kraft_sum at 2. simpl. lia.
Qed.

Lemma code_sizes_range numCodes (k : nat) n : code_sizes numCodes !! k = Some n → 1 ≤ n ≤ 16.
Proof.
  intros H. apply list_elem_of_lookup_2 in H. unfold code_sizes in H.
  apply list_elem_of_bind in H as (m & Hn & Hm).
  apply elem_of_replicate in Hn as [-> _]. apply elem_of_seqZ in Hm. lia.
Qed.

Section Huffman.
Variables numCodes values : list Z.
Hypothesis Hkraft : kraft_sum (code_sizes numCodes) ≤ 2 ^ 16.
Hypothesis Hvalues : (length (code_sizes numCodes) ≤ length values)%nat.
Hypothesis Hdistinct : NoDup (take (length (code_sizes numCodes)) values).

(** Assigning one more code of [n] bits. *)
Lemma huff_inv_assign n done s :
  1 ≤ n ≤ 16 → (done ++ [n]) `prefix_of` code_sizes numCodes →
  huff_inv values n done s →
  huff_inv values n (done ++ [n])
    (mkHuff (set_at (h_result s) (at_ 0 values (h_pos s)) (BitCode_ (h_code s) n))
            (u16 (h_code s + 1)) (h_pos s + 1)).
Proof.
  intros Hn Hpre (Hlen & Hpos & (cc & Hcode & Hcc) & Htab).
  pose proof (kraft_sum_prefix _ _ Hpre) as Hle. rewrite kraft_sum_app in Hle.
  change (kraft_sum [n]) with (2 ^ (16 - n) + 0) in Hle.
  pose proof (kraft_sum_nonneg done) as Hd0.
  assert (Hp : 0 < 2 ^ (16 - n)) by (apply Z.pow_pos_nonneg; lia).
  assert (H17 : 2 ^ (17 - n) = 2 * 2 ^ (16 - n)).
  { replace (17 - n) with (Z.succ (16 - n)) by lia. rewrite Z.pow_succ_r by lia. done. }
  assert (H16 : 2 ^ 16 = 2 ^ n * 2 ^ (16 - n)).
  { rewrite <- Z.pow_add_r by lia. f_equal. lia. }
  assert (Hccn : 0 ≤ cc < 2 ^ n) by nia.
  assert (Hn16 : 2 ^ n ≤ 2 ^ 16) by (apply Z.pow_le_mono_r; lia).
  assert (Hlook : ∃ v, values !! length done = Some v).
  { apply lookup_lt_is_Some_2. apply prefix_length in Hpre. rewrite length_app in Hpre.
    simpl in Hpre. lia. }
  destruct Hlook as [v Hv].
  assert (Hat : at_ 0 values (h_pos s) = v).
  { rewrite Hpos. unfold at_. rewrite decide_True by lia. by rewrite Nat2Z.id, Hv. }
  rewrite Hat.
  assert (Hbc : BitCode_ (h_code s) n = mkBitCode cc n).
  { unfold BitCode_. rewrite Hcode. f_equal; unfold u16, u8.
    - rewrite Z.mod_mod by lia. apply Z.mod_small. change 65536 with (2 ^ 16). lia.
    - apply Z.mod_small. lia. }
  rewrite Hbc.
  split; [|split; [|split]]; cbn [h_result h_code h_pos].
  - unfold set_at. destruct (decide (0 ≤ v)); [by rewrite length_insert|done].
  - rewrite length_app. simpl. lia.
  - exists (cc + 1). split.
    + rewrite Hcode. unfold u16. by rewrite Zplus_mod_idemp_l.
    + rewrite kraft_sum_app. change (kraft_sum [n]) with (2 ^ (16 - n) + 0). nia.
  - intros k nk vk Hk Hvk Hbyte.
    destruct (decide (k = length done)) as [->|Hne].
    + rewrite lookup_app_r, Nat.sub_diag in Hk by lia. injection Hk as <-.
      rewrite Hv in Hvk. injection Hvk as <-.
      exists cc. split.
      * unfold at_, set_at. rewrite !decide_True by (unfold is_byte in Hbyte; lia).
        rewrite list_lookup_insert_eq; [done|]. unfold is_byte in Hbyte. lia.
      * rewrite take_app_length. nia.
    + assert (Hlt : (k < length done)%nat).
      { apply lookup_lt_Some in Hk. rewrite length_app in Hk. simpl in Hk. lia. }
      rewrite lookup_app_l in Hk by done.
      destruct (Htab k nk vk Hk Hvk Hbyte) as (ck & Hck & Hsum).
      exists ck. split.
      * rewrite <- Hck. apply at_set_at_ne.
        intros ->. apply Hne.
        assert (HN : (length done < length (code_sizes numCodes))%nat).
        { apply prefix_length in Hpre. rewrite length_app in Hpre. simpl in Hpre. lia. }
        eapply (NoDup_lookup _ _ _ _ Hdistinct); rewrite lookup_take_lt by lia; eassumption.
      * rewrite take_app_le by lia. done.
Qed.

(** The inner loop: the codes of [n] bits. *)
Lemma huff_inv_inner n done s (cnt : nat) :
  1 ≤ n ≤ 16 → (done ++ replicate cnt n) `prefix_of` code_sizes numCodes →
  huff_inv values n done s →
  huff_inv values n (done ++ replicate cnt n)
    (for_loop cnt 0 1
       (fun _ s =>
          mkHuff (set_at (h_result s) (at_ 0 values (h_pos s)) (BitCode_ (h_code s) n))
                 (u16 (h_code s + 1)) (h_pos s + 1)) s).
Proof.
  intros Hn Hpre Hinv.
  apply (for_loop_ind (fun k s => huff_inv values n (done ++ replicate k n) s)).
  - by rewrite app_nil_r.
  - intros k s' Hk Hs'.
    replace (replicate (S k) n) with (replicate k n ++ [n]).
    2:{ clear. induction k as [|k IH]; simpl; [done|]. by rewrite IH. }
    rewrite app_assoc. apply huff_inv_assign; [done| |done].
    etrans; [|exact Hpre]. rewrite <- app_assoc. apply prefix_app.
    exists (replicate (cnt - S k)%nat n).
    change [n] with (replicate 1 n). rewrite <- !replicate_add. f_equal. lia.
Qed.

#[local] Transparent generateHuffmanTable.

Lemma generateHuffmanTable_inv :
  ∃ s, generateHuffmanTable numCodes values = h_result s ∧
       huff_inv values 17 (code_sizes numCodes) s.
Proof.
  unfold generateHuffmanTable, for_range. eexists. split; [reflexivity|].
  change (trip_count (17 - 1) 1) with 16%nat.
  set (f := fun n => replicate (Z.to_nat (at_ 0 numCodes (n - 1))) n).
  assert (Hall : code_sizes numCodes = seqZ 1 (Z.of_nat 16) ≫= f) by reflexivity.
  rewrite Hall.
  assert (Hpre : ∀ k : nat, (k ≤ 16)%nat →
            (seqZ 1 (Z.of_nat k) ≫= f) `prefix_of` code_sizes numCodes).
  { intros k Hk. rewrite Hall. replace (Z.of_nat 16) with (Z.of_nat k + Z.of_nat (16 - k)) by lia.
    rewrite (seqZ_app 1 (Z.of_nat k)) by lia. rewrite bind_app. by apply prefix_app_r. }
  apply (for_loop_ind (fun k s => huff_inv values (1 + Z.of_nat k) (seqZ 1 (Z.of_nat k) ≫= f) s)).
  - split; [done|]. split; [done|]. split.
    + exists 0. split; [done|]. simpl. done.
    + intros k nk vk Hk. done.
  - intros k s Hk Hs.
    replace (1 + Z.of_nat k * 1) with (1 + Z.of_nat k) by lia.
    set (n := 1 + Z.of_nat k) in *.
    assert (Hseq : seqZ 1 (Z.of_nat (S k)) ≫= f = (seqZ 1 (Z.of_nat k) ≫= f) ++ f n).
    { replace (Z.of_nat (S k)) with (Z.of_nat k + 1) by lia.
      rewrite (seqZ_app 1 (Z.of_nat k)) by lia. rewrite bind_app.
      change (seqZ (1 + Z.of_nat k) 1) with [n]. simpl. by rewrite app_nil_r. }
    rewrite Hseq.
    unfold trip_count.
    replace (Z.to_nat ((at_ 0 numCodes (n - 1) - 0 + 1 - 1) `div` 1))
      with (Z.to_nat (at_ 0 numCodes (n - 1))) by (rewrite Z.div_1_r; f_equal; lia).
    pose proof (huff_inv_inner n (seqZ 1 (Z.of_nat k) ≫= f) s
                  (Z.to_nat (at_ 0 numCodes (n - 1))) ltac:(lia)) as Hin.
    fold (f n) in Hin. rewrite <- Hseq in Hin. specialize (Hin (Hpre (S k) ltac:(lia)) Hs).
    rewrite Hseq in Hin.
    set (s' := for_loop _ 0 1 _ s) in *. clearbody s'.
    destruct Hin as (Hlen & Hpos & (cc & Hcode & Hcc) & Htab).
    split; [done|]. split; [done|]. split; [|done].
    cbn [h_code]. exists (2 * cc). split.
    + rewrite Hcode, Z.shiftl_mul_pow2 by lia. unfold u16.
      rewrite Z.mul_mod_idemp_l by lia. f_equal. lia.
    + replace (17 - n) with (Z.succ (17 - (1 + Z.of_nat (S k)))) in Hcc by lia.
      rewrite Z.pow_succ_r in Hcc by lia. lia.
Qed.

#[local] Opaque generateHuffmanTable.

(** The entry of the [k]-th value: its code has the size of its group, and
    is the number of code words of that size that the earlier codes take. *)
Lemma generateHuffmanTable_entry (k : nat) n v :
  code_sizes numCodes !! k = Some n → values !! k = Some v → is_byte v →
  ∃ c, at_ BitCode0 (generateHuffmanTable numCodes values) v = mkBitCode c n ∧
       c * 2 ^ (16 - n) = kraft_sum (take k (code_sizes numCodes)) ∧
       0 ≤ c < 2 ^ n.
Proof.
  intros Hk Hv Hb. destruct generateHuffmanTable_inv as (s & -> & _ & _ & _ & Htab).
  destruct (Htab k n v Hk Hv Hb) as (c & Hc & Hsum). exists c. split; [done|]. split; [done|].
  pose proof (code_sizes_range _ _ _ Hk) as Hn.
  pose proof (kraft_sum_take_S _ _ _ Hk) as HS.
  pose proof (kraft_sum_prefix _ _ (prefix_take (code_sizes numCodes) (S k))) as Hle.
  pose proof (kraft_sum_nonneg (take k (code_sizes numCodes))).
  assert (Hp : 0 < 2 ^ (16 - n)) by (apply Z.pow_pos_nonneg; lia).
  assert (H16 : 2 ^ 16 = 2 ^ n * 2 ^ (16 - n)).
  { rewrite <- Z.pow_add_r by lia. f_equal. lia. }
  nia.
Qed.

End Huffman.

Lemma sizes_sorted (c : Z → nat) (m : nat) a (i j : nat) x y :
  (i < j)%nat →
  (seqZ a (Z.of_nat m) ≫= (fun n => replicate (c n) n)) !! i = Some x →
  (seqZ a (Z.of_nat m) ≫= (fun n => replicate (c n) n)) !! j = Some y →
  x ≤ y.
Proof.
  revert a i j. induction m as [|m IH]; intros a i j Hij Hi Hj; [done|].
  rewrite seqZ_cons in Hi, Hj by lia.
  replace (Z.pred (Z.of_nat (S m))) with (Z.of_nat m) in Hi, Hj by lia.
  change ((?a :: ?l) ≫= ?f) with (f a ++ (l ≫= f)) in Hi, Hj. cbv beta in Hi, Hj.
  apply lookup_app_Some in Hi as [Hi|[Hli Hi]]; apply lookup_app_Some in Hj as [Hj|[Hlj Hj]].
  - apply lookup_replicate in Hi as [-> _]. apply lookup_replicate in Hj as [-> _]. lia.
  - apply lookup_replicate in Hi as [-> _].
    apply list_elem_of_lookup_2, list_elem_of_bind in Hj as (n & Hy & Hn).
    apply elem_of_replicate in Hy as [-> _]. apply elem_of_seqZ in Hn. lia.
  - apply lookup_lt_Some in Hj. lia.
  - apply (IH (Z.succ a) (i - length (replicate (c a) a))%nat
              (j - length (replicate (c a) a))%nat); [lia|done|done].
Qed.

(** X3. [generateHuffmanTable] assigns canonical codes. When the sizes fit
    the 16-bit code space, no value is read beyond [values] and the values
    are distinct, the entry of the [k]-th value has the size of its group and
    a code that fits this size; the first code is 0, and each further code
    is the previous one plus 1, shifted left by the difference of the two
    sizes. *)
Theorem generateHuffmanTable_canonical numCodes values (k : nat) n v :
  kraft_sum (code_sizes numCodes) ≤ 2 ^ 16 →
  (length (code_sizes numCodes) ≤ length values)%nat →
  NoDup (take (length (code_sizes numCodes)) values) →
  code_sizes numCodes !! k = Some n → values !! k = Some v → is_byte v →
  ∃ c, at_ BitCode0 (generateHuffmanTable numCodes values) v = mkBitCode c n ∧
       0 ≤ c < 2 ^ n ∧
       (k = 0%nat → c = 0) ∧
       ∀ n' v', code_sizes numCodes !! S k = Some n' → values !! S k = Some v' → is_byte v' →
         at_ BitCode0 (generateHuffmanTable numCodes values) v'
         = mkBitCode (Z.shiftl (c + 1) (n' - n)) n'.
Proof.
  intros Hkraft Hvalues Hdistinct Hk Hv Hb.
  destruct (generateHuffmanTable_entry numCodes values Hkraft Hvalues Hdistinct k n v Hk Hv Hb)
    as (c & Hc & Hsum & Hrange).
  pose proof (code_sizes_range _ _ _ Hk) as Hn.
  assert (Hp : 0 < 2 ^ (16 - n)) by (apply Z.pow_pos_nonneg; lia).
  exists c. split; [done|]. split; [done|]. split.
  - intros ->. change (take 0 _) with (@nil Z) in Hsum. change (kraft_sum []) with 0 in Hsum. nia.
  - intros n' v' Hk' Hv' Hb'.
    destruct (generateHuffmanTable_entry numCodes values Hkraft Hvalues Hdistinct (S k) n' v'
                Hk' Hv' Hb') as (c' & Hc' & Hsum' & Hrange').
    rewrite Hc'. f_equal.
    pose proof (code_sizes_range _ _ _ Hk') as Hn'.
    assert (Hle : n ≤ n').
    { apply (sizes_sorted (fun n => Z.to_nat (at_ 0 numCodes (n - 1))) 16 1 k (S k));
        [lia|exact Hk|exact Hk']. }
    rewrite (kraft_sum_take_S _ _ _ Hk), <- Hsum in Hsum'.
    rewrite Z.shiftl_mul_pow2 by lia.
    assert (Hp' : 0 < 2 ^ (16 - n')) by (apply Z.pow_pos_nonneg; lia).
    assert (Hsplit : 2 ^ (16 - n) = 2 ^ (n' - n) * 2 ^ (16 - n')).
    { rewrite <- Z.pow_add_r by lia. f_equal. lia. }
    rewrite Hsplit in Hsum'. nia.
Qed.

Lemma generateHuffmanTable_canonical_witness :
  ∃ c, at_ BitCode0 (generateHuffmanTable AcLuminanceCodesPerBitsize AcLuminanceValues) 0
       = mkBitCode c 4 ∧
       0 ≤ c < 2 ^ 4 ∧
       (3%nat = 0%nat → c = 0) ∧
       ∀ n' v', code_sizes AcLuminanceCodesPerBitsize !! 4%nat = Some n' →
         AcLuminanceValues !! 4%nat = Some v' → is_byte v' →
         at_ BitCode0 (generateHuffmanTable AcLuminanceCodesPerBitsize AcLuminanceValues) v'
         = mkBitCode (Z.shiftl (c + 1) (n' - 4)) n'.
Proof.
  apply (generateHuffmanTable_canonical AcLuminanceCodesPerBitsize AcLuminanceValues 3 4 0).
  - vm_compute. discriminate.
  - vm_compute. lia.
  - apply (bool_decide_unpack (NoDup _)). vm_compute. exact I.
  - reflexivity.
  - reflexivity.
  - unfold is_byte. lia.
Defined.

(** X4. The codes of [generateHuffmanTable] are prefix-free: under the same
    conditions, the code of one value is never a prefix of the code of
    another, so a decoder can tell where each code ends. *)
Theorem generateHuffmanTable_prefix_free numCodes values (k1 k2 : nat) n1 n2 v1 v2 :
  kraft_sum (code_sizes numCodes) ≤ 2 ^ 16 →
  (length (code_sizes numCodes) ≤ length values)%nat →
  NoDup (take (length (code_sizes numCodes)) values) →
  code_sizes numCodes !! k1 = Some n1 → values !! k1 = Some v1 → is_byte v1 →
  code_sizes numCodes !! k2 = Some n2 → values !! k2 = Some v2 → is_byte v2 →
  k1 ≠ k2 →
  ¬ is_prefix (at_ BitCode0 (generateHuffmanTable numCodes values) v1)
              (at_ BitCode0 (generateHuffmanTable numCodes values) v2).
Proof.
  intros Hkraft Hvalues Hdistinct Hk1 Hv1 Hb1 Hk2 Hv2 Hb2 Hne [Hle Hsh].
  destruct (generateHuffmanTable_entry numCodes values Hkraft Hvalues Hdistinct k1 n1 v1
              Hk1 Hv1 Hb1) as (c1 & Hc1 & Hs1 & Hr1).
  destruct (generateHuffmanTable_entry numCodes values Hkraft Hvalues Hdistinct k2 n2 v2
              Hk2 Hv2 Hb2) as (c2 & Hc2 & Hs2 & Hr2).
  rewrite Hc1, Hc2 in Hle, Hsh. cbn [numBits code] in Hle, Hsh.
  pose proof (code_sizes_range _ _ _ Hk1) as Hn1.
  pose proof (code_sizes_range _ _ _ Hk2) as Hn2.
  rewrite Z.shiftr_div_pow2 in Hsh by lia.
  assert (Hd : 0 < 2 ^ (n2 - n1)) by (apply Z.pow_pos_nonneg; lia).
  assert (Hp2 : 0 < 2 ^ (16 - n2)) by (apply Z.pow_pos_nonneg; lia).
  assert (Hsplit : 2 ^ (16 - n1) = 2 ^ (n2 - n1) * 2 ^ (16 - n2)).
  { rewrite <- Z.pow_add_r by lia. f_equal. lia. }
  pose proof (Z.div_mod c2 (2 ^ (n2 - n1)) ltac:(lia)) as Hdm.
  pose proof (Z.mod_pos_bound c2 (2 ^ (n2 - n1)) Hd) as Hmb.
  rewrite Hsh in Hdm.
  pose proof (kraft_sum_take_S _ _ _ Hk1) as HS1.
  pose proof (kraft_sum_take_S _ _ _ Hk2) as HS2.
  destruct (decide (k1 < k2)%nat) as [Hlt|Hge].
  - pose proof (kraft_sum_take_le (S k1) k2 (code_sizes numCodes) ltac:(lia)). nia.
  - pose proof (kraft_sum_take_le (S k2) k1 (code_sizes numCodes) ltac:(lia)). nia.
Qed.

Lemma generateHuffmanTable_prefix_free_witness :
  ¬ is_prefix (at_ BitCode0 (generateHuffmanTable AcLuminanceCodesPerBitsize AcLuminanceValues) 1)
              (at_ BitCode0 (generateHuffmanTable AcLuminanceCodesPerBitsize AcLuminanceValues) 240).
Proof.
  apply (generateHuffmanTable_prefix_free AcLuminanceCodesPerBitsize AcLuminanceValues
           0 31 2 11 1 240).
  - vm_compute. discriminate.
  - vm_compute. lia.
  - apply (bool_decide_unpack (NoDup _)). vm_compute. exact I.
  - reflexivity.
  - reflexivity.
  - unfold is_byte. lia.
  - reflexivity.
  - reflexivity.
  - unfold is_byte. lia.
  - lia.
Defined.

(** ** The headers are well-formed marker segments *)

Lemma read_segments_fuel_mono fuel fuel' bs r :
  read_segments_fuel fuel bs = Some r → (fuel ≤ fuel')%nat →
  read_segments_fuel fuel' bs = Some r.
Proof.
  revert fuel' bs r. induction fuel as [|fuel IH]; intros fuel' bs r H Hle; [done|].
  destruct fuel' as [|fuel']; [lia|]. cbn [read_segments_fuel] in *.
  destruct bs as [|ff [|id [|hi [|lo rest]]]]; try done.
  destruct (decide _); [|done].
  destruct (read_segments_fuel fuel _) as [segs|] eqn:E; [|done].
  rewrite (IH fuel' _ segs E) by lia. exact H.
Qed.

Lemma read_segments_fuel_segment fuel id payload rest :
  Z.of_nat (length payload) ≤ 65533 →
  read_segments_fuel (S fuel) (segment id payload ++ rest)
  = segs ← read_segments_fuel fuel rest; Some ((id, payload) :: segs).
Proof.
  intros Hlen. unfold segment. cbn [app read_segments_fuel].
  set (L := 2 + Z.of_nat (length payload)).
  assert (HL : L `div` 256 * 256 + L `mod` 256 = L).
  { pose proof (Z.div_mod L 256). lia. }
  rewrite HL. rewrite decide_True.
  2:{ split; [done|]. rewrite length_app. unfold L. lia. }
  replace (Z.to_nat (L - 2)) with (length payload) by (unfold L; lia).
  by rewrite drop_app_length, take_app_length.
Qed.

Lemma bytes_put_view w v : sink_bytes (output (put_view w v)) = sink_bytes (output w) ++ v.
Proof. unfold put_view, call_output. cbn [output]. apply sink_bytes_snoc. Qed.

Lemma bytes_put_byte w b : sink_bytes (output (put_byte w b)) = sink_bytes (output w) ++ [u8 b].
Proof. unfold put_byte, call_output. cbn [output]. apply sink_bytes_snoc. Qed.

Lemma bytes_addMarker w id len :
  sink_bytes (output (addMarker w id len))
  = sink_bytes (output w)
    ++ [255; u8 id; u8 (Z.shiftr (u16 len) 8); u8 (Z.land (u16 len) 255)].
Proof.
  unfold addMarker, call_output. cbn [output]. rewrite !sink_bytes_snoc.
  by rewrite <- !app_assoc.
Qed.

Lemma header_bytes_layout width height downsample isRGB qL qC comment :
  0 ≤ width < 65536 → 0 ≤ height < 65536 →
  length qL = 64%nat → length qC = 64%nat → Z.of_nat (length comment) ≤ 65533 →
  header_bytes width height downsample isRGB qL qC comment
  = [255; 216]
    ++ concat ((fun s => segment s.1 s.2)
               <$> header_segments width height downsample isRGB qL qC comment).
Proof.
  intros Hw Hh HqL HqC Hc.
  assert (Hu8 : ∀ x, 0 ≤ x < 65536 →
            u8 (Z.shiftr x 8) = x `div` 256 ∧ u8 (Z.land x 255) = x `mod` 256).
  { intros x Hx. unfold u8. rewrite Z.shiftr_div_pow2 by lia. change (2 ^ 8) with 256.
    change 255 with (Z.ones 8). rewrite Z.land_ones by lia. change (2 ^ 8) with 256.
    rewrite Z.mod_mod by lia. split; [|done]. apply Z.mod_small.
    pose proof (Z.div_lt_upper_bound x 256 256). pose proof (Z.div_pos x 256). lia. }
  destruct (Hu8 width Hw) as [Hw1 Hw2]. destruct (Hu8 height Hh) as [Hh1 Hh2].
  assert (Hcom : ∀ w, sink_bytes (output
             (if decide (comment ≠ [])
              then put_view (addMarker w 254 (2 + Z.of_nat (length comment))) comment
              else w))
           = sink_bytes (output w)
             ++ concat ((fun s => segment s.1 s.2)
                        <$> (if decide (comment = []) then [] else [(254, comment)]))).
  { intros w. destruct (decide (comment = [])) as [->|Hne].
    - rewrite decide_False by (intros H; by apply H). simpl. by rewrite app_nil_r.
    - rewrite decide_True by done.
      rewrite bytes_put_view, bytes_addMarker. cbn [fmap list_fmap concat fst snd].
      rewrite app_nil_r. unfold segment.
      destruct (Hu8 (u16 (2 + Z.of_nat (length comment)))) as [H1 H2].
      { unfold u16. apply Z.mod_pos_bound. lia. }
      rewrite H1, H2. unfold u16. rewrite (Z.mod_small (2 + _) 65536) by lia.
      change (u8 254) with 254. by rewrite <- !app_assoc. }
  unfold header_bytes, header_segments.
  rewrite !fmap_app, !concat_app. cbn [fmap list_fmap concat fst snd].
  set (cs := concat (_ <$> (if decide (comment = []) then [] else [(254, comment)]))) in *.
  clearbody cs.
  assert (HLq1 : Z.of_nat (length ([0] ++ qL ++ [])) = 65).
  { rewrite !length_app, HqL. reflexivity. }
  assert (HLq2 : Z.of_nat (length ([0] ++ qL ++ [1] ++ qC)) = 130).
  { rewrite !length_app, HqL, HqC. reflexivity. }
  destruct isRGB, downsample.
  all: unfold write_headers; cbv zeta; cbn [negb].
  all: match goal with
       | |- context [if decide (?c ≠ []) then ?a else ?b] =>
           set (wc := if decide (c ≠ []) then a else b);
           assert (Hwc : sink_bytes (output wc) = HeaderJfif ++ cs);
           [ unfold wc; rewrite Hcom; f_equal;
             unfold put_view, call_output, BitWriter_new, sink_bytes; cbn [output app concat];
             by rewrite app_nil_r
           | clearbody wc ]
       end.
  all: unfold for_range.
  all: repeat match goal with
       | |- context [trip_count ?a ?b] =>
           let n := eval vm_compute in (trip_count a b) in
           change (trip_count a b) with n
       end.
  all: cbn [for_loop].
  all: repeat match goal with
       | |- context [decide (?a = 1)] => destruct (decide (a = 1)); try lia
       end.
  all: repeat first [rewrite bytes_put_view | rewrite bytes_put_byte | rewrite bytes_addMarker].
  all: rewrite Hwc, ?Hw1, ?Hw2, ?Hh1, ?Hh2.
  all: unfold segment.
  all: rewrite ?HLq1, ?HLq2.
  all: rewrite <- ?app_assoc.
  all: reflexivity.
Qed.

Lemma read_segments_written segs :
  Forall (fun s => Z.of_nat (length s.2) ≤ 65533) segs →
  read_segments (concat ((fun s => segment s.1 s.2) <$> segs)) = Some segs.
Proof.
  intros H. unfold read_segments.
  apply (read_segments_fuel_mono (S (length segs))).
  - induction H as [|[id p] segs Hp _ IH]; [done|].
    rewrite fmap_cons. cbn [concat length fst snd].
    rewrite read_segments_fuel_segment by exact Hp. by rewrite IH.
  - apply le_n_S. clear H. induction segs as [|[id p] segs IH]; [done|].
    rewrite fmap_cons. cbn [concat length fst snd]. rewrite length_app.
    unfold segment at 1. cbn [length app]. lia.
Qed.

(** X5. The headers read back. A decoder that walks the marker segments
    after the SOI marker finds exactly the segments the encoder meant to
    write (APP0, COM if there is a comment, DQT, SOF0 with the dimensions in
    big-endian, DHT, SOS) and nothing is left over: every length field
    matches the bytes that follow it. *)
Theorem headers_read_back width height downsample isRGB qL qC comment :
  0 ≤ width < 65536 → 0 ≤ height < 65536 →
  length qL = 64%nat → length qC = 64%nat → Z.of_nat (length comment) ≤ 65533 →
  take 2 (header_bytes width height downsample isRGB qL qC comment) = [255; 216] ∧
  read_segments (drop 2 (header_bytes width height downsample isRGB qL qC comment))
  = Some (header_segments width height downsample isRGB qL qC comment).
Proof.
  intros Hw Hh HqL HqC Hc. rewrite header_bytes_layout by done.
  split; [done|]. change (drop 2 ([255; 216] ++ ?l)) with l.
  apply read_segments_written. unfold header_segments.
  rewrite !Forall_app. split; [|split].
  - repeat constructor. simpl. lia.
  - destruct (decide (comment = [])); repeat constructor. exact Hc.
  - repeat constructor; cbn [snd].
    + rewrite !length_app, HqL. destruct isRGB; rewrite ?length_app, ?HqC; simpl; lia.
    + unfold sof0_payload. rewrite length_app. destruct isRGB; simpl; lia.
    + destruct isRGB; vm_compute; discriminate.
    + destruct isRGB; vm_compute; discriminate.
Qed.

Lemma headers_read_back_witness :
  take 2 (header_bytes 800 600 false true (replicate 64 1) (replicate 64 2) [65; 66])
  = [255; 216] ∧
  read_segments (drop 2 (header_bytes 800 600 false true (replicate 64 1) (replicate 64 2) [65; 66]))
  = Some (header_segments 800 600 false true (replicate 64 1) (replicate 64 2) [65; 66]).
Proof.
  apply (headers_read_back 800 600 false true (replicate 64 1) (replicate 64 2) [65; 66]).
  - lia.
  - lia.
  - reflexivity.
  - reflexivity.
  - simpl. lia.
Defined.

(** ** Quantization tables *)

(** X6. Whatever the default table and the quality, [quant_table] returns
    64 entries and every entry is between 1 and 255: no divisor of the
    quantization is zero. *)
Theorem quant_table_range defaults quality :
  length (quant_table defaults quality) = 64%nat ∧
  Forall (fun q => 1 ≤ q ≤ 255) (quant_table defaults quality).
Proof.
  split; [apply (quant_table_spec defaults quality 0); lia|].
  apply Forall_lookup_2. intros i q Hi.
  assert (Hlt : (i < 64)%nat).
  { apply lookup_lt_Some in Hi. by rewrite (proj1 (quant_table_spec defaults quality 0 ltac:(lia))) in Hi. }
  destruct (quant_table_spec defaults quality (Z.of_nat i) ltac:(lia)) as [_ Hq].
  unfold at_ in Hq at 1. rewrite decide_True, Nat2Z.id, Hi in Hq by lia.
  change (q = u8 (clamp ((at_ 0 defaults (at_ 0 ZigZagInv (Z.of_nat i)) * u8 quality + 50) /i 100)
                1 255)) in Hq.
  subst q. unfold u8, clamp. repeat destruct (decide _); rewrite Z.mod_small; lia.
Qed.
Section Chroma420.
Context `{FO : FloatOps}.
Variables (pixels : list Z) (width height mcuX mcuY : Z).
Hypothesis Hfits : image_fits_int width height true true.
Hypothesis HmcuX : 0 ≤ mcuX < width.
Hypothesis HmcuY : 0 ≤ mcuY.

(** The rows of the image the pass reads start inside the buffer. *)
Lemma chroma_row_range dy :
  0 ≤ dy →
  let row := Z.min (mcuY + 2 * dy) (height - 1) in
  0 ≤ row * width ≤ width * height - width ∧
  (row < height - 1 → row * width ≤ width * height - 2 * width) ∧
  3 * (width * height) + 3 ≤ INT_MAX.
Proof. intros Hdy row. destruct Hfits as (Hw & Hh & Hb). unfold row. nia. Qed.

Lemma set_on_set (D D' : Z → Prop) f l i v :
  set_on D f l → 0 ≤ i < 64 → v = f i → (∀ idx, D' idx → D idx ∨ idx = i) →
  set_on D' f (set_at l i v).
Proof.
  intros [Hlen Hf] Hi Hv HD. split; [by rewrite length_set_at|].
  intros idx Hidx. destruct (decide (idx = i)) as [->|Hne].
  - rewrite at_set_at_eq by lia. done.
  - rewrite at_set_at_ne by done. destruct (HD idx Hidx); [by apply Hf|done].
Qed.

Lemma chroma_sample_inv dy k s :
  0 ≤ dy < 8 → 0 ≤ k < 8 →
  chroma_inv pixels width height mcuX mcuY dy k s →
  chroma_inv pixels width height mcuX mcuY dy (k + 1)
    (chroma_sample pixels width (width - 1) (Z.min (mcuY + 2 * dy) (height - 1))
       (if decide (Z.min (mcuY + 2 * dy) (height - 1) < height - 1) then 3 * width else 0)
       dy k s).
Proof.
  intros Hdy Hk (Hcol & Hpos & Hstep & HCb & HCr).
  destruct (idx_div_mod dy k Hk) as [Hdiv Hmod].
  destruct (chroma_row_range dy ltac:(lia)) as (Hrw & Hrw2 & Hmax).
  set (row := Z.min (mcuY + 2 * dy) (height - 1)) in *.
  set (rowStep := if decide (row < height - 1) then 3 * width else 0).
  assert (Hfit : 0 ≤ c_pixelPos s ∧ c_pixelPos s + c_columnStep s + rowStep + 2 ≤ INT_MAX - 4
                 ∧ 0 ≤ c_columnStep s ∧ 0 ≤ rowStep
                 ∧ 0 < (row + 1) * width ≤ width * height).
  { rewrite Hpos, Hstep. unfold rowStep.
    replace ((row + 1) * width) with (row * width + width) by lia.
    repeat case_decide; lia. }
  assert (Hp : ∀ c, c_pixelPos s + c
                = 3 * sample_pos width height (mcuX + 2 * k) (mcuY + 2 * dy) + c).
  { intros c. rewrite Hpos. unfold sample_pos. fold row. lia. }
  assert (Hr : ∀ c, c_pixelPos s + c_columnStep s + c
                = 3 * sample_pos width height (mcuX + 2 * k + 1) (mcuY + 2 * dy) + c).
  { intros c. rewrite Hpos, Hstep. unfold sample_pos. fold row.
    destruct (decide (mcuX + 2 * k < width - 1)).
    - rewrite !Z.min_l by lia. lia.
    - rewrite !Z.min_r by lia. lia. }
  assert (Hrow : 3 * (Z.min (mcuY + 2 * dy + 1) (height - 1) * width)
                 = 3 * (row * width) + rowStep).
  { unfold rowStep, row. destruct (decide (mcuY + 2 * dy < height - 1)) as [Hlt|Hge].
    - rewrite (Z.min_l (mcuY + 2 * dy + 1)), (Z.min_l (mcuY + 2 * dy)) by lia.
      rewrite decide_True by lia. lia.
    - rewrite (Z.min_r (mcuY + 2 * dy + 1)), (Z.min_r (mcuY + 2 * dy)) by lia.
      rewrite decide_False by lia. lia. }
  assert (Hd : ∀ c, c_pixelPos s + rowStep + c
                = 3 * sample_pos width height (mcuX + 2 * k) (mcuY + 2 * dy + 1) + c).
  { intros c. rewrite Hpos. unfold sample_pos. lia. }
  assert (Hdr : ∀ c, c_pixelPos s + c_columnStep s + rowStep + c
                = 3 * sample_pos width height (mcuX + 2 * k + 1) (mcuY + 2 * dy + 1) + c).
  { intros c. rewrite Hpos, Hstep. unfold sample_pos.
    destruct (decide (mcuX + 2 * k < width - 1)).
    - rewrite !Z.min_l by lia. lia.
    - rewrite !Z.min_r by lia. lia. }
  assert (Hsum : ∀ c,
     pixel pixels (c_pixelPos s + c) + pixel pixels (c_pixelPos s + c_columnStep s + c)
     + pixel pixels (c_pixelPos s + rowStep + c)
     + pixel pixels (c_pixelPos s + c_columnStep s + rowStep + c)
     = area_sum pixels width height (mcuX + 2 * k) (mcuY + 2 * dy) c).
  { intros c. unfold area_sum. by rewrite Hp, Hr, Hd, Hdr. }
  pose proof (Hsum 0) as H0. rewrite !Z.add_0_r in H0.
  pose proof (Hsum 1) as H1. pose proof (Hsum 2) as H2.
  unfold chroma_sample. cbv zeta. fold rowStep.
  s32_fits ltac:(unfold INT_MAX in *; lia).
  rewrite H0. rewrite H1, H2.
  fold (cb_area pixels width height (mcuX + 2 * k) (mcuY + 2 * dy)).
  fold (cr_area pixels width height (mcuX + 2 * k) (mcuY + 2 * dy)).
  set (D' := fun idx => dy * 8 ≤ idx < dy * 8 + (k + 1) ∨ (dy + 1) * 8 ≤ idx < 64).
  assert (HCb' : set_on D' (fun idx => cb_area pixels width height
                    (mcuX + 2 * (idx `mod` 8)) (mcuY + 2 * (idx `div` 8)))
                  (set_at (c_Cb s) (dy * 8 + k)
                     (cb_area pixels width height (mcuX + 2 * k) (mcuY + 2 * dy)))).
  { eapply set_on_set; [exact HCb|lia| |].
    - cbv beta. by rewrite Hdiv, Hmod.
    - unfold D'. intros idx. lia. }
  assert (HCr' : set_on D' (fun idx => cr_area pixels width height
                    (mcuX + 2 * (idx `mod` 8)) (mcuY + 2 * (idx `div` 8)))
                  (set_at (c_Cr s) (dy * 8 + k)
                     (cr_area pixels width height (mcuX + 2 * k) (mcuY + 2 * dy)))).
  { eapply set_on_set; [exact HCr|lia| |].
    - cbv beta. by rewrite Hdiv, Hmod.
    - unfold D'. intros idx. lia. }
  unfold chroma_inv. cbv zeta. fold row. fold D'.
  destruct (decide (width - 1 ≤ c_column s + 2)) as [Hge|Hlt]; cbn [c_column c_pixelPos c_columnStep c_Cb c_Cr].
  - split; [lia|]. split; [rewrite Z.min_r by lia; lia|]. split; [by rewrite decide_False by lia|].
    done.
  - split; [lia|]. split; [|split; [|done]].
    + rewrite Hpos, !Z.min_l by lia. lia.
    + rewrite Hstep, !decide_True by lia. done.
Qed.

Lemma downsample_chroma_rows (k : nat) (b : Blocks) :
  (k ≤ 8)%nat → length (Cb b) = 64%nat → length (Cr b) = 64%nat →
  let r := for_loop k 7 (-1)
      (fun deltaY '(Cb0, Cr0) =>
         let row := Z.min (mcuY + 2 * deltaY) (height - 1) in
         let column := mcuX in
         let pixelPos := s32 (s32 (s32 (row * width) + column) * 3) in
         let rowStep := if decide (row < height - 1) then s32 (3 * width) else 0 in
         let columnStep := if decide (column < width - 1) then 3 else 0 in
         let s := for_range 0 8 1
                    (chroma_sample pixels width (width - 1) row rowStep deltaY)
                    (mkChroma pixelPos column columnStep Cb0 Cr0) in
         (c_Cb s, c_Cr s))
      (Cb b, Cr b) in
  set_on (fun idx => (8 - Z.of_nat k) * 8 ≤ idx < 64)
    (fun idx => cb_area pixels width height (mcuX + 2 * (idx `mod` 8)) (mcuY + 2 * (idx `div` 8)))
    r.1 ∧
  set_on (fun idx => (8 - Z.of_nat k) * 8 ≤ idx < 64)
    (fun idx => cr_area pixels width height (mcuX + 2 * (idx `mod` 8)) (mcuY + 2 * (idx `div` 8)))
    r.2.
Proof.
  intros Hk HlCb HlCr. cbv zeta.
  apply (for_loop_ind (fun (k : nat) (r : list float * list float) =>
    (k ≤ 8)%nat →
    set_on (fun idx => (8 - Z.of_nat k) * 8 ≤ idx < 64)
      (fun idx => cb_area pixels width height (mcuX + 2 * (idx `mod` 8)) (mcuY + 2 * (idx `div` 8)))
      r.1 ∧
    set_on (fun idx => (8 - Z.of_nat k) * 8 ≤ idx < 64)
      (fun idx => cr_area pixels width height (mcuX + 2 * (idx `mod` 8)) (mcuY + 2 * (idx `div` 8)))
      r.2)); [| |exact Hk].
  - intros _. split; (split; [done|]); intros idx; lia.
  - intros j [Cb0 Cr0] Hj IH _. destruct (IH ltac:(lia)) as [HCb HCr]. cbn [fst snd] in HCb, HCr.
    set (dy := 7 + Z.of_nat j * -1).
    assert (Hdy : 0 ≤ dy < 8) by (unfold dy; lia).
    unfold for_range. change (trip_count (8 - 0) 1) with 8%nat.
    destruct (chroma_row_range dy ltac:(lia)) as (Hrw & Hrw2 & Hmax).
    set (row := Z.min (mcuY + 2 * dy) (height - 1)) in *.
    assert (Hw3 : 0 < 3 * width ≤ INT_MAX) by (destruct Hfits as (? & ? & _); nia).
    s32_fits ltac:(unfold INT_MAX in *; lia).
    set (rowStep := if decide (row < height - 1) then 3 * width else 0).
    assert (Hinner : chroma_inv pixels width height mcuX mcuY dy (Z.of_nat 8)
              (for_loop 8 0 1 (chroma_sample pixels width (width - 1) row rowStep dy)
                 (mkChroma ((row * width + mcuX) * 3) mcuX
                    (if decide (mcuX < width - 1) then 3 else 0) Cb0 Cr0))).
    { apply (for_loop_ind (fun (i : nat) s =>
               chroma_inv pixels width height mcuX mcuY dy (Z.of_nat i) s)).
      - unfold chroma_inv. cbv zeta. cbn [c_column c_pixelPos c_columnStep c_Cb c_Cr].
        fold row. split; [lia|]. split; [rewrite Z.min_l by lia; lia|].
        split; [by rewrite Z.mul_0_r, Z.add_0_r|].
        destruct HCb as [H1 H2], HCr as [H3 H4].
        split; (split; [done|]); intros idx Hidx; [apply H2|apply H4]; unfold dy in *; lia.
      - intros i s Hi Hs. replace (Z.of_nat (S i)) with (Z.of_nat i + 1) by lia.
        replace (0 + Z.of_nat i * 1) with (Z.of_nat i) by lia.
        apply chroma_sample_inv; [done|lia|done]. }
    set (sf := for_loop 8 0 1 _ _) in *. clearbody sf.
    destruct Hinner as (_ & _ & _ & [H1 H2] & [H3 H4]). cbn [fst snd].
    split; (split; [done|]); intros idx Hidx; [apply H2|apply H4]; unfold dy; lia.
Qed.
End Chroma420.

(** X7. The 4:2:0 pass averages 2x2 areas. In an image whose positions fit
    in an [int], after [downsample_chroma] on the MCU at [(mcuX, mcuY)], entry [(dy, dx)] of [Cb] (of [Cr]) is the
    conversion of the sums of red, green and blue over the four pixels at
    columns [mcuX + 2 dx], [mcuX + 2 dx + 1] and rows [mcuY + 2 dy],
    [mcuY + 2 dy + 1], divided by 4, where columns and rows beyond the
    border stand for the last column and row; [Y] is left as it was. *)
Theorem downsample_chroma_averages `{FO : FloatOps} pixels width height mcuX mcuY
    (b : Blocks) dy dx :
  image_fits_int width height true true →
  0 ≤ mcuX < width → 0 ≤ mcuY < height →
  length (Cb b) = 64%nat → length (Cr b) = 64%nat →
  0 ≤ dy < 8 → 0 ≤ dx < 8 →
  let b' := downsample_chroma pixels width height mcuX mcuY b in
  Y b' = Y b ∧
  at_ f0 (Cb b') (dy * 8 + dx) = cb_area pixels width height (mcuX + 2 * dx) (mcuY + 2 * dy) ∧
  at_ f0 (Cr b') (dy * 8 + dx) = cr_area pixels width height (mcuX + 2 * dx) (mcuY + 2 * dy).
Proof.
  intros Hfits HmcuX HmcuY HlCb HlCr Hdy Hdx. cbv zeta. unfold downsample_chroma. cbv zeta.
  pose proof (downsample_chroma_rows pixels width height mcuX mcuY Hfits HmcuX
                (proj1 HmcuY) 8 b ltac:(lia) HlCb HlCr) as Hrows.
  cbv zeta in Hrows.
  set (r := for_loop 8 7 (-1) _ (Cb b, Cr b)) in *. clearbody r.
  destruct r as [Cb' Cr']. cbn [fst snd Y Cb Cr] in *.
  destruct Hrows as [[_ HCb] [_ HCr]].
  destruct (idx_div_mod dy dx Hdx) as [Hdiv Hmod].
  split; [done|]. split.
  - rewrite HCb by lia. by rewrite Hdiv, Hmod.
  - rewrite HCr by lia. by rewrite Hdiv, Hmod.
Qed.

Lemma downsample_chroma_averages_witness :
  let b := uninitialised (FO := IEEE.ops) (fun _ => S754_zero false) in
  let pixels := [10; 20; 30; 40; 50; 60; 70; 80; 90; 100; 110; 120; 130; 140; 150; 160; 170; 180] in
  let b' := downsample_chroma pixels 3 2 0 0 b in
  Y b' = Y b ∧
  at_ (f0 (FO := IEEE.ops)) (Cb b') (1 * 8 + 1) = cb_area pixels 3 2 (0 + 2 * 1) (0 + 2 * 1) ∧
  at_ (f0 (FO := IEEE.ops)) (Cr b') (1 * 8 + 1) = cr_area pixels 3 2 (0 + 2 * 1) (0 + 2 * 1).
Proof.
  apply (downsample_chroma_averages (FO := IEEE.ops)
           [10; 20; 30; 40; 50; 60; 70; 80; 90; 100; 110; 120; 130; 140; 150; 160; 170; 180]
           3 2 0 0 (uninitialised (FO := IEEE.ops) (fun _ => S754_zero false)) 1 1);
    [unfold image_fits_int, INT_MAX; lia | lia | lia | reflexivity | reflexivity | lia | lia].
Defined.
(** ** The scan, block by block *)

Lemma foldl_ext_eq {A B} (f g : A → B → A) (a : A) (l : list B) :
  (∀ a b, f a b = g a b) → foldl f a l = foldl g a l.
Proof. intros H. revert a. induction l as [|b l IH]; intros a; simpl; [done|]. by rewrite H, IH. Qed.

Lemma for_loop_foldl {St : Type} (n : nat) i step (body : Z → St → St) (s : St) :
  for_loop n i step body s
  = foldl (fun s k => body (i + k * step) s) s (seqZ 0 (Z.of_nat n)).
Proof.
  revert i s. induction n as [|n IH]; intros i s; [done|].
  cbn [for_loop]. rewrite IH.
  rewrite (seqZ_cons 0 (Z.of_nat (S n))) by lia. cbn [foldl].
  replace (Z.pred (Z.of_nat (S n))) with (Z.of_nat n) by lia.
  replace (i + 0 * step) with i by lia.
  change (Z.succ 0) with (1 + 0). rewrite <- (fmap_add_seqZ 1 0), foldl_fmap.
  apply foldl_ext_eq. intros s' k. f_equal. lia.
Qed.

Lemma for_range_origins {St : Type} extent mcuSize (body : Z → St → St) (s : St) :
  0 < mcuSize →
  for_range 0 extent mcuSize body s = foldl (fun s x => body x s) s (mcu_origins extent mcuSize).
Proof.
  intros Hsz. unfold for_range, mcu_origins, trip_count.
  rewrite for_loop_foldl, foldl_fmap, Z.sub_0_r.
  set (m := (extent + mcuSize - 1) `div` mcuSize).
  destruct (decide (0 ≤ m)).
  - rewrite Z2Nat.id by done. apply foldl_ext_eq. intros s' k. f_equal.
  - replace (Z.to_nat m) with 0%nat by lia. rewrite (seqZ_nil 0 m) by lia. done.
Qed.

Lemma mcu_origins_range extent mcuSize x :
  0 < mcuSize → x ∈ mcu_origins extent mcuSize → 0 ≤ x < extent.
Proof.
  intros Hsz Hx. unfold mcu_origins in Hx. apply list_elem_of_fmap in Hx as (i & -> & Hi).
  apply elem_of_seqZ in Hi.
  pose proof (Z.mul_div_le (extent + mcuSize - 1) mcuSize Hsz). nia.
Qed.

Section ScanProofs.
Context `{FO : FloatOps}.
Variables (pixels : list Z) (width height : Z) (scaledL scaledC : list float).

Lemma encode_Y_block_scan downsample isRGB mcuX mcuY blockX blockY ms ss :
  image_fits_int width height downsample isRGB →
  0 ≤ mcuX + blockX → 0 ≤ mcuY + blockY →
  scan_rel ms ss →
  ∃ ms',
    encode_Y_block pixels width height downsample isRGB scaledL mcuX mcuY blockX blockY ms
      = Some ms' ∧
    scan_rel ms' (scan_Y pixels width height isRGB scaledL (mcuX + blockX) (mcuY + blockY) ss) ∧
    (isRGB && negb downsample = true →
       Cb (blocks ms') = block_of (cb_sample pixels) width height (mcuX + blockX) (mcuY + blockY) ∧
       Cr (blocks ms') = block_of (cr_sample pixels) width height (mcuX + blockX) (mcuY + blockY)).
Proof.
  intros Hfits Hx Hy (Hw & HY & HCb & HCr & (L1 & L2 & L3)).
  unfold encode_Y_block.
  pose proof (fill_block_filled_fits pixels width height downsample isRGB Hfits
                mcuX mcuY blockX blockY (blocks ms) Hx Hy L1 L2 L3) as (F1 & F2 & F3).
  cbv zeta in F1, F2, F3.
  set (b := fill_block pixels width height downsample isRGB mcuX mcuY blockX blockY (blocks ms)) in *.
  clearbody b.
  rewrite encode_block_eq, bind_Some.
  eexists. split; [reflexivity|].
  assert (HYb : Y b = block_of (luma_sample pixels isRGB) width height
                        (mcuX + blockX) (mcuY + blockY)).
  { unfold block_of. apply (filled_all f0 _ _ _ F1 L1). }
  unfold scan_rel, scan_Y, code_block, lengths64.
  cbn [writer lastYDC lastCbDC lastCrDC blocks Y Cb Cr s_writer s_Y s_Cb s_Cr].
  rewrite transform_block_length, HYb, Hw, HY.
  split.
  { split; [done|]. split; [done|]. split; [done|]. split; [done|].
    split; [unfold block_of; by rewrite length_fmap, length_seqZ|].
    unfold chroma_filled in F2, F3. destruct (isRGB && negb downsample).
    - by rewrite (proj1 F2), (proj1 F3).
    - by rewrite F2, F3. }
  intros Hmode. unfold chroma_filled in F2, F3. rewrite Hmode in F2, F3.
  unfold block_of. by rewrite (filled_all f0 _ _ _ F2 L2), (filled_all f0 _ _ _ F3 L3).
Qed.

Lemma downsample_chroma_blocks mcuX mcuY (b : Blocks) :
  image_fits_int width height true true →
  0 ≤ mcuX < width → 0 ≤ mcuY → lengths64 b →
  let b' := downsample_chroma pixels width height mcuX mcuY b in
  Y b' = Y b ∧
  Cb b' = area_block (cb_area pixels width height) mcuX mcuY ∧
  Cr b' = area_block (cr_area pixels width height) mcuX mcuY.
Proof.
  intros Hfits HmcuX HmcuY (L1 & L2 & L3). cbv zeta. unfold downsample_chroma. cbv zeta.
  pose proof (downsample_chroma_rows pixels width height mcuX mcuY Hfits HmcuX HmcuY 8 b
                ltac:(lia) L2 L3) as Hrows.
  cbv zeta in Hrows.
  set (r := for_loop 8 7 (-1) _ (Cb b, Cr b)) in *. clearbody r.
  destruct r as [Cb' Cr']. cbn [fst snd Y Cb Cr] in *.
  destruct Hrows as [[HlCb HCb] [HlCr HCr]].
  split; [done|]. unfold area_block. split.
  - apply (list_eq_at f0); [by rewrite length_fmap, length_seqZ, HlCb|].
    intros i Hi. rewrite HCb by lia. unfold at_ at 1. rewrite decide_True by lia.
    rewrite list_lookup_fmap, lookup_seqZ_lt by lia. cbn [fmap option_fmap option_map default].
    rewrite Z2Nat.id, Z.add_0_l by lia. done.
  - apply (list_eq_at f0); [by rewrite length_fmap, length_seqZ, HlCr|].
    intros i Hi. rewrite HCr by lia. unfold at_ at 1. rewrite decide_True by lia.
    rewrite list_lookup_fmap, lookup_seqZ_lt by lia. cbn [fmap option_fmap option_map default].
    rewrite Z2Nat.id, Z.add_0_l by lia. done.
Qed.

Lemma encode_chroma_scan (b : Blocks) w lastY lastCb lastCr cb cr :
  lengths64 b → Cb b = cb → Cr b = cr →
  ∃ ms',
    ('(w1, Cb', DCb) ← encode_block false w (Cb b) scaledC lastCb;
     '(w2, Cr', DCr) ← encode_block false w1 (Cr b) scaledC lastCr;
     Some (mkMcu w2 lastY DCb DCr (mkBlocks (Y b) Cb' Cr'))) = Some ms' ∧
    scan_rel ms'
      (let '(w1, DCb) := code_block false scaledC w lastCb cb in
       let '(w2, DCr) := code_block false scaledC w1 lastCr cr in
       mkScan w2 lastY DCb DCr).
Proof.
  intros (L1 & L2 & L3) <- <-. rewrite encode_block_eq, bind_Some.
  rewrite encode_block_eq, bind_Some. eexists. split; [reflexivity|].
  unfold scan_rel, code_block, lengths64.
  cbn [writer lastYDC lastCbDC lastCrDC blocks Y Cb Cr s_writer s_Y s_Cb s_Cr].
  by rewrite !transform_block_length.
Qed.

Lemma encode_mcu_scan downsample isRGB mcuY mcuX ms ss :
  image_fits_int width height downsample isRGB →
  0 ≤ mcuX < width → 0 ≤ mcuY → scan_rel ms ss →
  ∃ ms',
    encode_mcu pixels width height downsample isRGB scaledL scaledC mcuY mcuX ms = Some ms' ∧
    scan_rel ms' (scan_mcu pixels width height downsample isRGB scaledL scaledC mcuY mcuX ss).
Proof.
  intros Hfits HmcuX HmcuY Hrel. unfold encode_mcu, scan_mcu. cbv zeta.
  destruct downsample.
  - unfold for_range. change (trip_count (8 * 2 - 0) 8) with 2%nat. cbn [for_loop foldl].
    change (0 + 8) with 8.
    destruct (encode_Y_block_scan true isRGB mcuX mcuY 0 0 ms ss Hfits ltac:(lia) ltac:(lia) Hrel)
      as (m1 & E1 & R1 & _).
    destruct (encode_Y_block_scan true isRGB mcuX mcuY 8 0 m1 _ Hfits ltac:(lia) ltac:(lia) R1)
      as (m2 & E2 & R2 & _).
    destruct (encode_Y_block_scan true isRGB mcuX mcuY 0 8 m2 _ Hfits ltac:(lia) ltac:(lia) R2)
      as (m3 & E3 & R3 & _).
    destruct (encode_Y_block_scan true isRGB mcuX mcuY 8 8 m3 _ Hfits ltac:(lia) ltac:(lia) R3)
      as (m4 & E4 & R4 & _).
    rewrite bind_Some, E1, bind_Some, E2, bind_Some, E3, bind_Some, E4, bind_Some.
    set (s4 := scan_Y _ _ _ _ _ (mcuX + 8) (mcuY + 8) _) in *. clearbody s4.
    clear E1 E2 E3 E4 R1 R2 R3 m1 m2 m3 Hrel.
    destruct isRGB; cbn [negb].
    + destruct R4 as (Hw & HY & HCb & HCr & HL).
      destruct (downsample_chroma_blocks mcuX mcuY (blocks m4) Hfits HmcuX HmcuY HL)
        as (HY' & HCb' & HCr').
      cbv zeta in HY', HCb', HCr'.
      set (b := downsample_chroma pixels width height mcuX mcuY (blocks m4)) in *.
      assert (HLb : lengths64 b).
      { destruct HL as (L1 & L2 & L3). unfold lengths64, area_block in *.
        rewrite HY', HCb', HCr', !length_fmap, !length_seqZ. done. }
      clearbody b.
      rewrite Hw, HY, HCb, HCr.
      apply (encode_chroma_scan b _ _ _ _ _ _ HLb HCb' HCr').
    + eexists. split; [reflexivity|exact R4].
  - unfold for_range. change (trip_count (8 * 1 - 0) 8) with 1%nat. cbn [for_loop foldl].
    destruct (encode_Y_block_scan false isRGB mcuX mcuY 0 0 ms ss Hfits ltac:(lia) ltac:(lia) Hrel)
      as (m1 & E1 & R1 & Hc).
    rewrite bind_Some, E1, bind_Some.
    set (s1 := scan_Y _ _ _ _ _ (mcuX + 0) (mcuY + 0) _) in *. clearbody s1.
    clear E1 Hrel.
    destruct isRGB; cbn [negb].
    + destruct R1 as (Hw & HY & HCb & HCr & HL).
      destruct (Hc eq_refl) as [HCb' HCr']. rewrite !Z.add_0_r in HCb', HCr'.
      rewrite Hw, HY, HCb, HCr.
      apply (encode_chroma_scan (blocks m1) _ _ _ _ _ _ HL HCb' HCr').
    + eexists. split; [reflexivity|exact R1].
Qed.

Lemma encode_mcus_scan downsample isRGB ms w :
  image_fits_int width height downsample isRGB →
  scan_rel ms (mkScan w 0 0 0) →
  ∃ ms',
    encode_mcus pixels width height downsample isRGB scaledL scaledC ms = Some ms' ∧
    scan_rel ms' (scan pixels width height downsample isRGB scaledL scaledC w).
Proof.
  intros Hfits Hrel. unfold encode_mcus, scan. cbv zeta.
  set (mcuSize := 8 * (if downsample then 2 else 1)).
  assert (Hsz : 0 < mcuSize) by (unfold mcuSize; destruct downsample; lia).
  replace (if downsample then 16 else 8) with mcuSize by (unfold mcuSize; by destruct downsample).
  clearbody mcuSize.
  rewrite for_range_origins by done.
  assert (Hrows : ∀ y, y ∈ mcu_origins height mcuSize → 0 ≤ y).
  { intros y Hy. by apply (mcu_origins_range height mcuSize y Hsz) in Hy as [? _]. }
  set (rows := mcu_origins height mcuSize) in *. clearbody rows.
  set (ss := mkScan w 0 0 0) in *. clearbody ss.
  revert ms ss Hrel. induction rows as [|mcuY rows IH]; intros ms ss Hrel.
  { exists ms. done. }
  cbn [foldl]. rewrite for_range_origins by done.
  assert (HmcuY : 0 ≤ mcuY) by (apply Hrows; by left).
  assert (Hrow : ∀ cols ms ss, scan_rel ms ss → (∀ x, x ∈ cols → 0 ≤ x < width) →
    ∃ ms',
      foldl (fun s x => s ≫= encode_mcu pixels width height downsample isRGB
                           scaledL scaledC mcuY x) (Some ms) cols = Some ms' ∧
      scan_rel ms'
        (foldl (fun s mcuX => scan_mcu pixels width height downsample isRGB
                                scaledL scaledC mcuY mcuX s) ss cols)).
  { clear - Hfits HmcuY. induction cols as [|x cols IHc]; intros ms ss Hrel Hcols.
    - exists ms. done.
    - cbn [foldl]. rewrite bind_Some.
      destruct (encode_mcu_scan downsample isRGB mcuY x ms ss) as (m1 & E1 & R1);
        [done|apply Hcols; by left|done|done|].
      rewrite E1. apply IHc; [done|]. intros y Hy. apply Hcols. by right. }
  destruct (Hrow (mcu_origins width mcuSize) ms ss Hrel) as (m1 & E1 & R1).
  { intros x Hx. by apply (mcu_origins_range width mcuSize x Hsz) in Hx. }
  rewrite E1. apply IH; [|done]. intros y Hy. apply Hrows. by right.
Qed.

End ScanProofs.

(** X8. The encoder is the scan, block by block. For an image whose
    positions fit in an [int], [writeJpegIntern] writes
    the headers, then the MCUs row by row and from left to right: for each
    MCU its luminance blocks (four in 4:2:0 mode), each made of the
    luminance samples of its pixels with the border replicated, then for RGB
    pixels the Cb and the Cr block (the samples of the pixels in 4:4:4 mode,
    the 2x2 averages in 4:2:0 mode), every block transformed and coded
    against the previous DC of its component; then it flushes the bits and
    writes the EOI marker. Nothing of what the arrays held before, and
    nothing a previous block left in them, reaches the output. *)
Theorem writeJpegIntern_is_scan `{FO : FloatOps} bitWriter pixels width height downsample isRGB
    quantLuminance quantChrominance scaledL scaledC comment stack :
  image_fits_int width height downsample isRGB →
  writeJpegIntern bitWriter pixels width height downsample isRGB quantLuminance
    quantChrominance scaledL scaledC comment stack
  = Some (true,
          put_byte
            (put_byte
               (flush
                  (s_writer
                     (scan pixels width height downsample isRGB scaledL scaledC
                        (write_headers bitWriter width height downsample isRGB
                           quantLuminance quantChrominance comment))))
               255)
            217).
Proof.
  intros Hfits. unfold writeJpegIntern. cbv zeta.
  set (w := write_headers _ _ _ _ _ _ _ _). clearbody w.
  destruct (encode_mcus_scan pixels width height scaledL scaledC downsample isRGB
              (mkMcu w 0 0 0 (uninitialised stack)) w Hfits) as (ms & E & Hw & _).
  { split; [done|]. split; [done|]. split; [done|]. split; [done|].
    apply lengths64_uninitialised. }
  rewrite E, bind_Some. by rewrite Hw.
Qed.

Lemma writeJpegIntern_is_scan_witness :
  let pixels := [10; 20; 30; 40; 50; 60; 70; 80; 90; 100; 110; 120; 130; 140; 150; 160; 170; 180] in
  let qL := quant_table DefaultQuantLuminance_A 20 in
  let qC := quant_table DefaultQuantChrominance_A 20 in
  writeJpegIntern (FO := IEEE.ops) (BitWriter_new []) pixels 3 2 true true qL qC
    (scaled_luminance qL) (scaled_chrominance qC) [] (fun _ => S754_zero false)
  = Some (true,
          put_byte
            (put_byte
               (flush
                  (s_writer
                     (scan (FO := IEEE.ops) pixels 3 2 true true
                        (scaled_luminance qL) (scaled_chrominance qC)
                        (write_headers (BitWriter_new []) 3 2 true true qL qC []))))
               255)
            217).
Proof.
  apply (writeJpegIntern_is_scan (FO := IEEE.ops) (BitWriter_new [])
           [10; 20; 30; 40; 50; 60; 70; 80; 90; 100; 110; 120; 130; 140; 150; 160; 170; 180]
           3 2 true true (quant_table DefaultQuantLuminance_A 20)
           (quant_table DefaultQuantChrominance_A 20)
           (scaled_luminance (quant_table DefaultQuantLuminance_A 20))
           (scaled_chrominance (quant_table DefaultQuantChrominance_A 20)) []
           (fun _ => S754_zero false)).
  unfold image_fits_int, INT_MAX. lia.
Defined.

(** ** Every code of the block encoder is well-formed *)

Lemma well_formedb_spec c : well_formedb c = true → well_formed c.
Proof.
  unfold well_formedb, well_formed. intros H. apply andb_true_iff in H as [H1 H2].
  apply bool_decide_eq_true in H1. apply bool_decide_eq_true in H2. done.
Qed.

Lemma at_well_formed (l : list BitCode) i :
  forallb well_formedb l = true → well_formed (at_ BitCode0 l i).
Proof.
  intros H. unfold at_. destruct (decide (0 ≤ i)); [|split; simpl; lia].
  destruct (l !! Z.to_nat i) as [c|] eqn:E; [|split; simpl; lia].
  cbn [default]. apply well_formedb_spec.
  rewrite forallb_forall in H. apply H. apply list_elem_of_In.
  by eapply list_elem_of_lookup_2.
Qed.

Lemma huffman_tables_well_formed :
  forallb well_formedb ht_l_dc = true ∧ forallb well_formedb ht_l_ac = true ∧
  forallb well_formedb ht_c_dc = true ∧ forallb well_formedb ht_c_ac = true.
Proof. repeat split; vm_compute; reflexivity. Qed.

Lemma codewords_well_formed : forallb well_formedb codewordsArray = true.
Proof. vm_compute. reflexivity. Qed.

Lemma bitcode_of_well_formed luminance s : well_formed (bitcode_of luminance s).
Proof.
  destruct huffman_tables_well_formed as (H1 & H2 & H3 & H4).
  unfold bitcode_of, huffman. destruct luminance, s.
  - exact (at_well_formed ht_l_dc symbol H1).
  - exact (at_well_formed ht_l_ac symbol H2).
  - exact (at_well_formed codewordsArray (CodeWordLimit + v) codewords_well_formed).
  - exact (at_well_formed ht_c_dc symbol H3).
  - exact (at_well_formed ht_c_ac symbol H4).
  - exact (at_well_formed codewordsArray (CodeWordLimit + v) codewords_well_formed).
Qed.

(** X9. A block is written bit by bit. For every block, whatever the
    samples and the previous DC, [encode_block] returns, and the bytes it
    sends are the stuffing of raw bytes which, with the bits left pending,
    are the bits pending before followed by the codes of the block's
    symbols: every code the encoder takes from its tables fits its number of
    bits, and fewer than 8 bits stay pending for the next block. *)
Theorem encode_block_bit_exact `{FO : FloatOps} luminance w block64 scaled lastDC :
  0 ≤ buffer_numBits w < 8 →
  ∃ w' raw,
    encode_block luminance w block64 scaled lastDC
      = Some (w', transform_block block64 scaled, s16 (block_DC (transform_block block64 scaled))) ∧
    sent_since w w' (stuff raw) ∧
    Forall is_byte raw ∧
    0 ≤ buffer_numBits w' < 8 ∧
    let cs := bitcode_of luminance <$> coded_symbols (transform_block block64 scaled) lastDC in
    8 * Z.of_nat (length raw) + buffer_numBits w' = buffer_numBits w + bits_len cs ∧
    be_value raw * 2 ^ buffer_numBits w' + pending w' = pending w * 2 ^ bits_len cs + bits_value cs.
Proof.
  intros Hnb. rewrite encode_block_eq.
  set (cs := bitcode_of luminance <$> coded_symbols (transform_block block64 scaled) lastDC).
  assert (Hcs : Forall well_formed cs).
  { unfold cs. apply Forall_fmap, Forall_forall. intros s _. apply bitcode_of_well_formed. }
  clearbody cs.
  destruct (put_bitcodes_bits w cs Hnb Hcs) as (raw & Hs & Hraw & Hnb' & Hlen & Hval).
  exists (foldl put_bitcode w cs), raw. done.
Qed.

Lemma encode_block_bit_exact_witness :
  ∃ w' raw,
    encode_block (FO := IEEE.ops) true (BitWriter_new []) (replicate 64 (f0 (FO := IEEE.ops)))
      (replicate 64 (f0 (FO := IEEE.ops))) 0
      = Some (w', transform_block (replicate 64 (f0 (FO := IEEE.ops))) (replicate 64 (f0 (FO := IEEE.ops))),
              s16 (block_DC (transform_block (replicate 64 (f0 (FO := IEEE.ops)))
                               (replicate 64 (f0 (FO := IEEE.ops)))))) ∧
    sent_since (BitWriter_new []) w' (stuff raw) ∧
    Forall is_byte raw ∧
    0 ≤ buffer_numBits w' < 8 ∧
    let cs := bitcode_of true <$> coded_symbols
                (transform_block (replicate 64 (f0 (FO := IEEE.ops))) (replicate 64 (f0 (FO := IEEE.ops)))) 0 in
    8 * Z.of_nat (length raw) + buffer_numBits w' = buffer_numBits (BitWriter_new []) + bits_len cs ∧
    be_value raw * 2 ^ buffer_numBits w' + pending w'
      = pending (BitWriter_new []) * 2 ^ bits_len cs + bits_value cs.
Proof.
  apply (encode_block_bit_exact (FO := IEEE.ops) true (BitWriter_new [])
           (replicate 64 (f0 (FO := IEEE.ops))) (replicate 64 (f0 (FO := IEEE.ops))) 0).
  simpl. lia.
Defined.

(** ** The block filler, for every block and every mode *)

(** X10. [fill_block] for any block of any MCU, in every mode, in an image
    whose positions fit in an [int]. Entry
    [(dy, dx)] of [Y] is the luminance sample of the pixel at column
    [mcuX + blockX + dx] and row [mcuY + blockY + dy], the last column and
    row standing for what lies beyond the border; [Cb] and [Cr] get the
    chrominance samples of the same pixel for RGB pixels in 4:4:4 mode, and
    are not touched at all for grayscale pixels or in 4:2:0 mode. *)
Theorem fill_block_any_mode `{FO : FloatOps} pixels width height downsample isRGB
    mcuX mcuY blockX blockY (b : Blocks) dy dx :
  image_fits_int width height downsample isRGB →
  0 ≤ mcuX < width → 0 ≤ mcuY < height → 0 ≤ blockX < 16 → 0 ≤ blockY < 16 →
  length (Y b) = 64%nat → length (Cb b) = 64%nat → length (Cr b) = 64%nat →
  0 ≤ dy < 8 → 0 ≤ dx < 8 →
  let b' := fill_block pixels width height downsample isRGB mcuX mcuY blockX blockY b in
  let pos := sample_pos width height (mcuX + blockX + dx) (mcuY + blockY + dy) in
  at_ f0 (Y b') (dy * 8 + dx) = luma_sample pixels isRGB pos ∧
  (if isRGB && negb downsample
   then at_ f0 (Cb b') (dy * 8 + dx) = cb_sample pixels pos ∧
        at_ f0 (Cr b') (dy * 8 + dx) = cr_sample pixels pos
   else Cb b' = Cb b ∧ Cr b' = Cr b).
Proof.
  intros Hfits HmcuX HmcuY HblockX HblockY HlY HlCb HlCr Hdy Hdx b' pos.
  pose proof (fill_block_filled_fits pixels width height downsample isRGB Hfits
                mcuX mcuY blockX blockY b ltac:(lia) ltac:(lia) HlY HlCb HlCr)
    as (FY & FCb & FCr).
  cbv zeta in FY, FCb, FCr. fold b' in FY, FCb, FCr. clearbody b'.
  unfold sample_at in FY, FCb, FCr.
  destruct (idx_div_mod dy dx Hdx) as [Hdiv Hmod].
  split.
  - destruct FY as [_ FY]. rewrite FY, decide_True by lia. by rewrite Hdiv, Hmod.
  - unfold chroma_filled in FCb, FCr. destruct (isRGB && negb downsample); [|done].
    destruct FCb as [_ FCb]. destruct FCr as [_ FCr].
    rewrite FCb, FCr, !decide_True by lia. by rewrite Hdiv, Hmod.
Qed.

Lemma fill_block_any_mode_witness :
  let b := uninitialised (FO := IEEE.ops) (fun _ => S754_zero false) in
  let pixels := [10; 20; 30; 40; 50; 60; 70; 80; 90; 100; 110; 120; 130; 140; 150; 160; 170; 180] in
  let b' := fill_block pixels 3 2 true true 0 0 8 0 b in
  let pos := sample_pos 3 2 (0 + 8 + 1) (0 + 0 + 1) in
  at_ (f0 (FO := IEEE.ops)) (Y b') (1 * 8 + 1) = luma_sample pixels true pos ∧
  (if true && negb true
   then at_ (f0 (FO := IEEE.ops)) (Cb b') (1 * 8 + 1) = cb_sample pixels pos ∧
        at_ (f0 (FO := IEEE.ops)) (Cr b') (1 * 8 + 1) = cr_sample pixels pos
   else Cb b' = Cb b ∧ Cr b' = Cr b).
Proof.
  apply (fill_block_any_mode (FO := IEEE.ops)
           [10; 20; 30; 40; 50; 60; 70; 80; 90; 100; 110; 120; 130; 140; 150; 160; 170; 180]
           3 2 true true 0 0 8 0 (uninitialised (FO := IEEE.ops) (fun _ => S754_zero false)) 1 1);
    [unfold image_fits_int, INT_MAX; lia | lia | lia | lia | lia
    | reflexivity | reflexivity | reflexivity | lia | lia].
Defined.
(** ** Quality and quantization *)

Lemma quality_scale_mono q1 q2 :
  20 ≤ q1 ≤ q2 ≤ 100 → 0 ≤ quality_scale q2 ≤ quality_scale q1 ∧ quality_scale q1 ≤ 250.
Proof.
  intros Hq. unfold quality_scale.
  assert (H49 : ∀ q, 20 ≤ q ≤ 49 → 102 ≤ 5000 /i q ≤ 250).
  { intros q Hq'. split.
    - change 102 with (5000 /i 49). apply Z.quot_le_compat_l; lia.
    - change 250 with (5000 /i 20). apply Z.quot_le_compat_l; lia. }
  destruct (decide (q1 < 50)), (decide (q2 < 50)); try lia.
  - pose proof (H49 q1 ltac:(lia)). pose proof (H49 q2 ltac:(lia)).
    split; [|lia]. split; [lia|]. apply Z.quot_le_compat_l; lia.
  - pose proof (H49 q1 ltac:(lia)). lia.
Qed.

(** X19. Higher quality never means coarser quantization. For qualities
    from 20 to 100, where the scale factor fits the 8-bit parameter of
    [quant_table], and any default table without negative entries, every
    entry of the table of the higher quality is at most the entry of the
    table of the lower quality; at quality 100 every entry is 1. *)
Theorem quant_table_quality_monotone defaults q1 q2 i :
  Forall (fun d => 0 ≤ d) defaults → 20 ≤ q1 ≤ q2 ≤ 100 → 0 ≤ i < 64 →
  at_ 0 (quant_table defaults (quality_scale q2)) i
    ≤ at_ 0 (quant_table defaults (quality_scale q1)) i ∧
  at_ 0 (quant_table defaults (quality_scale 100)) i = 1.
Proof.
  intros Hd Hq Hi.
  destruct (quality_scale_mono q1 q2 Hq) as [[H0 Hle] H250].
  rewrite !(proj2 (quant_table_spec _ _ i Hi)).
  set (d := at_ 0 defaults (at_ 0 ZigZagInv i)).
  assert (Hd0 : 0 ≤ d).
  { unfold d. unfold at_ at 1. destruct (decide (0 ≤ at_ 0 ZigZagInv i)); [|lia].
    destruct (defaults !! _) as [x|] eqn:E; [|simpl; lia].
    apply (Forall_lookup_1 _ _ _ _ Hd E). }
  assert (Hu : ∀ s, 0 ≤ s ≤ 250 → u8 s = s) by (intros s Hs; apply Z.mod_small; lia).
  assert (Hc : ∀ v, u8 (clamp v 1 255) = clamp v 1 255).
  { intros v. apply Z.mod_small. unfold clamp. repeat destruct (decide _); lia. }
  rewrite !Hc, !Hu by lia. split.
  - assert (Hquot : (d * quality_scale q2 + 50) /i 100 ≤ (d * quality_scale q1 + 50) /i 100).
    { apply Z.quot_le_mono; [lia|]. nia. }
    unfold clamp. repeat destruct (decide _); lia.
  - change (quality_scale 100) with 0. rewrite Hu by lia.
    replace (d * 0 + 50) with 50 by lia. reflexivity.
Qed.

Lemma quant_table_quality_monotone_witness :
  at_ 0 (quant_table DefaultQuantLuminance_A (quality_scale 90)) 5
    ≤ at_ 0 (quant_table DefaultQuantLuminance_A (quality_scale 30)) 5 ∧
  at_ 0 (quant_table DefaultQuantLuminance_A (quality_scale 100)) 5 = 1.
Proof.
  apply (quant_table_quality_monotone DefaultQuantLuminance_A 30 90 5).
  - apply (bool_decide_unpack (Forall _ _)). vm_compute. exact I.
  - lia.
  - lia.
Defined.

(** ** The entry points *)

(** X20. An accepted call, end to end. For a quality from 2 to 100,
    non-null pixels and an image whose positions fit in an [int] (so its
    dimensions are not zero), [writeJpegQuality] and the
    template [writeJpeg<quality_>] return [true] and hand the sink the same
    views: the headers with the quantization tables of the quality, the scan
    of the image with the scaled tables, the flushed bits and the EOI
    marker; for grayscale pixels the [downsample] argument is ignored. *)
Theorem accepted_call_is_headers_scan_EOI `{FO : FloatOps} output pixels width height
    downsample isRGB quality_ comment stack :
  1 < quality_ ≤ 100 → image_fits_int width height (isRGB && downsample) isRGB →
  let ds := isRGB && downsample in
  let qL := quant_table DefaultQuantLuminance_A (quality_scale quality_) in
  let qC := quant_table DefaultQuantChrominance_A (quality_scale quality_) in
  let w := write_headers (BitWriter_new output) width height ds isRGB qL qC comment in
  let s := scan pixels width height ds isRGB (scaled_luminance qL) (scaled_chrominance qC) w in
  let result := Returned true (writer_output (put_byte (put_byte (flush (s_writer s)) 255) 217)) in
  writeJpegQuality output (Some pixels) width height downsample isRGB quality_ comment stack
    = result ∧
  writeJpeg quality_ output (Some pixels) width height downsample isRGB comment stack = result.
Proof.
  intros Hq Hfits. cbv zeta. unfold writeJpegQuality, writeJpeg.
  rewrite (bool_decide_eq_true_2 (quality_ > 1)), (bool_decide_eq_true_2 (quality_ ≤ 100))
    by lia.
  rewrite (bool_decide_eq_false_2 (width = 0)), (bool_decide_eq_false_2 (height = 0))
    by (destruct Hfits as (? & ? & _); lia).
  cbn [negb andb orb]. fold (quality_scale quality_).
  replace (if negb isRGB then false else downsample) with (isRGB && downsample)
    by (by destruct isRGB).
  set (ds := isRGB && downsample).
  set (qL := quant_table DefaultQuantLuminance_A (quality_scale quality_)).
  set (qC := quant_table DefaultQuantChrominance_A (quality_scale quality_)).
  unfold writeJpegIntern. cbv zeta.
  set (w := write_headers _ _ _ _ _ _ _ _). clearbody w.
  destruct (encode_mcus_scan pixels width height (scaled_luminance qL) (scaled_chrominance qC)
              ds isRGB (mkMcu w 0 0 0 (uninitialised stack)) w Hfits) as (ms & E & Hwr & _).
  { split; [reflexivity|]. split; [reflexivity|]. split; [reflexivity|]. split; [reflexivity|].
    apply lengths64_uninitialised. }
  rewrite E, bind_Some, Hwr. split; reflexivity.
Qed.

Lemma accepted_call_is_headers_scan_EOI_witness :
  let ds := false && true in
  let qL := quant_table DefaultQuantLuminance_A (quality_scale 90) in
  let qC := quant_table DefaultQuantChrominance_A (quality_scale 90) in
  let w := write_headers (BitWriter_new []) 1 1 ds false qL qC [] in
  let s := scan (FO := IEEE.ops) [200] 1 1 ds false (scaled_luminance qL) (scaled_chrominance qC) w in
  let result := Returned true (writer_output (put_byte (put_byte (flush (s_writer s)) 255) 217)) in
  writeJpegQuality (FO := IEEE.ops) [] (Some [200]) 1 1 true false 90 [] (fun _ => S754_zero false)
    = result ∧
  writeJpeg (FO := IEEE.ops) 90 [] (Some [200]) 1 1 true false [] (fun _ => S754_zero false)
    = result.
Proof.
  apply (accepted_call_is_headers_scan_EOI (FO := IEEE.ops) [] [200] 1 1 true false 90 []
           (fun _ => S754_zero false)); [lia | unfold image_fits_int, INT_MAX; simpl; lia].
Defined.

(** ** The scaled tables follow the quantization tables *)

Lemma scatter_loop {A} (d : A) (idx : Z → Z) (val : Z → A) (n : nat) :
  (∀ i j, 0 ≤ i < j → j < Z.of_nat n → idx i ≠ idx j) →
  (∀ i, 0 ≤ i < Z.of_nat n → 0 ≤ idx i < 64) →
  length (for_loop n 0 1 (fun i s => set_at s (idx i) (val i)) (replicate 64 d)) = 64%nat ∧
  ∀ i, 0 ≤ i < Z.of_nat n →
    at_ d (for_loop n 0 1 (fun i s => set_at s (idx i) (val i)) (replicate 64 d)) (idx i) = val i.
Proof.
  intros Hinj Hrange.
  apply (for_loop_ind (fun (k : nat) s =>
    length s = 64%nat ∧ ∀ i, 0 ≤ i < Z.of_nat k → at_ d s (idx i) = val i)).
  - split; [by rewrite length_replicate|]. intros i Hi. lia.
  - intros k s Hk [Hlen Hs]. rewrite Z.add_0_l, Z.mul_1_r.
    split; [by rewrite length_set_at|]. intros i Hi.
    destruct (decide (i = Z.of_nat k)) as [->|Hne].
    + apply at_set_at_eq. rewrite Hlen. apply Hrange. lia.
    + rewrite at_set_at_ne; [apply Hs; lia|].
      intros Heq. apply (Hinj i (Z.of_nat k)); [lia|lia|done].
Qed.

Lemma ZigZagInv_permutation :
  (∀ i j, 0 ≤ i < j → j < 64 → at_ 0 ZigZagInv i ≠ at_ 0 ZigZagInv j) ∧
  (∀ i, 0 ≤ i < 64 → 0 ≤ at_ 0 ZigZagInv i < 64) ∧
  (∀ j, 0 ≤ j < 64 → ∃ i, 0 ≤ i < 64 ∧ at_ 0 ZigZagInv i = j).
Proof.
  assert (Hall : ∀ P : Z → Prop, (∀ k : nat, (k < 64)%nat → P (Z.of_nat k)) →
                 ∀ i, 0 ≤ i < 64 → P i).
  { intros P HP i Hi. replace i with (Z.of_nat (Z.to_nat i)) by lia. apply HP. lia. }
  assert (Hnd : NoDup ZigZagInv).
  { apply (bool_decide_unpack (NoDup _)). vm_compute. exact I. }
  assert (Hat : ∀ i, 0 ≤ i < 64 → ZigZagInv !! Z.to_nat i = Some (at_ 0 ZigZagInv i)).
  { intros i Hi. unfold at_. rewrite decide_True by lia.
    destruct (ZigZagInv !! Z.to_nat i) eqn:E; [done|].
    apply lookup_ge_None in E. change (length ZigZagInv) with 64%nat in E. lia. }
  split; [|split].
  - intros i j Hij Hj Heq.
    pose proof (Hat i ltac:(lia)) as Hi. rewrite Heq in Hi.
    pose proof (NoDup_lookup ZigZagInv (Z.to_nat i) (Z.to_nat j) _ Hnd Hi (Hat j ltac:(lia))).
    lia.
  - intros i Hi. pose proof (Hat i Hi) as H. apply list_elem_of_lookup_2 in H.
    revert H. generalize (at_ 0 ZigZagInv i). intros z Hz.
    assert (Hf : Forall (fun z => 0 ≤ z < 64) ZigZagInv).
    { apply (bool_decide_unpack (Forall _ _)). vm_compute. exact I. }
    by apply (proj1 (Forall_forall _ _) Hf).
  - intros j Hj.
    assert (Hin : j ∈ ZigZagInv).
    { revert j Hj. apply Hall. intros k Hk.
      do 64 (destruct k as [|k]; [vm_compute; repeat constructor|]). lia. }
    apply list_elem_of_lookup_1 in Hin as [k Hk].
    pose proof (lookup_lt_Some _ _ _ Hk) as Hlt. change (length ZigZagInv) with 64%nat in Hlt.
    exists (Z.of_nat k). split; [lia|]. unfold at_. rewrite decide_True by lia.
    by rewrite Nat2Z.id, Hk.
Qed.

Section ScaledTables.
Context `{FO : FloatOps}.

Lemma scaled_luminance_at quant i :
  0 ≤ i < 64 →
  at_ f0 (scaled_luminance quant) (at_ 0 ZigZagInv i)
  = fdiv (aan_factor (at_ 0 ZigZagInv i)) (f_of_int (at_ 0 quant i)).
Proof.
  intros Hi. destruct ZigZagInv_permutation as (Hinj & Hrange & _).
  unfold scaled_luminance, for_range. change (trip_count (8 * 8 - 0) 1) with 64%nat.
  apply (proj2 (scatter_loop f0 (fun i => at_ 0 ZigZagInv i)
                  (fun i => fdiv (aan_factor (at_ 0 ZigZagInv i)) (f_of_int (at_ 0 quant i)))
                  64 Hinj Hrange) i Hi).
Qed.

Lemma scaled_chrominance_at quant i :
  0 ≤ i < 64 →
  at_ f0 (scaled_chrominance quant) (at_ 0 ZigZagInv i)
  = fdiv (aan_factor (at_ 0 ZigZagInv i)) (f_of_int (at_ 0 quant i)).
Proof. apply scaled_luminance_at. Qed.

End ScaledTables.

(** X21. The scaled tables follow the quantization tables. For every
    coefficient [j] of a block in row-major order, the factor the block
    encoder multiplies it by is the AAN factor of [j] divided by the
    quantization value computed from the default entry [j]; and that same
    value is the one the DQT segment stores, at the zig-zag position of
    [j]. The three uses of [ZigZagInv] (building the table, scaling, and
    reading the coefficients) agree. *)
Theorem scaled_tables_follow_quantization `{FO : FloatOps} defaults quality j :
  0 ≤ j < 64 →
  let q := u8 (clamp ((at_ 0 defaults j * u8 quality + 50) /i 100) 1 255) in
  at_ f0 (scaled_luminance (quant_table defaults quality)) j = fdiv (aan_factor j) (f_of_int q) ∧
  at_ f0 (scaled_chrominance (quant_table defaults quality)) j = fdiv (aan_factor j) (f_of_int q) ∧
  ∃ i, 0 ≤ i < 64 ∧ at_ 0 ZigZagInv i = j ∧ at_ 0 (quant_table defaults quality) i = q.
Proof.
  intros Hj. cbv zeta.
  destruct ZigZagInv_permutation as (_ & _ & Hsurj).
  destruct (Hsurj j Hj) as (i & Hi & <-).
  pose proof (proj2 (quant_table_spec defaults quality i Hi)) as Hq.
  split; [|split].
  - by rewrite scaled_luminance_at, Hq.
  - by rewrite scaled_chrominance_at, Hq.
  - by exists i.
Qed.

Lemma scaled_tables_follow_quantization_witness :
  let q := u8 (clamp ((at_ 0 DefaultQuantLuminance_A 9 * u8 20 + 50) /i 100) 1 255) in
  at_ (f0 (FO := IEEE.ops)) (scaled_luminance (quant_table DefaultQuantLuminance_A 20)) 9
    = fdiv (aan_factor 9) (f_of_int q) ∧
  at_ (f0 (FO := IEEE.ops)) (scaled_chrominance (quant_table DefaultQuantLuminance_A 20)) 9
    = fdiv (aan_factor 9) (f_of_int q) ∧
  ∃ i, 0 ≤ i < 64 ∧ at_ 0 ZigZagInv i = 9 ∧ at_ 0 (quant_table DefaultQuantLuminance_A 20) i = q.
Proof.
  apply (scaled_tables_follow_quantization (FO := IEEE.ops) DefaultQuantLuminance_A 20 9). lia.
Defined.

(** ** A comment too long for its length field *)

(** X22. A comment of 65534 or 65535 bytes breaks the headers. The length
    of the COM segment is passed to [addMarker] as a [uint16_t]: for such a
    comment the length field wraps to 0 or 1, less than the two bytes of the
    field itself, although all bytes of the comment are written; a reader
    that walks the segments cannot get past the COM marker. *)
Theorem long_comment_breaks_headers width height downsample isRGB qL qC comment :
  65534 ≤ Z.of_nat (length comment) ≤ 65535 →
  read_segments (drop 2 (header_bytes width height downsample isRGB qL qC comment)) = None.
Proof.
  intros Hlen.
  assert (Hne : comment ≠ []) by (intros ->; simpl in Hlen; lia).
  destruct (header_bytes_comment width height downsample isRGB qL qC comment Hne)
    as (rest & ->).
  match goal with
  | |- context [drop 2 (HeaderJfif ++ ?l)] =>
      change (drop 2 (HeaderJfif ++ l))
        with (segment 224 [74; 70; 73; 70; 0; 1; 1; 0; 0; 1; 0; 1; 0; 0] ++ l)
  end.
  set (L := u16 (2 + Z.of_nat (length comment))).
  assert (HL : L = 0 ∨ L = 1).
  { unfold L, u16.
    destruct (decide (Z.of_nat (length comment) = 65534)) as [->|]; [by left|].
    replace (Z.of_nat (length comment)) with 65535 by lia. by right. }
  assert (Hbad : ∀ fuel X,
            read_segments_fuel fuel ([255; 254; u8 (Z.shiftr L 8); u8 (Z.land L 255)] ++ X)
            = None).
  { intros [|fuel] X; [done|]. cbn [app read_segments_fuel].
    rewrite decide_False; [done|].
    intros (_ & H2 & _). destruct HL as [-> | ->]; vm_compute in H2; by apply H2. }
  unfold read_segments.
  rewrite read_segments_fuel_segment by (simpl; lia).
  by rewrite Hbad.
Qed.

Lemma long_comment_breaks_headers_witness :
  read_segments (drop 2 (header_bytes 8 8 false false (replicate 64 1) (replicate 64 1)
                           (replicate (Z.to_nat 65534) 65)))
  = None.
Proof.
  apply (long_comment_breaks_headers 8 8 false false (replicate 64 1) (replicate 64 1)
           (replicate (Z.to_nat 65534) 65)).
  rewrite length_replicate. lia.
Defined.

(** * The string utilities and the URL parser *)

Local Open Scope nat_scope.

Lemma nat_of_ascii_inj x y : nat_of_ascii x = nat_of_ascii y → x = y.
Proof. intros H. by rewrite <- (ascii_nat_embedding x), <- (ascii_nat_embedding y), H. Qed.

Lemma compare_eq a b : compare a b = 0%Z ↔ a = b.
Proof.
  revert b. induction a as [|x a IH]; intros [|y b]; cbn [compare]; try done.
  destruct (decide (nat_of_ascii x < nat_of_ascii y)) as [Hlt|Hge].
  { split; [done|]. intros [= -> _]. lia. }
  destruct (decide (nat_of_ascii y < nat_of_ascii x)) as [Hgt|Hle].
  { split; [done|]. intros [= -> _]. lia. }
  rewrite IH. split.
  - intros ->. f_equal. apply nat_of_ascii_inj. lia.
  - by intros [= _ ->].
Qed.

Lemma startsWith_prefix str other : startsWith str other = true ↔ other `prefix_of` str.
Proof.
  unfold startsWith, substr. rewrite andb_true_iff, !bool_decide_eq_true, drop_0. split.
  - intros [Hlen Hc]. symmetry in Hc. apply compare_eq in Hc.
    exists (drop (length other) str). by rewrite <- Hc at 1; rewrite take_drop.
  - intros [rest ->]. split; [rewrite length_app; lia|].
    symmetry. apply compare_eq. by rewrite take_app_length.
Qed.

Lemma endsWith_suffix str other : endsWith str other = true ↔ other `suffix_of` str.
Proof.
  unfold endsWith, substr. case_bool_decide as Hlen.
  - rewrite bool_decide_eq_true. split.
    + intros Hc. symmetry in Hc. apply compare_eq in Hc.
      rewrite take_ge in Hc by (rewrite length_drop; lia).
      exists (take (length str - length other) str).
      rewrite <- (take_drop (length str - length other) str) at 1. by rewrite Hc.
    + intros [pre ->]. symmetry. apply compare_eq.
      rewrite length_app. replace (length pre + length other - length other) with (length pre) by lia.
      rewrite drop_app_length. apply take_ge. lia.
  - split; [done|]. intros [pre ->]. rewrite length_app in Hlen. lia.
Qed.

(** X11. [startsWith] and [endsWith] decide what their names say:
    [startsWith(str, prefix)] holds iff [str] is [prefix] followed by
    something, [endsWith(str, suffix)] iff [str] is something followed by
    [suffix]; in particular both hold for the empty [prefix] or [suffix], and
    neither reads outside [str] when the second string is the longer one. *)
Theorem startsWith_endsWith_spec str other :
  (startsWith str other = true ↔ other `prefix_of` str) ∧
  (endsWith str other = true ↔ other `suffix_of` str).
Proof. split; [apply startsWith_prefix | apply endsWith_suffix]. Qed.

(** ** Searching *)

Lemma find_at_Some data pat i :
  find_at data pat = Some i →
  pat `prefix_of` drop i data ∧ i + length pat ≤ length data ∧
  ∀ j, j < i → ¬ pat `prefix_of` drop j data.
Proof.
  revert i. induction data as [|c data IH]; intros i; cbn [find_at].
  - case_bool_decide as Hp; [|done]. intros [= <-]. split; [done|].
    split; [|lia]. destruct Hp as [k Hk]. destruct pat; [simpl; lia|done].
  - case_bool_decide as Hp.
    + intros [= <-]. split; [done|]. split; [|lia].
      apply prefix_length in Hp. simpl in *. lia.
    + destruct (find_at data pat) as [i'|] eqn:E; [|done]. intros [= <-].
      destruct (IH i' eq_refl) as (H1 & H2 & H3). split; [done|]. split; [simpl; lia|].
      intros [|j] Hj; [done|]. apply H3. lia.
Qed.

Lemma find_at_None data pat :
  find_at data pat = None → ∀ j, ¬ pat `prefix_of` drop j data.
Proof.
  induction data as [|c data IH]; cbn [find_at].
  - case_bool_decide as Hp; [done|]. intros _ j. by rewrite drop_nil.
  - case_bool_decide as Hp; [done|].
    destruct (find_at data pat) as [i'|] eqn:E; [done|]. intros _ [|j]; [done|].
    by apply IH.
Qed.

Lemma find_at_first data pat i :
  pat `prefix_of` drop i data → i ≤ length data →
  (∀ j, j < i → ¬ pat `prefix_of` drop j data) →
  find_at data pat = Some i.
Proof.
  intros Hp Hi Hmin. destruct (find_at data pat) as [k|] eqn:E.
  - destruct (find_at_Some _ _ _ E) as (H1 & H2 & H3). f_equal.
    destruct (decide (k < i)); [by destruct (Hmin k)|].
    destruct (decide (i < k)); [by destruct (H3 i)|]. lia.
  - by destruct (find_at_None _ _ E i).
Qed.

(** ** [replace_all] *)

Section ReplaceAll.
Variables toSearch replaceStr : list ascii.

Lemma find_at_nil data : find_at data [] = Some 0.
Proof. destruct data; cbn [find_at]; by rewrite bool_decide_eq_true_2 by apply prefix_nil. Qed.

Lemma replace_loop_empty fuel data p :
  toSearch = [] → p ≤ length data →
  replace_loop fuel data toSearch replaceStr (Some p) = None.
Proof.
  intros ->. revert data p. induction fuel as [|fuel IH]; intros data p Hp; [done|].
  cbn [replace_loop length]. unfold string_find.
  set (data1 := string_replace data p 0 replaceStr).
  assert (Hlen : length data1 = length data + length replaceStr).
  { unfold data1, string_replace. rewrite !length_app, length_take, length_drop. lia. }
  rewrite decide_True by lia. rewrite find_at_nil. cbn [fmap option_fmap option_map].
  apply IH. lia.
Qed.

Hypothesis Hne : toSearch ≠ [].

Lemma toSearch_length : 0 < length toSearch.
Proof.
  destruct (decide (length toSearch = 0)) as [H0|]; [|lia].
  by apply nil_length_inv in H0.
Qed.

Lemma not_prefix_nil : ¬ toSearch `prefix_of` [].
Proof. intros H. apply prefix_nil_inv in H. done. Qed.

Lemma substitute_fuel n m data :
  length data ≤ n → length data ≤ m →
  substitute n data toSearch replaceStr = substitute m data toSearch replaceStr.
Proof.
  revert m data. induction n as [|n IH]; intros m data Hn Hm.
  - destruct data; [|simpl in Hn; lia]. destruct m; [done|]. cbn [substitute].
    by rewrite bool_decide_eq_false_2 by apply not_prefix_nil.
  - destruct m as [|m].
    + destruct data; [|simpl in Hm; lia]. cbn [substitute].
      by rewrite bool_decide_eq_false_2 by apply not_prefix_nil.
    + cbn [substitute]. case_bool_decide as Hp.
      * f_equal. pose proof toSearch_length. apply IH; rewrite length_drop; lia.
      * destruct data as [|c data]; [done|]. f_equal. apply IH; simpl in *; lia.
Qed.

Lemma substitute_none n data :
  (∀ j, ¬ toSearch `prefix_of` drop j data) →
  substitute n data toSearch replaceStr = data.
Proof.
  revert data. induction n as [|n IH]; intros data Hno; [done|]. cbn [substitute].
  rewrite bool_decide_eq_false_2 by apply (Hno 0).
  destruct data as [|c data]; [done|]. f_equal. apply IH. intros j. apply (Hno (S j)).
Qed.

Lemma substitute_first n data i :
  (∀ j, j < i → ¬ toSearch `prefix_of` drop j data) →
  toSearch `prefix_of` drop i data → i < n →
  substitute n data toSearch replaceStr
  = take i data ++ replaceStr
    ++ substitute (n - i - 1) (drop (i + length toSearch) data) toSearch replaceStr.
Proof.
  revert n data. induction i as [|i IH]; intros n data Hmin Hp Hn.
  - destruct n as [|n]; [lia|]. cbn [substitute]. rewrite bool_decide_eq_true_2 by done.
    cbn [take app]. replace (S n - 0 - 1) with n by lia. done.
  - destruct n as [|n]; [lia|]. cbn [substitute].
    rewrite bool_decide_eq_false_2 by (apply (Hmin 0); lia).
    destruct data as [|c data]; [by destruct not_prefix_nil|].
    cbn [take app]. f_equal. rewrite (IH n data); [done| |done|lia].
    intros j Hj. apply (Hmin (S j)). lia.
Qed.

Lemma replace_loop_spec fuel done rest :
  length rest < fuel →
  replace_loop fuel (done ++ rest) toSearch replaceStr
    ((fun i => length done + i) <$> find_at rest toSearch)
  = Some (done ++ substitute (length rest) rest toSearch replaceStr).
Proof.
  revert done rest. induction fuel as [|fuel IH]; intros done rest Hfuel; [lia|].
  destruct (find_at rest toSearch) as [i|] eqn:E.
  - destruct (find_at_Some _ _ _ E) as (Hp & Hlen & Hmin).
    cbn [fmap option_fmap option_map replace_loop].
    set (post := drop (i + length toSearch) rest).
    assert (Hdata1 : string_replace (done ++ rest) (length done + i) (length toSearch) replaceStr
                     = (done ++ take i rest ++ replaceStr) ++ post).
    { unfold string_replace, post. rewrite take_app_add, <- Nat.add_assoc, drop_app_add.
      by rewrite <- !app_assoc. }
    rewrite Hdata1.
    assert (Hl1 : length (done ++ take i rest ++ replaceStr)
                  = length done + i + length replaceStr).
    { rewrite !length_app, length_take. lia. }
    unfold string_find. rewrite decide_True by (rewrite length_app; lia).
    rewrite <- Hl1, drop_app_length.
    assert (Hpost : length post < fuel).
    { unfold post. rewrite length_drop. pose proof toSearch_length. lia. }
    rewrite (IH _ post Hpost). f_equal. pose proof toSearch_length as Hpos.
    rewrite (substitute_first (length rest) rest i Hmin Hp) by lia.
    rewrite <- !app_assoc. do 3 f_equal. fold post.
    apply substitute_fuel; unfold post; rewrite length_drop; lia.
  - cbn [fmap option_fmap option_map]. destruct fuel; cbn [replace_loop];
      by rewrite substitute_none by by apply find_at_None.
Qed.

Lemma replace_all_substitute fuel data :
  length data < fuel →
  replace_all fuel data toSearch replaceStr
  = Some (substitute (length data) data toSearch replaceStr).
Proof.
  intros Hfuel. unfold replace_all, string_find. rewrite decide_True by lia. rewrite drop_0.
  apply (replace_loop_spec fuel [] data Hfuel).
Qed.

Lemma elem_of_substitute n data x :
  x ∈ substitute n data toSearch replaceStr → x ∈ data ∨ x ∈ replaceStr.
Proof.
  revert data. induction n as [|n IH]; intros data; cbn [substitute]; [by left|].
  case_bool_decide as Hp.
  - rewrite elem_of_app. intros [H|H]; [by right|].
    destruct (IH _ H) as [H'|H']; [|by right]. left.
    rewrite <- (take_drop (length toSearch) data). apply elem_of_app. by right.
  - destruct data as [|c data]; [by left|]. rewrite !elem_of_cons.
    intros [->|H]; [left; by left|]. destruct (IH _ H) as [H'|H']; [left; by right|by right].
Qed.

End ReplaceAll.

(** X12. [replace_all] with a non-empty search string ends, after at most
    as many replacements as [data] has characters, and leaves in [data] the
    result of replacing, from left to right, every occurrence of [toSearch]
    that starts at or after the end of the previous replaced one; the
    replacement text is never searched again. If [toSearch] does not occur,
    [data] is unchanged. *)
Theorem replace_all_replaces fuel data toSearch replaceStr :
  toSearch ≠ [] → length data < fuel →
  replace_all fuel data toSearch replaceStr
    = Some (substitute (length data) data toSearch replaceStr) ∧
  ((∀ j, ¬ toSearch `prefix_of` drop j data) →
   replace_all fuel data toSearch replaceStr = Some data).
Proof.
  intros Hne Hfuel. split.
  - by apply replace_all_substitute.
  - intros Hno. rewrite replace_all_substitute by done. f_equal. by apply substitute_none.
Qed.

Lemma replace_all_replaces_witness :
  replace_all 9 (list_ascii_of_string "a%2b%25") (list_ascii_of_string "%2")
    (list_ascii_of_string "&")
    = Some (substitute (length (list_ascii_of_string "a%2b%25")) (list_ascii_of_string "a%2b%25")
              (list_ascii_of_string "%2") (list_ascii_of_string "&")) ∧
  ((∀ j, ¬ list_ascii_of_string "%2" `prefix_of` drop j (list_ascii_of_string "a%2b%25")) →
   replace_all 9 (list_ascii_of_string "a%2b%25") (list_ascii_of_string "%2")
     (list_ascii_of_string "&") = Some (list_ascii_of_string "a%2b%25")).
Proof.
  apply (replace_all_replaces 9 (list_ascii_of_string "a%2b%25") (list_ascii_of_string "%2")
           (list_ascii_of_string "&")).
  - simpl. discriminate.
  - simpl. lia.
Defined.

(** X13. [replace_all] with an empty search string never ends: the empty
    string is found at every position, so each iteration inserts
    [replaceStr] and searches again behind it; no number of iterations leaves
    the loop. *)
Theorem replace_all_empty_search_never_ends fuel data replaceStr :
  replace_all fuel data [] replaceStr = None.
Proof.
  unfold replace_all, string_find. rewrite decide_True by lia.
  rewrite find_at_nil. cbn [fmap option_fmap option_map].
  apply replace_loop_empty; [done|lia].
Qed.

(** X14. The file name [webpage_crawler] derives from the path of an image
    URL is always computed, and it never contains a [/]: the download cannot
    be written into another directory through a separator in the path. *)
Theorem crawler_file_name_no_slash image_url :
  ∃ name,
    crawler_file_name (S (length (path_ image_url))) image_url = Some name ∧
    "/"%char ∉ name.
Proof.
  unfold crawler_file_name.
  set (file_name := std_replace (path_ image_url) "/" "_").
  assert (Hlen : length file_name = length (path_ image_url)).
  { unfold file_name, std_replace. by rewrite length_fmap. }
  eexists. split.
  - apply replace_all_substitute; [done|lia].
  - intros Hin. apply elem_of_substitute in Hin as [Hin|Hin].
    + unfold file_name, std_replace in Hin. apply list_elem_of_fmap in Hin as (c & Hc & _).
      destruct (decide (c = "/"%char)); [done|]. by subst c.
    + apply list_elem_of_singleton in Hin. done.
Qed.


(** ** The URL parser *)

Lemma tolower_idem c : tolower (tolower c) = tolower c.
Proof. destruct c as [[] [] [] [] [] [] [] []]; reflexivity. Qed.

Lemma tolower_sep c x :
  x ∈ [":"%char; "/"%char; "?"%char] → (tolower c = x ↔ c = x).
Proof.
  intros Hx. rewrite !elem_of_cons in Hx. destruct Hx as [->|[->|[->|Hx]]].
  4:{ by apply elem_of_nil in Hx. }
  all: destruct c as [[] [] [] [] [] [] [] []]; vm_compute; split; congruence.
Qed.

Lemma find_le s c : find s c ≤ length s.
Proof. induction s as [|x s IH]; cbn [find length]; [done|]. destruct (decide _); lia. Qed.

Lemma find_app_notin h r c : c ∉ h → find (h ++ r) c = length h + find r c.
Proof.
  induction h as [|x h IH]; intros Hc; [done|]. cbn [app find length].
  apply not_elem_of_cons in Hc as [Hx Hh]. rewrite decide_False by done. by rewrite IH.
Qed.

Lemma find_notin s c : c ∉ take (find s c) s.
Proof.
  induction s as [|x s IH]; cbn [find]; [apply not_elem_of_nil|].
  destruct (decide (x = c)) as [->|Hne]; [apply not_elem_of_nil|].
  cbn [take]. apply not_elem_of_cons. done.
Qed.

Lemma find_lookup s c : find s c < length s → s !! find s c = Some c.
Proof.
  induction s as [|x s IH]; cbn [find length]; [lia|].
  destruct (decide (x = c)) as [->|Hne]; [done|]. intros H. cbn [lookup list_lookup]. apply IH. lia.
Qed.

Lemma find_fmap_tolower s c :
  c ∈ [":"%char; "/"%char; "?"%char] → find (tolower <$> s) c = find s c.
Proof.
  intros Hc. induction s as [|x s IH]; [done|]. cbn [fmap list_fmap find].
  destruct (decide (x = c)) as [->|Hne].
  - rewrite decide_True; [done|]. by apply tolower_sep.
  - rewrite decide_False; [by f_equal|]. intros H. apply Hne. by apply (tolower_sep x c Hc).
Qed.

Lemma path_like_find h r : "/"%char ∉ h → path_like r → find (h ++ r) "/"%char = length h.
Proof.
  intros Hh Hr. rewrite find_app_notin by done. destruct Hr as [->|[r' ->]]; [simpl; lia|].
  cbn [find]. rewrite decide_True by done. lia.
Qed.

Lemma find_at_app a b pat i : find_at a pat = Some i → find_at (a ++ b) pat = Some i.
Proof.
  revert i. induction a as [|x a IH]; intros i; cbn [find_at app].
  - case_bool_decide as Hp; [|done]. intros [= <-]. apply prefix_nil_inv in Hp as ->.
    apply find_at_nil.
  - case_bool_decide as Hp.
    + intros [= <-]. rewrite bool_decide_eq_true_2; [done|].
      change (x :: a ++ b) with ((x :: a) ++ b). by apply prefix_app_r.
    + destruct (find_at a pat) as [k|] eqn:E; [|done]. intros [= <-].
      destruct (find_at_Some _ _ _ E) as (_ & Hlen & _).
      rewrite bool_decide_eq_false_2.
      * by rewrite (IH k).
      * intros [rest Hrest]. apply Hp.
        exists (drop (length pat) (x :: a)).
        assert (Hpat : take (length pat) (x :: a) = pat).
        { apply (f_equal (take (length pat))) in Hrest.
          change (x :: a ++ b) with ((x :: a) ++ b) in Hrest.
          rewrite take_app_le in Hrest by (cbn [length]; lia).
          by rewrite take_app_length in Hrest. }
        rewrite <- Hpat at 1. by rewrite take_drop.
Qed.

Lemma prefix_fmap_tolower pat s :
  Forall (fun x => x ∈ [":"%char; "/"%char; "?"%char]) pat →
  pat `prefix_of` (tolower <$> s) ↔ pat `prefix_of` s.
Proof.
  intros Hpat. revert s. induction Hpat as [|x pat Hx _ IH]; intros s.
  - split; intros _; apply prefix_nil.
  - destruct s as [|c s]; cbn [fmap list_fmap].
    + split; intros H; by apply prefix_nil_inv in H.
    + split; intros H.
      * apply prefix_cons_inv_1 in H as Hxc. apply prefix_cons_inv_2 in H.
        symmetry in Hxc. apply (tolower_sep c x Hx) in Hxc as ->. apply prefix_cons. by apply IH.
      * apply prefix_cons_inv_1 in H as Hxc. apply prefix_cons_inv_2 in H. subst c.
        replace (tolower x) with x by (symmetry; by apply (tolower_sep x x Hx)).
        apply prefix_cons. by apply IH.
Qed.

Lemma find_at_fmap_tolower pat s :
  Forall (fun x => x ∈ [":"%char; "/"%char; "?"%char]) pat →
  find_at (tolower <$> s) pat = find_at s pat.
Proof.
  intros Hpat. induction s as [|c s IH]; cbn [fmap list_fmap find_at].
  - done.
  - rewrite IH.
    rewrite (bool_decide_ext _ (pat `prefix_of` c :: s)); [done|].
    apply (prefix_fmap_tolower pat (c :: s) Hpat).
Qed.

Lemma sep_chars :
  Forall (fun x => x ∈ [":"%char; "/"%char; "?"%char]) (list_ascii_of_string "://").
Proof. repeat constructor. Qed.

Lemma first_sep_tolower p : first_sep p → first_sep (tolower <$> p).
Proof.
  unfold first_sep. intros H. rewrite length_fmap, <- H.
  rewrite <- (find_at_fmap_tolower _ (p ++ _) sep_chars), fmap_app. reflexivity.
Qed.

Lemma transform_lower_app a m b :
  transform_lower (a ++ m ++ b) (length a) (length a + length m) = a ++ (tolower <$> m) ++ b.
Proof.
  unfold transform_lower. rewrite take_app_length, drop_app_length.
  replace (length a + length m - length a) with (length m) by lia.
  rewrite take_app_length, drop_app_add, drop_app_length. done.
Qed.

Lemma parse_parts p h r :
  first_sep p → "/"%char ∉ h → path_like r →
  parse (p ++ list_ascii_of_string "://" ++ h ++ r) = Some (url_of_parts p h r).
Proof.
  intros Hp Hh Hr. unfold parse. cbv zeta.
  set (sep := list_ascii_of_string "://").
  assert (Hsep : length sep = 3) by reflexivity.
  assert (Hsearch : search (p ++ sep ++ h ++ r) sep = length p).
  { unfold search. rewrite app_assoc. by rewrite (find_at_app _ _ _ _ Hp). }
  rewrite Hsearch, Hsep.
  rewrite decide_False by (rewrite !length_app; lia).
  assert (Hurl1 : transform_lower (p ++ sep ++ h ++ r) 0 (length p)
                  = (tolower <$> p) ++ sep ++ h ++ r).
  { apply (transform_lower_app [] p (sep ++ h ++ r)). }
  rewrite Hurl1.
  set (a := (tolower <$> p) ++ sep).
  assert (Ha : length a = length p + 3) by (unfold a; rewrite length_app, length_fmap; lia).
  replace ((tolower <$> p) ++ sep ++ h ++ r) with (a ++ h ++ r) by (unfold a; by rewrite <- app_assoc).
  rewrite <- Ha, drop_app_length, (path_like_find h r Hh Hr).
  rewrite transform_lower_app.
  set (lh := tolower <$> h).
  assert (Hlh : length lh = length h) by apply length_fmap.
  rewrite <- Hlh.
  replace (a ++ lh ++ r) with ((a ++ lh) ++ r) by by rewrite <- app_assoc.
  rewrite <- (length_app a lh), drop_app_length.
  cbn [fst snd]. unfold url_of_parts. cbv zeta.
  set (q := find r "?"%char).
  assert (Hq : q ≤ length r) by apply find_le.
  f_equal. f_equal.
  - unfold substr. rewrite drop_0. unfold a. rewrite <- !app_assoc.
    rewrite <- (length_fmap tolower p). by rewrite take_app_length.
  - unfold substr. rewrite <- app_assoc, drop_app_length.
    replace (length (a ++ lh) - length a) with (length lh) by (rewrite length_app; lia).
    by rewrite take_app_length.
  - unfold substr. rewrite drop_app_length. f_equal. lia.
  - rewrite (length_app (a ++ lh) r).
    destruct (decide (q ≠ length r)) as [Hne|He].
    + rewrite decide_True by lia.
      replace (S (length (a ++ lh) + q)) with (length (a ++ lh) + S q) by lia.
      by rewrite drop_app_add.
    + rewrite decide_False by lia. by rewrite drop_app_add.
  - unfold a. by rewrite <- !app_assoc.
Qed.

Lemma drop_lookup {A} (l : list A) n x : l !! n = Some x → drop n l = x :: drop (S n) l.
Proof.
  revert n. induction l as [|y l IH]; intros [|n] H; try done.
  - by injection H as ->.
  - cbn [drop]. by apply IH.
Qed.

Lemma parse_decompose s :
  search s (list_ascii_of_string "://") ≠ length s →
  ∃ p h r, s = p ++ list_ascii_of_string "://" ++ h ++ r ∧
           first_sep p ∧ ("/"%char ∉ h) ∧ path_like r.
Proof.
  set (sep := list_ascii_of_string "://"). unfold search.
  destruct (find_at s sep) as [i|] eqn:E; [|done]. intros _.
  destruct (find_at_Some _ _ _ E) as ([rest Hrest] & Hlen & Hmin).
  assert (Hs : s = take i s ++ sep ++ rest).
  { rewrite <- Hrest. by rewrite take_drop. }
  assert (Hi : length (take i s) = i).
  { rewrite length_take. change (length sep) with 3 in Hlen. lia. }
  exists (take i s), (take (find rest "/"%char) rest), (drop (find rest "/"%char) rest).
  split; [by rewrite take_drop|]. split; [|split].
  - unfold first_sep. fold sep. apply find_at_first.
    + rewrite drop_app_length. done.
    + rewrite length_app. lia.
    + intros j Hj Hpre. apply (Hmin j); [lia|].
      rewrite Hs, app_assoc, drop_app_le by (rewrite length_app; lia).
      by apply prefix_app_r.
  - apply find_notin.
  - destruct (decide (find rest "/"%char < length rest)) as [Hlt|Hge].
    + right. eexists. apply drop_lookup. by apply find_lookup.
    + left. apply drop_ge. lia.
Qed.

Lemma parse_Some s u :
  parse s = Some u →
  ∃ p h r, s = p ++ list_ascii_of_string "://" ++ h ++ r ∧
           first_sep p ∧ ("/"%char ∉ h) ∧ path_like r ∧ u = url_of_parts p h r.
Proof.
  intros H.
  destruct (decide (search s (list_ascii_of_string "://") = length s)) as [He|Hne].
  { unfold parse in H. cbv zeta in H. by rewrite decide_True in H. }
  destruct (parse_decompose s Hne) as (p & h & r & Hs & Hp & Hh & Hr).
  exists p, h, r. do 4 (split; [done|]).
  rewrite Hs, (parse_parts p h r Hp Hh Hr) in H. by injection H.
Qed.

Lemma startsWith_false str other : ¬ other `prefix_of` str → startsWith str other = false.
Proof.
  intros H. destruct (startsWith str other) eqn:E; [|done]. by apply startsWith_prefix in E.
Qed.

Lemma fmap_tolower_idem (l : list ascii) : tolower <$> (tolower <$> l) = tolower <$> l.
Proof. rewrite <- list_fmap_compose. apply list_fmap_ext. intros _ c _. apply tolower_idem. Qed.

Lemma notin_fmap_tolower (l : list ascii) c :
  c ∈ [":"%char; "/"%char; "?"%char] → c ∉ l → c ∉ (tolower <$> l).
Proof.
  intros Hc Hl Hin. apply list_elem_of_fmap in Hin as (x & Hx & Hxl).
  symmetry in Hx. apply (tolower_sep x c Hc) in Hx. by subst x.
Qed.

Lemma url_of_parts_tolower p h r :
  url_of_parts (tolower <$> p) (tolower <$> h) r = url_of_parts p h r.
Proof. unfold url_of_parts. by rewrite !fmap_tolower_idem. Qed.

Lemma find_elem s c : c ∈ s → find s c < length s.
Proof.
  induction s as [|x s IH]; [by intros ?%elem_of_nil|]. cbn [find length].
  destruct (decide (x = c)); [lia|]. intros [?|H]%elem_of_cons; [done|].
  specialize (IH H). lia.
Qed.

Lemma find_notin_length s c : c ∉ s → find s c = length s.
Proof.
  induction s as [|x s IH]; [done|]. intros [Hx Hs]%not_elem_of_cons. cbn [find length].
  rewrite decide_False by done. by rewrite IH.
Qed.

Lemma path_like_drop_find rest : path_like (drop (find rest "/"%char) rest).
Proof.
  destruct (decide (find rest "/"%char < length rest)) as [Hlt|Hge].
  - right. eexists. apply drop_lookup. by apply find_lookup.
  - left. apply drop_ge. lia.
Qed.

(** X15. [Url::parse] throws exactly when the string has no [://]: every
    string with a [://] somewhere in it is accepted, whatever stands before
    and behind it, the empty protocol and the empty host included. *)
Theorem parse_throws_iff s :
  parse s = None ↔ ∀ j, ¬ list_ascii_of_string "://" `prefix_of` drop j s.
Proof.
  set (sep := list_ascii_of_string "://"). split.
  - intros H.
    destruct (decide (search s sep = length s)) as [He|Hne].
    + unfold search in He. destruct (find_at s sep) as [i|] eqn:E.
      * destruct (find_at_Some _ _ _ E) as (_ & Hlen & _).
        change (i = length s) in He. change (length sep) with 3 in Hlen. lia.
      * by apply find_at_None.
    + destruct (parse_decompose s Hne) as (p & h & r & Hs & Hp & Hh & Hr).
      rewrite Hs, (parse_parts p h r Hp Hh Hr) in H. done.
  - intros Hno. unfold parse. cbv zeta. fold sep.
    rewrite decide_True; [done|]. unfold search.
    destruct (find_at s sep) as [i|] eqn:E; [|done].
    destruct (find_at_Some _ _ _ E) as (Hpre & _ & _). by destruct (Hno i).
Qed.

(** X16. The fields of a parsed URL. The stored string is the protocol,
    [://], the host and the path with the query, and has the length of the
    input; protocol and host are what the input has before and behind its
    first [://], in lower case, and the rest is the input's, character for
    character. The host has no [/], the path with the query is empty or
    starts with [/], the path has no [?], and the query is what follows the
    first [?] of the rest, if there is one. *)
Theorem parse_fields s u :
  parse s = Some u →
  url_ u = protocol_ u ++ list_ascii_of_string "://" ++ host_ u ++ path_and_query_ u ∧
  length (url_ u) = length s ∧
  (∃ p h, s = p ++ list_ascii_of_string "://" ++ h ++ path_and_query_ u ∧ first_sep p ∧
          protocol_ u = tolower <$> p ∧ host_ u = tolower <$> h) ∧
  ("/"%char ∉ host_ u) ∧ path_like (path_and_query_ u) ∧ ("?"%char ∉ path_ u) ∧
  path_and_query_ u
    = path_ u ++ (if decide ("?"%char ∈ path_and_query_ u) then "?"%char :: query_ u else []) ∧
  ("?"%char ∉ path_and_query_ u → query_ u = []).
Proof.
  intros H. destruct (parse_Some s u H) as (p & h & r & -> & Hp & Hh & Hr & ->).
  unfold url_of_parts. cbv zeta. cbn [url_ protocol_ host_ path_and_query_ path_ query_].
  split; [done|]. split; [by rewrite !length_app, !length_fmap|].
  split; [by exists p, h|].
  split; [apply notin_fmap_tolower; [apply list_elem_of_further, list_elem_of_here|done]|].
  split; [done|]. split; [apply find_notin|].
  destruct (decide ("?"%char ∈ r)) as [Hin|Hnin].
  - split; [|done]. pose proof (find_elem r _ Hin) as Hlt.
    rewrite decide_True by lia.
    rewrite <- (drop_lookup r (find r "?"%char) "?"%char) by by apply find_lookup.
    by rewrite take_drop.
  - rewrite (find_notin_length r _ Hnin), decide_False by (intros Hc; by apply Hc).
    rewrite take_ge, drop_ge, app_nil_r by lia. done.
Qed.

Lemma parse_fields_witness :
  let s := list_ascii_of_string "HTTPS://Domain.ORG/Path/a.PNG?x=1" in
  let u := url_of_parts (list_ascii_of_string "HTTPS") (list_ascii_of_string "Domain.ORG")
             (list_ascii_of_string "/Path/a.PNG?x=1") in
  url_ u = protocol_ u ++ list_ascii_of_string "://" ++ host_ u ++ path_and_query_ u ∧
  length (url_ u) = length s ∧
  (∃ p h, s = p ++ list_ascii_of_string "://" ++ h ++ path_and_query_ u ∧ first_sep p ∧
          protocol_ u = tolower <$> p ∧ host_ u = tolower <$> h) ∧
  ("/"%char ∉ host_ u) ∧ path_like (path_and_query_ u) ∧ ("?"%char ∉ path_ u) ∧
  path_and_query_ u
    = path_ u ++ (if decide ("?"%char ∈ path_and_query_ u) then "?"%char :: query_ u else []) ∧
  ("?"%char ∉ path_and_query_ u → query_ u = []).
Proof.
  apply (parse_fields (list_ascii_of_string "HTTPS://Domain.ORG/Path/a.PNG?x=1")
           (url_of_parts (list_ascii_of_string "HTTPS") (list_ascii_of_string "Domain.ORG")
              (list_ascii_of_string "/Path/a.PNG?x=1"))).
  vm_compute. reflexivity.
Defined.

(** X17. Copying a URL gives the same URL. The copy constructor and the
    copy assignment parse the stored string again; for a URL that came out
    of [parse] this never throws and yields the same string and the same
    six views. *)
Theorem Url_copy_same s u : parse s = Some u → Url_copy u = Some u.
Proof.
  intros H. destruct (parse_Some s u H) as (p & h & r & -> & Hp & Hh & Hr & ->).
  unfold Url_copy. unfold url_of_parts at 1. cbv zeta. cbn [url_].
  rewrite (parse_parts (tolower <$> p) (tolower <$> h) r).
  - by rewrite url_of_parts_tolower.
  - by apply first_sep_tolower.
  - apply notin_fmap_tolower; [apply list_elem_of_further, list_elem_of_here|done].
  - done.
Qed.

Lemma Url_copy_same_witness :
  Url_copy (url_of_parts (list_ascii_of_string "HTTPS") (list_ascii_of_string "Domain.ORG")
              (list_ascii_of_string "/Path/a.PNG?x=1"))
  = Some (url_of_parts (list_ascii_of_string "HTTPS") (list_ascii_of_string "Domain.ORG")
            (list_ascii_of_string "/Path/a.PNG?x=1")).
Proof.
  apply (Url_copy_same (list_ascii_of_string "HTTPS://Domain.ORG/Path/a.PNG?x=1")).
  vm_compute. reflexivity.
Defined.

(** X18. Relative URLs are resolved against the protocol and the host of
    the base. For a base that came out of [parse]: a reference [/path...]
    that does not start with [//] gives the URL with the protocol and the
    host of the base and the reference as its path and query, unchanged; a
    reference [//host/path...] gives the URL with the protocol of the base,
    the host of the reference in lower case and the rest of the reference.
    Neither throws. *)
Theorem from_relative_resolves s base rest :
  parse s = Some base →
  (head rest ≠ Some "/"%char →
   ∃ u, from_relative base ("/"%char :: rest) = Some u ∧
        protocol_ u = protocol_ base ∧ host_ u = host_ base ∧
        path_and_query_ u = "/"%char :: rest ∧
        url_ u = protocol_ base ++ list_ascii_of_string "://" ++ host_ base ++ "/"%char :: rest) ∧
  (∃ u, from_relative base ("/"%char :: "/"%char :: rest) = Some u ∧
        protocol_ u = protocol_ base ∧
        host_ u = tolower <$> take (find rest "/"%char) rest ∧
        path_and_query_ u = drop (find rest "/"%char) rest).
Proof.
  intros H. destruct (parse_Some s base H) as (p & h & r & -> & Hp & Hh & Hr & ->).
  unfold url_of_parts at 1 2 3 4 5 6 7. cbv zeta. cbn [protocol_ host_].
  split.
  - intros Hhead. unfold from_relative. cbn [protocol_ host_].
    rewrite (startsWith_false ("/"%char :: rest) (list_ascii_of_string "http")).
    2:{ intros [k Hk]. done. }
    rewrite (startsWith_false ("/"%char :: rest) (list_ascii_of_string "//")).
    2:{ intros [k Hk]. destruct rest as [|c rest]; [done|]. injection Hk as -> _.
        by apply Hhead. }
    rewrite (proj2 (startsWith_prefix ("/"%char :: rest) (list_ascii_of_string "/"))).
    2:{ by exists rest. }
    rewrite (parse_parts (tolower <$> p) (tolower <$> h) ("/"%char :: rest)).
    + eexists. split; [reflexivity|]. rewrite url_of_parts_tolower.
      unfold url_of_parts. cbv zeta. cbn [protocol_ host_ path_and_query_ url_]. done.
    + by apply first_sep_tolower.
    + apply notin_fmap_tolower; [apply list_elem_of_further, list_elem_of_here|done].
    + right. by exists rest.
  - unfold from_relative. cbn [protocol_ host_].
    rewrite (startsWith_false ("/"%char :: "/"%char :: rest) (list_ascii_of_string "http")).
    2:{ intros [k Hk]. done. }
    rewrite (proj2 (startsWith_prefix ("/"%char :: "/"%char :: rest)
                      (list_ascii_of_string "//"))).
    2:{ by exists rest. }
    change (list_ascii_of_string ":" ++ "/"%char :: "/"%char :: rest)
      with (list_ascii_of_string "://" ++ rest).
    replace (list_ascii_of_string "://" ++ rest)
      with (list_ascii_of_string "://" ++ take (find rest "/"%char) rest
            ++ drop (find rest "/"%char) rest) by (by rewrite take_drop).
    rewrite (parse_parts (tolower <$> p) (take (find rest "/"%char) rest)
               (drop (find rest "/"%char) rest)).
    + eexists. split; [reflexivity|].
      unfold url_of_parts. cbv zeta. cbn [protocol_ host_ path_and_query_ url_].
      by rewrite fmap_tolower_idem.
    + by apply first_sep_tolower.
    + apply find_notin.
    + apply path_like_drop_find.
Qed.

Lemma from_relative_resolves_witness :
  let base := url_of_parts (list_ascii_of_string "https") (list_ascii_of_string "upload.wikipedia.org") [] in
  let rest := list_ascii_of_string "upload.wikimedia.org/a/Flag.png" in
  (head rest ≠ Some "/"%char →
   ∃ u, from_relative base ("/"%char :: rest) = Some u ∧
        protocol_ u = protocol_ base ∧ host_ u = host_ base ∧
        path_and_query_ u = "/"%char :: rest ∧
        url_ u = protocol_ base ++ list_ascii_of_string "://" ++ host_ base ++ "/"%char :: rest) ∧
  (∃ u, from_relative base ("/"%char :: "/"%char :: rest) = Some u ∧
        protocol_ u = protocol_ base ∧
        host_ u = tolower <$> take (find rest "/"%char) rest ∧
        path_and_query_ u = drop (find rest "/"%char) rest).
Proof.
  apply (from_relative_resolves (list_ascii_of_string "https://upload.wikipedia.org")
           (url_of_parts (list_ascii_of_string "https") (list_ascii_of_string "upload.wikipedia.org") [])
           (list_ascii_of_string "upload.wikimedia.org/a/Flag.png")).
  vm_compute. reflexivity.
Defined.
